(** * canon-observability: the event lifecycle engine, embedded in Rocq

    The development follows the TypeScript sources:
    - [Js]       the fragment of JavaScript data the library manipulates
                 (values, a store of objects and arrays, property reads,
                 [String], [typeof], truthiness);
    - [Merge]    utils/merge.ts  (mergeDeep, setPath, getPath, hasPath,
                 snapshot);
    - [Time]     utils/time.ts   (durationMs);
    - [Event]    core/event.ts   (EventBuilder, normalizeError);
    - [Sampling] core/sampling   (shouldSampleDefault, shouldSample);
    - [Sha256]   the digest behind [createHash('sha256')];
    - [Redact]   core/redact     (maskValue, hashValue, redactValue,
                 applyRedaction), with the schema types of types.ts;
    - [Schema]   core/schema     (validateSchema);
    - [Canon]    core/canon      (createCanonContext, emitEvent).

    All definitions come first; the lemmas and theorems follow. *)

From Stdlib Require Import ZArith QArith String Ascii List Lia Bool.
From stdpp Require Import base list strings gmap pretty.

Open Scope string_scope.
Open Scope list_scope.

(** [length] is the length of a list throughout; strings use
    [String.length] and [+:+] for concatenation. *)
Abbreviation length := Datatypes.length.

(* ===================================================================== *)
(** * Part I: definitions                                                 *)
(* ===================================================================== *)

(** ** JavaScript data *)

Module Js.

(** Objects and arrays live in a store and are referred to by location, so
    that the in-place writes of the sources ([result[key] = ...],
    [this.state.event.outcome = ...]) and the sharing they create are
    visible.  Numbers are restricted to integers: status codes, and a clock
    read in whole milliseconds. *)

Abbreviation loc := nat.

Inductive value : Type :=
| VUndefined
| VNull
| VBool (b : bool)
| VNum (n : Z)
| VStr (s : string)
| VRef (l : loc).

(** An object keeps its own enumerable properties in insertion order; an
    array keeps its elements. *)
Inductive obj : Type :=
| Obj (fields : list (string * value))
| Arr (elems : list value).

Abbreviation heap := (list obj).

(** What an expression such as [o[key]] evaluates to: a stored datum, or a
    built-in function found on the prototype chain ([fname] is the name of
    the function, as [String] prints it). *)
Inductive jsval : Type :=
| Data (v : value)
| Native (fname : string).

Inductive jstype : Type :=
| TyUndefined | TyObject | TyBoolean | TyNumber | TyString | TyFunction.

#[global] Instance value_eq_dec : EqDecision value.
Proof. solve_decision. Defined.
#[global] Instance obj_eq_dec : EqDecision obj.
Proof. solve_decision. Defined.
#[global] Instance jsval_eq_dec : EqDecision jsval.
Proof. solve_decision. Defined.
#[global] Instance jstype_eq_dec : EqDecision jstype.
Proof. solve_decision. Defined.

(** [typeof v] *)
Definition typeof (v : jsval) : jstype :=
  match v with
  | Data VUndefined => TyUndefined
  | Data VNull => TyObject
  | Data (VBool _) => TyBoolean
  | Data (VNum _) => TyNumber
  | Data (VStr _) => TyString
  | Data (VRef _) => TyObject
  | Native _ => TyFunction
  end.

Definition typeof_name (t : jstype) : string :=
  match t with
  | TyUndefined => "undefined"
  | TyObject => "object"
  | TyBoolean => "boolean"
  | TyNumber => "number"
  | TyString => "string"
  | TyFunction => "function"
  end.

(** [!!v] *)
Definition truthy (v : jsval) : bool :=
  match v with
  | Data VUndefined | Data VNull => false
  | Data (VBool b) => b
  | Data (VNum n) => negb (n =? 0)%Z
  | Data (VStr s) => negb (String.eqb s "")
  | Data (VRef _) => true
  | Native _ => true
  end.

(** [v === "s"] *)
Definition is_string (v : jsval) (s : string) : bool :=
  match v with
  | Data (VStr s') => String.eqb s' s
  | _ => false
  end.

(** [v === undefined] *)
Definition is_undefined (v : jsval) : bool :=
  match v with Data VUndefined => true | _ => false end.

(** [v === null || v === undefined] *)
Definition is_nullish (v : jsval) : bool :=
  match v with Data VUndefined | Data VNull => true | _ => false end.

(** *** Association lists for own properties *)

Fixpoint assoc {A : Type} (k : string) (l : list (string * A)) : option A :=
  match l with
  | [] => None
  | (k', a) :: l' => if String.eqb k' k then Some a else assoc k l'
  end.

(** [o[k] = v] on the property list: an existing key keeps its position, a
    new key goes last. *)
Fixpoint set_field (fs : list (string * value)) (k : string) (v : value)
  : list (string * value) :=
  match fs with
  | [] => [(k, v)]
  | (k', v') :: fs' =>
      if String.eqb k' k then (k', v) :: fs' else (k', v') :: set_field fs' k v
  end.

(** [{ ...into, ...fs }] *)
Definition spread (fs into : list (string * value)) : list (string * value) :=
  fold_left (fun acc kv => set_field acc kv.1 kv.2) fs into.

(** *** Array indices *)

Definition digit_of (c : ascii) : option nat :=
  let n := nat_of_ascii c in
  if (48 <=? n)%nat && (n <=? 57)%nat then Some (n - 48)%nat else None.

Fixpoint parse_digits (acc : nat) (s : string) : option nat :=
  match s with
  | EmptyString => Some acc
  | String c s' =>
      match digit_of c with
      | Some d => parse_digits (10 * acc + d) s'
      | None => None
      end
  end.

(** A key is an array index when it is the canonical decimal form of a
    natural number. *)
Definition index_of_key (k : string) : option nat :=
  match k with
  | EmptyString => None
  | _ =>
      match parse_digits 0 k with
      | Some n => if String.eqb (pretty n) k then Some n else None
      | None => None
      end
  end.

(** *** Prototypes

    Plain objects inherit from [Object.prototype] and arrays from
    [Array.prototype]; each entry gives the inherited key and the name of the
    function it holds.  The accessor [__proto__] is not modelled. *)

Definition object_prototype : list (string * string) :=
  [ ("constructor", "Object");
    ("__defineGetter__", "__defineGetter__");
    ("__defineSetter__", "__defineSetter__");
    ("hasOwnProperty", "hasOwnProperty");
    ("__lookupGetter__", "__lookupGetter__");
    ("__lookupSetter__", "__lookupSetter__");
    ("isPrototypeOf", "isPrototypeOf");
    ("propertyIsEnumerable", "propertyIsEnumerable");
    ("toString", "toString");
    ("valueOf", "valueOf");
    ("toLocaleString", "toLocaleString") ].

Definition array_methods : list string :=
  [ "at"; "concat"; "copyWithin"; "fill"; "find"; "findIndex"; "findLast";
    "findLastIndex"; "lastIndexOf"; "pop"; "push"; "reverse"; "shift";
    "unshift"; "slice"; "sort"; "splice"; "includes"; "indexOf"; "join";
    "keys"; "entries"; "values"; "forEach"; "filter"; "flat"; "flatMap";
    "map"; "every"; "some"; "reduce"; "reduceRight"; "toLocaleString";
    "toString"; "toReversed"; "toSorted"; "toSpliced"; "with" ].

Definition array_prototype : list (string * string) :=
  ("constructor", "Array") :: map (fun m => (m, m)) array_methods
    ++ object_prototype.

(** *** Property access *)

(** The own property [k] of the object at [l], if there is one. *)
Definition get_own (h : heap) (l : loc) (k : string) : option value :=
  match h !! l with
  | Some (Obj fs) => assoc k fs
  | Some (Arr vs) =>
      match index_of_key k with
      | Some i => vs !! i
      | None =>
          if String.eqb k "length" then Some (VNum (Z.of_nat (length vs)))
          else None
      end
  | None => None
  end.

Definition inherited (h : heap) (l : loc) (k : string) : option string :=
  match h !! l with
  | Some (Obj _) => assoc k object_prototype
  | Some (Arr _) => assoc k array_prototype
  | None => None
  end.

(** [k in o]: own or inherited. *)
Definition has_property (h : heap) (l : loc) (k : string) : bool :=
  match get_own h l k with
  | Some _ => true
  | None => match inherited h l k with Some _ => true | None => false end
  end.

(** [Object.hasOwn(o, k)] *)
Definition has_own (h : heap) (l : loc) (k : string) : bool :=
  match get_own h l k with Some _ => true | None => false end.

(** [o[k]] *)
Definition get_prop (h : heap) (l : loc) (k : string) : jsval :=
  match get_own h l k with
  | Some v => Data v
  | None =>
      match inherited h l k with
      | Some f => Native f
      | None => Data VUndefined
      end
  end.

(** [o[k]] for a key [k] taken from [Object.keys(o)]. *)
Definition get_own_or_undefined (h : heap) (l : loc) (k : string) : value :=
  match get_own h l k with Some v => v | None => VUndefined end.

(** The own enumerable properties, in the order of [Object.keys]; for an
    array these are its indices. *)
Definition own_fields (h : heap) (l : loc) : list (string * value) :=
  match h !! l with
  | Some (Obj fs) => fs
  | Some (Arr vs) => imap (fun i v => (pretty i, v)) vs
  | None => []
  end.

Definition keys (h : heap) (l : loc) : list string := map fst (own_fields h l).

(** *** Store updates *)

(** A fresh object is placed at the end of the store. *)
Definition alloc (o : obj) (h : heap) : loc * heap := (length h, h ++ [o]).

(** [o[k] = v].  The sources only assign to plain objects; on an array the
    assignment to an existing index is modelled as well. *)
Definition set_prop (l : loc) (k : string) (v : value) (h : heap) : heap :=
  match h !! l with
  | Some (Obj fs) => <[l := Obj (set_field fs k v)]> h
  | Some (Arr vs) =>
      match index_of_key k with
      | Some i => <[l := Arr (<[i := v]> vs)]> h
      | None => h
      end
  | None => h
  end.

(** *** Well-formed stores: every reference points into the store and no
    object lists a key twice. *)

Definition value_ok (n : nat) (v : value) : bool :=
  match v with VRef l => (l <? n)%nat | _ => true end.

Fixpoint nodup_keys (ks : list string) : bool :=
  match ks with
  | [] => true
  | k :: ks' => negb (existsb (String.eqb k) ks') && nodup_keys ks'
  end.

Definition obj_ok (n : nat) (o : obj) : bool :=
  match o with
  | Obj fs => forallb (fun kv => value_ok n kv.2) fs && nodup_keys (map fst fs)
  | Arr vs => forallb (value_ok n) vs
  end.

Definition heap_ok (h : heap) : bool := forallb (obj_ok (length h)) h.

(** The objects below [n] only refer to objects below [n]. *)
Definition closed_below (n : nat) (h : heap) : Prop :=
  (n ≤ length h)%nat
  ∧ ∀ l o, (l < n)%nat → h !! l = Some o → obj_ok n o = true.

(** *** Structure of a value, unfolded to a given depth

    Two values are structurally equal when they unfold to the same tree at
    every depth; this also compares cyclic structures. *)

#[warnings="-register-all"]
Inductive tree : Type :=
| TUndefined
| TNull
| TBool (b : bool)
| TNum (n : Z)
| TStr (s : string)
| TObj (fields : list (string * tree))
| TArr (elems : list tree)
| TCut (is_array : bool)
| TDangling.

Fixpoint unfold (n : nat) (h : heap) (v : value) : tree :=
  match v with
  | VUndefined => TUndefined
  | VNull => TNull
  | VBool b => TBool b
  | VNum z => TNum z
  | VStr s => TStr s
  | VRef l =>
      match h !! l with
      | None => TDangling
      | Some o =>
          match n with
          | O => TCut (match o with Arr _ => true | Obj _ => false end)
          | S n' =>
              match o with
              | Obj fs => TObj (map (fun kv => (kv.1, unfold n' h kv.2)) fs)
              | Arr vs => TArr (map (unfold n' h) vs)
              end
          end
      end
  end.

Definition deep_equal (h1 : heap) (v1 : value) (h2 : heap) (v2 : value) : Prop :=
  ∀ n, unfold n h1 v1 = unfold n h2 v2.

(** The locations reachable from a value within [n] steps. *)
Fixpoint reach (n : nat) (h : heap) (v : value) : list loc :=
  match v with
  | VRef l =>
      l :: match n with
           | O => []
           | S n' =>
               match h !! l with
               | Some (Obj fs) => flat_map (fun kv => reach n' h kv.2) fs
               | Some (Arr vs) => flat_map (reach n' h) vs
               | None => []
               end
           end
  | _ => []
  end.

(** *** [String(v)] *)

Definition native_source (fname : string) : string :=
  "function " +:+ fname +:+ "() { [native code] }".

(** [Array.prototype.join] renders [null] and [undefined] as the empty
    string, and an array met again while it is being joined as the empty
    string too. *)
Fixpoint join_array (fuel : nat) (h : heap) (visiting : list loc) (l : loc)
  : string :=
  match fuel with
  | O => ""
  | S fuel' =>
      match h !! l with
      | Some (Arr vs) =>
          if bool_decide (l ∈ visiting) then ""
          else
            String.concat ","
              (map (fun v =>
                      match v with
                      | VUndefined | VNull => ""
                      | VBool b => if b then "true" else "false"
                      | VNum z => pretty z
                      | VStr s => s
                      | VRef l' =>
                          match h !! l' with
                          | Some (Arr _) => join_array fuel' h (l :: visiting) l'
                          | _ => "[object Object]"
                          end
                      end) vs)
      | _ => "[object Object]"
      end
  end.

Definition to_string (h : heap) (v : jsval) : string :=
  match v with
  | Data VUndefined => "undefined"
  | Data VNull => "null"
  | Data (VBool b) => if b then "true" else "false"
  | Data (VNum z) => pretty z
  | Data (VStr s) => s
  | Data (VRef l) => join_array (S (length h)) h [] l
  | Native f => native_source f
  end.

(** *** String helpers *)

(** [s.split(c)] for a one-character separator. *)
Fixpoint split_on (c : ascii) (s : string) : list string :=
  match s with
  | EmptyString => [EmptyString]
  | String a s' =>
      if Ascii.eqb a c then EmptyString :: split_on c s'
      else
        match split_on c s' with
        | p :: ps => String a p :: ps
        | [] => [String a EmptyString]
        end
  end.

(** [s.includes(c)] *)
Fixpoint includes (c : ascii) (s : string) : bool :=
  match s with
  | EmptyString => false
  | String a s' => Ascii.eqb a c || includes c s'
  end.

(** [c.repeat(n)] *)
Fixpoint repeat_char (c : ascii) (n : nat) : string :=
  match n with
  | O => EmptyString
  | S n' => String c (repeat_char c n')
  end.

(** [s[0]] and [s[s.length - 1]], as one-character strings. *)
Definition first_char (s : string) : string :=
  match s with
  | EmptyString => ""
  | String a _ => String a EmptyString
  end.

Fixpoint last_char (s : string) : string :=
  match s with
  | EmptyString => ""
  | String a EmptyString => String a EmptyString
  | String _ s' => last_char s'
  end.

Fixpoint count_char (c : ascii) (s : string) : nat :=
  match s with
  | EmptyString => 0
  | String a s' => (if Ascii.eqb a c then 1 else 0) + count_char c s'
  end.

End Js.

Import Js.

(** ** src/utils/merge.ts *)

Module Merge.

Definition MAX_MERGE_DEPTH : nat := 5.

(** [isPlainObject(value)]: an object of the store that is not an array.
    Class instances are outside the data model, so every non-array object
    has [Object.prototype] as its prototype. *)
Definition isPlainObject (h : heap) (v : jsval) : bool :=
  match v with
  | Data (VRef l) =>
      match h !! l with
      | Some (Obj _) => true
      | _ => false
      end
  | _ => false
  end.

(** One turn of the loop [for (const key of Object.keys(source))] of
    [mergeDeep]; [recurse] is the recursive call at [depth + 1]. *)
Definition merge_key (recurse : loc → loc → heap → loc * heap)
    (source result : loc) (h : heap) (key : string) : heap :=
  let sourceValue := get_own_or_undefined h source key in
  let targetValue := get_prop h result key in
  if isPlainObject h (Data sourceValue) && isPlainObject h targetValue then
    match sourceValue, targetValue with
    | VRef s, Data (VRef t) =>
        let '(merged, h') := recurse t s h in
        set_prop result key (VRef merged) h'
    | _, _ => set_prop result key sourceValue h
    end
  else set_prop result key sourceValue h.

(** [mergeDeep(target, source, depth)], with [remaining] standing for
    [MAX_MERGE_DEPTH - depth]: at [remaining = 0] the test
    [depth >= MAX_MERGE_DEPTH] succeeds.  [Object.keys(source)] is read once,
    when the loop starts. *)
Fixpoint mergeDeep_from (remaining : nat) (target source : loc) (h : heap)
  : loc * heap :=
  match remaining with
  | O => alloc (Obj (spread (own_fields h source) (spread (own_fields h target) []))) h
  | S remaining' =>
      let '(result, h1) := alloc (Obj (spread (own_fields h target) [])) h in
      (result,
       fold_left (merge_key (mergeDeep_from remaining') source result)
         (keys h source) h1)
  end.

Definition mergeDeep_at (depth : nat) (target source : loc) (h : heap)
  : loc * heap :=
  mergeDeep_from (MAX_MERGE_DEPTH - depth) target source h.

(** [mergeDeep(target, source)] *)
Definition mergeDeep (target source : loc) (h : heap) : loc * heap :=
  mergeDeep_at 0 target source h.

(** [isPlainObject(existing) ? { ...existing } : {}] *)
Definition copy_or_empty (h : heap) (existing : jsval) : list (string * value) :=
  match existing with
  | Data (VRef e) =>
      if isPlainObject h existing then spread (own_fields h e) [] else []
  | _ => []
  end.

(** The loop of [setPath] over [parts], [current] being the object the
    walk has reached. *)
Fixpoint setPath_walk (current : loc) (parts : list string) (v : value)
    (h : heap) : heap :=
  match parts with
  | [] => h
  | [last] => set_prop current last v h
  | key :: rest =>
      let existing := get_prop h current key in
      let '(next, h1) := alloc (Obj (copy_or_empty h existing)) h in
      setPath_walk next rest v (set_prop current key (VRef next) h1)
  end.

(** [setPath(obj, path, value)]; [path.split('.')] is never empty. *)
Definition setPath (o : loc) (path : string) (v : value) (h : heap)
  : loc * heap :=
  let parts := split_on "." path in
  let '(result, h1) := alloc (Obj (spread (own_fields h o) [])) h in
  (result, setPath_walk result parts v h1).

Fixpoint getPath_walk (h : heap) (current : jsval) (parts : list string)
  : jsval :=
  match parts with
  | [] => current
  | part :: rest =>
      match current with
      | Data (VRef l) => getPath_walk h (get_prop h l part) rest
      | _ => Data VUndefined
      end
  end.

(** [getPath(obj, path)] *)
Definition getPath (h : heap) (o : loc) (path : string) : jsval :=
  getPath_walk h (Data (VRef o)) (split_on "." path).

Fixpoint hasPath_walk (h : heap) (current : jsval) (parts : list string)
  : bool :=
  match parts with
  | [] => true
  | part :: rest =>
      match current with
      | Data (VRef l) =>
          if has_property h l part
          then hasPath_walk h (get_prop h l part) rest
          else false
      | _ => false
      end
  end.

(** [hasPath(obj, path)] *)
Definition hasPath (h : heap) (o : loc) (path : string) : bool :=
  hasPath_walk h (Data (VRef o)) (split_on "." path).

(** The reading of [hasPath] in which only own keys count: every segment
    must be an own key of the object reached so far. *)
Fixpoint hasOwnPath_walk (h : heap) (current : jsval) (parts : list string)
  : bool :=
  match parts with
  | [] => true
  | part :: rest =>
      match current with
      | Data (VRef l) =>
          match get_own h l part with
          | Some v => hasOwnPath_walk h (Data v) rest
          | None => false
          end
      | _ => false
      end
  end.

Definition hasOwnPath (h : heap) (o : loc) (path : string) : bool :=
  hasOwnPath_walk h (Data (VRef o)) (split_on "." path).

(** *** [structuredClone]

    The platform's clone copies the graph below a value: each object met is
    copied once (the [memo] remembers its copy, which keeps sharing and
    cycles), keys and elements keep their order.  [fuel] bounds the number
    of objects entered. *)

Definition obj_values (o : obj) : list value :=
  match o with
  | Obj fs => map snd fs
  | Arr vs => vs
  end.

Definition obj_with_values (o : obj) (vs : list value) : obj :=
  match o with
  | Obj fs => Obj (zip (map fst fs) vs)
  | Arr _ => Arr vs
  end.

Abbreviation clone_state := (gmap nat nat * list obj)%type.

Fixpoint clone_value (fuel : nat) (src : heap) (v : value) (st : clone_state)
  : value * clone_state :=
  match v with
  | VRef l =>
      match st.1 !! l with
      | Some l' => (VRef l', st)
      | None =>
          match fuel, src !! l with
          | S fuel', Some o =>
              let l' := length st.2 in
              let st1 := (<[l := l']> st.1, st.2 ++ [obj_with_values o []]) in
              let '(vs', st2) :=
                (fix clone_all (vs : list value) (st : clone_state)
                   : list value * clone_state :=
                   match vs with
                   | [] => ([], st)
                   | v :: vs' =>
                       let '(v', st') := clone_value fuel' src v st in
                       let '(r, st'') := clone_all vs' st' in
                       (v' :: r, st'')
                   end) (obj_values o) st1 in
              (VRef l', (st2.1, <[l' := obj_with_values o vs']> st2.2))
          | _, _ => (v, st)
          end
      end
  | _ => (v, st)
  end.

Fixpoint clone_list (fuel : nat) (src : heap) (vs : list value)
    (st : clone_state) : list value * clone_state :=
  match vs with
  | [] => ([], st)
  | v :: vs' =>
      let '(v', st') := clone_value fuel src v st in
      let '(r, st'') := clone_list fuel src vs' st' in
      (v' :: r, st'')
  end.

Definition structuredClone (v : value) (h : heap) : value * heap :=
  let '(v', st) := clone_value (length h) h v (∅, h) in
  (v', st.2).

(** How a clone in progress relates to the store it reads: [rename m]
    sends a reference to its copy; the objects in [P] have been entered and
    not yet completed, every other copied object has all its values
    copied. *)
Definition rename (m : gmap nat nat) (v : value) : value :=
  match v with
  | VRef l => match m !! l with Some l' => VRef l' | None => v end
  | _ => v
  end.

Definition covered (m : gmap nat nat) (v : value) : Prop :=
  match v with
  | VRef l => is_Some (m !! l)
  | _ => True
  end.

Record clone_inv (src : heap) (P : gset nat) (st : clone_state) : Prop := {
  ci_prefix : ∀ l, (l < length src)%nat → st.2 !! l = src !! l;
  ci_len : (length src ≤ length st.2)%nat;
  ci_range : ∀ l l', st.1 !! l = Some l' →
      (l < length src)%nat ∧ (length src ≤ l')%nat ∧ (l' < length st.2)%nat;
  ci_inj : ∀ l1 l2 l', st.1 !! l1 = Some l' → st.1 !! l2 = Some l' → l1 = l2;
  ci_onto : ∀ l', (length src ≤ l')%nat → (l' < length st.2)%nat →
      ∃ l, st.1 !! l = Some l';
  ci_entered : ∀ l, l ∈ P → is_Some (st.1 !! l);
  ci_shape : ∀ l l', st.1 !! l = Some l' →
      ∃ o, src !! l = Some o
           ∧ (l ∈ P → st.2 !! l' = Some (obj_with_values o []))
           ∧ (l ∉ P →
              st.2 !! l' = Some (obj_with_values o (map (rename st.1) (obj_values o)))
              ∧ Forall (covered st.1) (obj_values o))
}.

(** [snapshot(obj)].  [structuredClone] only throws on functions, symbols
    and the like, which the data model does not contain, so the JSON
    round trip of the [catch] branch is never taken. *)
Definition snapshot (v : value) (h : heap) : value * heap :=
  structuredClone v h.

(** [snapshot] of an object of the store: the location of the copy. *)
Definition snapshot_object (l : loc) (h : heap) : loc * heap :=
  match snapshot (VRef l) h with
  | (VRef l', h') => (l', h')
  | (_, h') => (l, h')
  end.

(** *** The contract of [mergeDeep], on trees

    [merge_as_specified remaining t s] follows the description of the merge
    of two maps: every key of the target is kept, with the target's value
    when the source lacks the key and the combined value otherwise; the keys
    only the source has follow.  Two values combine to their merge one level
    deeper when both are plain maps, and to the source value otherwise
    (arrays and primitives are replaced); with no level remaining the source
    value always wins (flat overwrite).  Maps cut off by the depth of
    observation merge to a map cut off. *)

Definition tree_is_plain (t : tree) : bool :=
  match t with
  | TObj _ | TCut false => true
  | _ => false
  end.

(** The entries of [sf] whose key [tf] lacks. *)
Definition only_in_source {A B : Type} (tf : list (string * A))
    (sf : list (string * B)) : list (string * B) :=
  List.filter (λ kv, negb (bool_decide (kv.1 ∈ map fst tf))) sf.

Fixpoint merge_as_specified (remaining : nat) (t s : tree) {struct remaining}
  : tree :=
  let combine (tv sv : tree) : tree :=
    match remaining with
    | O => sv
    | S remaining' =>
        if tree_is_plain sv && tree_is_plain tv
        then merge_as_specified remaining' tv sv
        else sv
    end in
  match t, s with
  | TObj tf, TObj sf =>
      TObj (map (λ kv, (kv.1, match assoc kv.1 sf with
                              | Some sv => combine kv.2 sv
                              | None => kv.2
                              end)) tf
            ++ only_in_source tf sf)
  | TCut false, TCut false => TCut false
  | _, _ => TUndefined
  end.

(** The value two values of a shared key combine to. *)
Definition tree_combine (remaining : nat) (tv sv : tree) : tree :=
  match remaining with
  | O => sv
  | S remaining' =>
      if tree_is_plain sv && tree_is_plain tv
      then merge_as_specified remaining' tv sv
      else sv
  end.

(** *** Statements used in the proofs *)

(** The part of the store present when a clone starts is not written. *)
Definition clone_frame (st st' : clone_state) : Prop :=
  (length st.2 ≤ length st'.2)%nat
  ∧ ∀ l, (l < length st.2)%nat → st'.2 !! l = st.2 !! l.

(** The statement proved of [clone_value] and of [clone_list]. *)
Definition clone_value_ok (src : heap) (f : nat) : Prop :=
  ∀ v st P,
    clone_inv src P st → value_ok (length src) v = true →
    (length src ≤ f + size st.1)%nat →
    clone_inv src P (clone_value f src v st).2
    ∧ st.1 ⊆ (clone_value f src v st).2.1
    ∧ (clone_value f src v st).1 = rename (clone_value f src v st).2.1 v
    ∧ covered (clone_value f src v st).2.1 v.

(** A call that only adds objects to the store: the result is the first
    new object and nothing that existed is written. *)
Definition allocates_only (f : heap → loc * heap) : Prop :=
  ∀ h, (f h).1 = length h
       ∧ (length h < length (f h).2)%nat
       ∧ ∀ l, (l < length h)%nat → (f h).2 !! l = h !! l.

(** [h''] agrees with [hf] on [h0] and on what was allocated after
    [result]. *)
Definition agree_region (h0 : heap) (result : loc) (hf h'' : heap) : Prop :=
  ∀ l, ((l < length h0)%nat ∨ (result < l ∧ l < length hf)%nat) →
       h'' !! l = hf !! l.

Definition unfold_field (h : heap) (n : nat) (kv : string * value)
  : string * tree :=
  (kv.1, unfold n h kv.2).

(** The value [kx] stored for the source entry [ks] has the structure the
    contract asks for. *)
Definition good_value (h0 : heap) (remaining : nat) (result : loc) (hf : heap)
    (tf : list (string * value)) (ks kx : string * value) : Prop :=
  kx.1 = ks.1
  ∧ ∀ h'', agree_region h0 result hf h'' →
      ∀ n, unfold n h'' kx.2
           = match assoc ks.1 tf with
             | Some tv => tree_combine remaining (unfold n h0 tv) (unfold n h0 ks.2)
             | None => unfold n h0 ks.2
             end.

(** What is proved of [mergeDeep_from remaining]: seen from any store that
    keeps [h0] and the objects the call has allocated, the result has the
    structure the contract gives. *)
Definition merge_refines (h0 : heap) (remaining : nat) : Prop :=
  ∀ t s h tf sf,
    (∀ l, (l < length h0)%nat → h !! l = h0 !! l) →
    (length h0 ≤ length h)%nat →
    h0 !! t = Some (Obj tf) → h0 !! s = Some (Obj sf) →
    ∀ h'',
      (∀ l, ((l < length h0)%nat
             ∨ (length h ≤ l ∧ l < length (mergeDeep_from remaining t s h).2)%nat) →
            h'' !! l = (mergeDeep_from remaining t s h).2 !! l) →
      ∀ n, unfold n h'' (VRef (mergeDeep_from remaining t s h).1)
           = merge_as_specified remaining (unfold n h0 (VRef t)) (unfold n h0 (VRef s)).

(** Merging a source a second time changes nothing; the four statements
    are proved together, by induction on the levels remaining. *)
Definition self_combine (h : heap) (remaining : nat) : Prop :=
  ∀ m v, value_ok (length h) v = true →
    tree_combine remaining (unfold m h v) (unfold m h v) = unfold m h v.

Definition self_merge (h : heap) (remaining : nat) : Prop :=
  ∀ m l fs, h !! l = Some (Obj fs) →
    merge_as_specified remaining (unfold m h (VRef l)) (unfold m h (VRef l))
    = unfold m h (VRef l).

Definition combine_again (h : heap) (remaining : nat) : Prop :=
  ∀ m tv sv, value_ok (length h) tv = true → value_ok (length h) sv = true →
    tree_combine remaining
      (tree_combine remaining (unfold m h tv) (unfold m h sv)) (unfold m h sv)
    = tree_combine remaining (unfold m h tv) (unfold m h sv).

Definition merge_again (h : heap) (remaining : nat) : Prop :=
  ∀ m t s tf sf, h !! t = Some (Obj tf) → h !! s = Some (Obj sf) →
    merge_as_specified remaining
      (merge_as_specified remaining (unfold m h (VRef t)) (unfold m h (VRef s)))
      (unfold m h (VRef s))
    = merge_as_specified remaining (unfold m h (VRef t)) (unfold m h (VRef s)).

End Merge.

(** ** src/utils/time.ts *)

Module Time.

(** [durationMs(startMs)], [now] being the reading of [hrTimeMs()].  With
    the clock read in whole milliseconds the rounding to two decimals is the
    identity. *)
Definition durationMs (startMs now : Z) : Z := (now - startMs)%Z.

End Time.

(** ** src/core/event.ts: the event builder *)

Module Event.

Inductive RequestOutcome : Type := Success | Error | Aborted.

#[global] Instance RequestOutcome_eq_dec : EqDecision RequestOutcome.
Proof. solve_decision. Defined.

Definition outcome_name (o : RequestOutcome) : string :=
  match o with
  | Success => "success"
  | Error => "error"
  | Aborted => "aborted"
  end.

(** The store together with what has been written to [process.stderr]. *)
Record world : Type := World {
  store : heap;
  stderr : list string
}.

Definition warn (line : string) (w : world) : world :=
  World (store w) (stderr w ++ [line]).

Definition with_store (w : world) (h : heap) : world := World h (stderr w).

Record EventBuilderState : Type := BuilderState {
  event : loc;
  startTime : Z;
  finalized : bool;
  emitted : bool
}.

(** [new EventBuilder(initialData, startTime)] *)
Definition createEventBuilder (initialData : loc) (start : Z) (w : world)
  : EventBuilderState * world :=
  let '(e, h) := alloc (Obj (spread (own_fields (store w) initialData) [])) (store w) in
  (BuilderState e start false false, with_store w h).

(** [enrich(obj)] *)
Definition enrich (o : loc) (b : EventBuilderState) (w : world)
  : EventBuilderState * world :=
  if finalized b then
    (b, warn "[canon] warning: enrich() called after finalization, ignoring" w)
  else
    let '(e, h) := Merge.mergeDeep (event b) o (store w) in
    (BuilderState e (startTime b) (finalized b) (emitted b), with_store w h).

(** [set(path, value)] *)
Definition set (path : string) (v : value) (b : EventBuilderState) (w : world)
  : EventBuilderState * world :=
  if finalized b then
    (b, warn "[canon] warning: set() called after finalization, ignoring" w)
  else
    let '(e, h) := Merge.setPath (event b) path v (store w) in
    (BuilderState e (startTime b) (finalized b) (emitted b), with_store w h).

(** [get()] *)
Definition get (b : EventBuilderState) (w : world) : loc * world :=
  let '(s, h) := Merge.snapshot_object (event b) (store w) in
  (s, with_store w h).

(** What may be handed to [markError]: an instance of [Error], with its
    name, its message and its further own properties, or any datum. *)
Inductive thrown : Type :=
| ErrorInstance (name message : string) (props : list (string * value))
| Thrown (v : value).

Definition or_default (s default : string) : string :=
  if String.eqb s "" then default else s.

(** [normalizeError(err)]: the fields of the resulting [CanonError]. *)
Definition normalizeError (h : heap) (err : thrown) : list (string * value) :=
  match err with
  | ErrorInstance name message props =>
      [("type", VStr (or_default name "Error"));
       ("message", VStr (or_default message "Unknown error"))]
      ++ match assoc "code" props with
         | Some (VStr c) => [("code", VStr c)]
         | _ => []
         end
      ++ match assoc "retriable" props with
         | Some (VBool r) => [("retriable", VBool r)]
         | _ => []
         end
  | Thrown (VRef l) =>
      [("type",
        match get_prop h l "type" with Data (VStr s) => VStr s | _ => VStr "Error" end);
       ("message",
        match get_prop h l "message" with
        | Data (VStr s) => VStr s
        | _ => VStr (to_string h (Data (VRef l)))
        end);
       ("code",
        match get_prop h l "code" with Data (VStr s) => VStr s | _ => VUndefined end);
       ("retriable",
        match get_prop h l "retriable" with
        | Data (VBool r) => VBool r
        | _ => VUndefined
        end)]
  | Thrown v =>
      [("type", VStr "Error"); ("message", VStr (to_string h (Data v)))]
  end.

(** [markError(err)] *)
Definition markError (err : thrown) (b : EventBuilderState) (w : world)
  : EventBuilderState * world :=
  if finalized b then
    (b, warn "[canon] warning: markError() called after finalization, ignoring" w)
  else
    let '(canonError, h1) := alloc (Obj (normalizeError (store w) err)) (store w) in
    let h2 := set_prop (event b) "error" (VRef canonError) h1 in
    let h3 :=
      if negb (is_string (get_prop h2 (event b) "outcome") "aborted")
      then set_prop (event b) "outcome" (VStr "error") h2
      else h2 in
    (b, with_store w h3).

(** The outcome written by [finalize] when the record has none yet. *)
Definition resolve_outcome (h : heap) (e : loc) (outcome : RequestOutcome)
    (statusCode : Z) : RequestOutcome :=
  match outcome with
  | Aborted => Aborted
  | _ =>
      if truthy (get_prop h e "error") || (500 <=? statusCode)%Z
      then Error
      else outcome
  end.

(** [finalize(outcome, statusCode)]; [now] is the clock reading. *)
Definition finalize (outcome : RequestOutcome) (statusCode : Z) (now : Z)
    (b : EventBuilderState) (w : world) : loc * (EventBuilderState * world) :=
  if finalized b then
    let '(s, h) := Merge.snapshot_object (event b) (store w) in
    (s, (b, with_store w h))
  else
    let b' := BuilderState (event b) (startTime b) true (emitted b) in
    let h1 := set_prop (event b) "duration_ms"
                (VNum (Time.durationMs (startTime b) now)) (store w) in
    let h2 := set_prop (event b) "status_code" (VNum statusCode) h1 in
    let h3 :=
      if negb (truthy (get_prop h2 (event b) "outcome"))
      then set_prop (event b) "outcome"
             (VStr (outcome_name (resolve_outcome h2 (event b) outcome statusCode))) h2
      else h2 in
    let '(s, h4) := Merge.snapshot_object (event b) h3 in
    (s, (b', with_store w h4)).

(** The store just before [finalize] takes its snapshot. *)
Definition finalize_store (outcome : RequestOutcome) (statusCode now : Z)
    (b : EventBuilderState) (h : heap) : heap :=
  if finalized b then h
  else
    let h1 := set_prop (event b) "duration_ms"
                (VNum (Time.durationMs (startTime b) now)) h in
    let h2 := set_prop (event b) "status_code" (VNum statusCode) h1 in
    if negb (truthy (get_prop h2 (event b) "outcome"))
    then set_prop (event b) "outcome"
           (VStr (outcome_name (resolve_outcome h2 (event b) outcome statusCode))) h2
    else h2.

Definition isFinalized (b : EventBuilderState) : bool := finalized b.
Definition isEmitted (b : EventBuilderState) : bool := emitted b.

(** [markEmitted()] *)
Definition markEmitted (b : EventBuilderState) : EventBuilderState :=
  BuilderState (event b) (startTime b) (finalized b) true.

(** The calls business code makes on a builder before completion. *)
Inductive call : Type :=
| CallEnrich (o : loc)
| CallSet (path : string) (v : value)
| CallMarkError (err : thrown).

Definition run_call (c : call) (b : EventBuilderState) (w : world)
  : EventBuilderState * world :=
  match c with
  | CallEnrich o => enrich o b w
  | CallSet path v => set path v b w
  | CallMarkError err => markError err b w
  end.

Fixpoint run_calls (cs : list call) (b : EventBuilderState) (w : world)
  : EventBuilderState * world :=
  match cs with
  | [] => (b, w)
  | c :: cs' => let '(b', w') := run_call c b w in run_calls cs' b' w'
  end.

(** *** The outcome policy as the specification words it

    "if an error was marked, error; else if the caller forces aborted,
    aborted; else the outcome passed by the caller is used, with status
    codes >= 500 always resulting in error unless already aborted". *)
Definition policy_outcome (error_marked : bool) (outcomeHint : RequestOutcome)
    (statusCode : Z) : RequestOutcome :=
  if error_marked then Error
  else
    match outcomeHint with
    | Aborted => Aborted
    | _ => if (500 <=? statusCode)%Z then Error else outcomeHint
    end.

Definition marks_error (c : call) : bool :=
  match c with CallMarkError _ => true | _ => false end.

(** Whether a call of [enrich] or [set] writes the top-level key [k]. *)
Definition writes_key (h : heap) (c : call) (k : string) : bool :=
  match c with
  | CallEnrich o => bool_decide (k ∈ keys h o)
  | CallSet path _ => bool_decide (head (split_on "." path) = Some k)
  | CallMarkError _ => false
  end.

(** The calls leave the keys [outcome] and [error] to [markError]. *)
Fixpoint reserved_untouched (cs : list call) (b : EventBuilderState) (w : world)
  : bool :=
  match cs with
  | [] => true
  | c :: cs' =>
      negb (writes_key (store w) c "outcome")
      && negb (writes_key (store w) c "error")
      && let '(b', w') := run_call c b w in reserved_untouched cs' b' w'
  end.

(** What the calls made so far have left in the record: no outcome and no
    error, or the error marked and the outcome [error]. *)
Definition record_state (marked : bool) (b : EventBuilderState) (h : heap)
  : Prop :=
  finalized b = false
  ∧ ∃ fs, h !! event b = Some (Obj fs)
          ∧ NoDup (map fst fs)
          ∧ if marked
            then assoc "outcome" fs = Some (VStr "error")
                 ∧ ∃ ce, assoc "error" fs = Some (VRef ce)
            else assoc "outcome" fs = None ∧ assoc "error" fs = None.

(** The line a call made after finalization writes to [stderr]. *)
Definition ignored_warning (c : call) : string :=
  match c with
  | CallEnrich _ => "[canon] warning: enrich() called after finalization, ignoring"
  | CallSet _ _ => "[canon] warning: set() called after finalization, ignoring"
  | CallMarkError _ =>
      "[canon] warning: markError() called after finalization, ignoring"
  end.

(** Whether a call writes the top-level key [k]: [enrich] with an object
    that has the key, [set] with a path that starts with it, [markError]
    for the keys [error] and [outcome]. *)
Definition touches_key (h : heap) (c : call) (k : string) : bool :=
  writes_key h c k
  || (marks_error c && (String.eqb k "error" || String.eqb k "outcome")).

(** No call of the sequence writes the top-level key [k]. *)
Fixpoint key_untouched (k : string) (cs : list call) (b : EventBuilderState)
    (w : world) : bool :=
  match cs with
  | [] => true
  | c :: cs' =>
      negb (touches_key (store w) c k)
      && let '(b', w') := run_call c b w in key_untouched k cs' b' w'
  end.

End Event.

(** ** Tail sampling *)

Module Sampling.

Record SamplingConfig : Type := {
  sampleRateSuccess : option Q;
  slowThresholdMs : option Z;
  custom : option (heap → loc → bool)
}.

Definition DEFAULT_sampleRateSuccess : Q := 5 # 100.
Definition DEFAULT_slowThresholdMs : Z := 2000.

(** [config.sample]: a rules object or a decision function. *)
Inductive sample_option : Type :=
| SampleRules (c : SamplingConfig)
| SampleFunction (f : heap → loc → bool).

Definition ALWAYS_SAMPLE_STATUS_CODES : list Z := [408; 429]%Z.

(** [ToNumber], needed by [>=] and [>]; [None] is [NaN].  Numeric strings
    are covered in their plain decimal form only. *)
Definition to_number (v : jsval) : option Z :=
  match v with
  | Data (VNum n) => Some n
  | Data (VBool b) => Some (if b then 1 else 0)%Z
  | Data VNull => Some 0%Z
  | Data (VStr s) => Z.of_nat <$> parse_digits 0 s
  | _ => None
  end.

(** [v ?? d] *)
Definition nullish_or (v : jsval) (d : jsval) : jsval :=
  if is_nullish v then d else v.

(** [a >= n] and [a > n] *)
Definition js_ge (a : jsval) (n : Z) : bool :=
  match to_number a with Some x => (n <=? x)%Z | None => false end.
Definition js_gt (a : jsval) (n : Z) : bool :=
  match to_number a with Some x => (n <? x)%Z | None => false end.

(** [set.has(v)] on a set of numbers *)
Definition set_has (s : list Z) (v : jsval) : bool :=
  match v with
  | Data (VNum n) => existsb (Z.eqb n) s
  | _ => false
  end.

(** [shouldSampleDefault(event, config)]; [random] is the value drawn by
    [Math.random()]. *)
Definition shouldSampleDefault (h : heap) (event : loc) (config : SamplingConfig)
    (random : Q) : bool :=
  let statusCode := nullish_or (get_prop h event "status_code") (Data (VNum 0)) in
  let durationMs := nullish_or (get_prop h event "duration_ms") (Data (VNum 0)) in
  let outcome := get_prop h event "outcome" in
  if js_ge statusCode 500 then true
  else if set_has ALWAYS_SAMPLE_STATUS_CODES statusCode then true
  else if is_string outcome "aborted" then true
  else if is_string outcome "error" then true
  else
    let slowThreshold := default DEFAULT_slowThresholdMs (slowThresholdMs config) in
    if js_gt durationMs slowThreshold then true
    else
      let sampleRate := default DEFAULT_sampleRateSuccess (sampleRateSuccess config) in
      if Qlt_le_dec random sampleRate then true else false.

Definition empty_config : SamplingConfig :=
  {| sampleRateSuccess := None; slowThresholdMs := None; custom := None |}.

(** [shouldSample(event, config)] *)
Definition shouldSample (h : heap) (event : loc) (config : option sample_option)
    (random : Q) : bool :=
  match config with
  | None => shouldSampleDefault h event empty_config random
  | Some (SampleFunction f) => f h event
  | Some (SampleRules c) =>
      match custom c with
      | Some f => f h event
      | None => shouldSampleDefault h event c random
      end
  end.

(** [createSamplingConfig(config)] *)
Definition createSamplingConfig (config : option SamplingConfig) : SamplingConfig :=
  {| sampleRateSuccess :=
       Some (default DEFAULT_sampleRateSuccess (config ≫= sampleRateSuccess));
     slowThresholdMs :=
       Some (default DEFAULT_slowThresholdMs (config ≫= slowThresholdMs));
     custom := config ≫= custom |}.

(** The function returned by [createSampler(customCheck)], applied to a
    record; [random] is the draw of the default rules. *)
Definition createSampler (customCheck : option (heap → loc → bool))
    (h : heap) (event : loc) (random : Q) : bool :=
  if shouldSampleDefault h event empty_config random then true
  else
    match customCheck with
    | Some f => f h event
    | None => false
    end.

Definition alwaysSample : bool := true.
Definition neverSample : bool := false.

(** [Math.min(a, b)] and [Math.max(a, b)] *)
Definition math_min (a b : Q) : Q := if Qlt_le_dec a b then a else b.
Definition math_max (a b : Q) : Q := if Qlt_le_dec a b then b else a.

(** The function returned by [fixedRateSample(rate)], applied to the draw
    of [Math.random()]. *)
Definition fixedRateSample (rate : Q) (random : Q) : bool :=
  let clampedRate := math_max 0 (math_min 1 rate) in
  if Qlt_le_dec random clampedRate then true else false.

End Sampling.

(** ** Request and trace identifiers *)

Module Ids.

Definition BASE32_ALPHABET : string := "abcdefghijklmnopqrstuvwxyz234567".

(** [ToInt32]: the bit operators [<<], [>>], [|] and [&] work on signed
    32-bit integers. *)
Definition to_int32 (z : Z) : Z := ((z + 2 ^ 31) mod 2 ^ 32 - 2 ^ 31)%Z.

(** [BASE32_ALPHABET[i]], as it is appended to a string: an index outside
    the alphabet reads [undefined]. *)
Definition alphabet_at (i : Z) : string :=
  if (i <? 0)%Z then "undefined"
  else
    match String.get (Z.to_nat i) BASE32_ALPHABET with
    | Some c => String c EmptyString
    | None => "undefined"
    end.

(** The loop [while (bits >= 5)] of [toBase32]; it is run with as many
    turns allowed as there are bits, each turn consuming five. *)
Fixpoint drain (turns : nat) (value : Z) (bits : nat) (result : string)
  : nat * string :=
  match turns with
  | O => (bits, result)
  | S turns' =>
      if (5 <=? bits)%nat then
        let bits' := (bits - 5)%nat in
        drain turns' value bits'
          (result +:+ alphabet_at (Z.land (Z.shiftr value (Z.of_nat bits')) 31))
      else (bits, result)
  end.

(** One turn of [for (const byte of bytes)]; the state is [result], [bits]
    and [value]. *)
Definition take_byte (st : string * nat * Z) (byte : Z) : string * nat * Z :=
  let '(result, bits, value) := st in
  let value' := to_int32 (Z.lor (to_int32 (Z.shiftl value 8)) byte) in
  let bits' := (bits + 8)%nat in
  let '(bits'', result') := drain bits' value' bits' result in
  (result', bits'', value').

(** [toBase32(bytes)] *)
Definition toBase32 (bytes : list Z) : string :=
  let '(result, bits, value) := fold_left take_byte bytes ("", 0%nat, 0%Z) in
  if (0 <? bits)%nat
  then result
         +:+ alphabet_at (Z.land (to_int32 (Z.shiftl value (5 - Z.of_nat bits))) 31)
  else result.

(** What an encoding denotes, to state that nothing is lost: the number
    written by a byte sequence, most significant byte first, and the number
    written by a text over the alphabet, five bits a character. *)
Definition bytes_value (bytes : list Z) : Z :=
  fold_left (λ acc b, 256 * acc + b)%Z bytes 0%Z.

Fixpoint position_in (c : ascii) (alphabet : string) (i : Z) : Z :=
  match alphabet with
  | EmptyString => i
  | String a rest => if Ascii.eqb a c then i else position_in c rest (i + 1)%Z
  end.

Definition base32_digit (c : ascii) : Z := position_in c BASE32_ALPHABET 0%Z.

Fixpoint base32_value_from (acc : Z) (s : string) : Z :=
  match s with
  | EmptyString => acc
  | String c s' => base32_value_from (32 * acc + base32_digit c)%Z s'
  end.

Definition base32_value (s : string) : Z := base32_value_from 0%Z s.

(** [generateRequestId()] and [generateTraceId()]; [random] is what
    [randomBytes(10)] returns. *)
Definition generateRequestId (random : list Z) : string :=
  "req_" +:+ toBase32 random.
Definition generateTraceId (random : list Z) : string :=
  "trace_" +:+ toBase32 random.

(** [s.slice(n)] *)
Fixpoint slice_from (n : nat) (s : string) : string :=
  match n, s with
  | O, _ => s
  | S n', String _ s' => slice_from n' s'
  | S _, EmptyString => EmptyString
  end.

Definition is_base32_char (c : ascii) : bool :=
  let n := nat_of_ascii c in
  ((97 <=? n)%nat && (n <=? 122)%nat) || ((50 <=? n)%nat && (n <=? 55)%nat).

(** [/^[a-z2-7]+$/.test(s)] *)
Fixpoint all_base32 (s : string) : bool :=
  match s with
  | EmptyString => true
  | String c s' => is_base32_char c && all_base32 s'
  end.

Definition matches_base32 (s : string) : bool :=
  negb (String.eqb s "") && all_base32 s.

(** [isValidRequestId(id)] *)
Definition isValidRequestId (id : string) : bool :=
  if negb (String.prefix "req_" id) then false
  else
    let suffix := slice_from 4 id in
    if (String.length suffix <? 8)%nat || (32 <? String.length suffix)%nat
    then false
    else matches_base32 suffix.

(** [isValidTraceId(id)] *)
Definition isValidTraceId (id : string) : bool :=
  if negb (String.prefix "trace_" id) then false
  else
    let suffix := slice_from 6 id in
    if (String.length suffix <? 8)%nat || (32 <? String.length suffix)%nat
    then false
    else matches_base32 suffix.

(** [resolveRequestId(headerValue, trustIncoming)]: the test is
    [trustIncoming && headerValue && headerValue.length > 0]. *)
Definition resolveRequestId (headerValue : option string) (trustIncoming : bool)
    (random : list Z) : string :=
  match headerValue with
  | Some s =>
      if trustIncoming && negb (String.eqb s "") && (0 <? String.length s)%nat
      then s
      else generateRequestId random
  | None => generateRequestId random
  end.

(** [resolveTraceId(headerValue, trustIncoming)] *)
Definition resolveTraceId (headerValue : option string) (trustIncoming : bool)
    (random : list Z) : string :=
  match headerValue with
  | Some s =>
      if trustIncoming && negb (String.eqb s "") && (0 <? String.length s)%nat
      then s
      else generateTraceId random
  | None => generateTraceId random
  end.

End Ids.

(** ** SHA-256 (FIPS 180-4), as computed by [createHash('sha256')] *)

Module Sha256.

Local Open Scope Z_scope.

Definition mask32 : Z := 4294967295.
Definition w32 (x : Z) : Z := Z.land x mask32.
Definition add32 (x y : Z) : Z := w32 (x + y).
Definition rotr (n x : Z) : Z :=
  Z.lor (Z.shiftr x n) (w32 (Z.shiftl x (32 - n))).
Definition not32 (x : Z) : Z := Z.lxor x mask32.

Definition Ch (x y z : Z) : Z := Z.lxor (Z.land x y) (Z.land (not32 x) z).
Definition Maj (x y z : Z) : Z :=
  Z.lxor (Z.lxor (Z.land x y) (Z.land x z)) (Z.land y z).
Definition Sigma0 (x : Z) : Z := Z.lxor (Z.lxor (rotr 2 x) (rotr 13 x)) (rotr 22 x).
Definition Sigma1 (x : Z) : Z := Z.lxor (Z.lxor (rotr 6 x) (rotr 11 x)) (rotr 25 x).
Definition sigma0 (x : Z) : Z := Z.lxor (Z.lxor (rotr 7 x) (rotr 18 x)) (Z.shiftr x 3).
Definition sigma1 (x : Z) : Z := Z.lxor (Z.lxor (rotr 17 x) (rotr 19 x)) (Z.shiftr x 10).

(** The first 64 primes; the round constants are the first 32 bits of the
    fractional parts of their cube roots, and the initial hash value comes
    from the square roots of the first 8. *)
Definition is_prime (n : Z) : bool :=
  forallb (fun d => negb (n mod d =? 0))
    (List.filter (fun d => d * d <=? n) (map Z.of_nat (seq 2 18))).

Definition primes : list Z :=
  List.filter is_prime (map Z.of_nat (seq 2 310)).

(** The integer cube root, bit by bit from the top. *)
Fixpoint cbrt_from (bits : nat) (n x : Z) : Z :=
  match bits with
  | O => x
  | S b =>
      let y := x + 2 ^ Z.of_nat b in
      cbrt_from b n (if y * y * y <=? n then y else x)
  end.

Definition K : list Z :=
  Eval vm_compute in map (fun p => w32 (cbrt_from 40 (p * 2 ^ 96) 0)) primes.

Definition H0 : list Z :=
  Eval vm_compute in map (fun p => w32 (Z.sqrt (p * 2 ^ 64))) (take 8 primes).

(** Big-endian bytes of [x], [n] of them. *)
Fixpoint be_bytes (n : nat) (x : Z) : list Z :=
  match n with
  | O => []
  | S n' => be_bytes n' (Z.shiftr x 8) ++ [Z.land x 255]
  end.

(** The message followed by a 1 bit, zeros, and its length in bits, a
    multiple of 64 bytes in all. *)
Definition pad (msg : list Z) : list Z :=
  let len := Z.of_nat (length msg) in
  let zeros := Z.to_nat ((55 - len) mod 64) in
  msg ++ [128] ++ repeat 0 zeros ++ be_bytes 8 (8 * len).

Fixpoint words_of (n : nat) (bytes : list Z) : list Z :=
  match n with
  | O => []
  | S n' =>
      match bytes with
      | a :: b :: c :: d :: rest =>
          (Z.shiftl a 24 + Z.shiftl b 16 + Z.shiftl c 8 + d) :: words_of n' rest
      | _ => []
      end
  end.

(** The message schedule: 16 words of the block extended to 64. *)
Fixpoint extend (n : nat) (w : list Z) : list Z :=
  match n with
  | O => w
  | S n' =>
      let t := length w in
      let at_ i := nth (t - i) w 0 in
      extend n' (w ++ [add32 (add32 (sigma1 (at_ 2%nat)) (at_ 7%nat))
                              (add32 (sigma0 (at_ 15%nat)) (at_ 16%nat))])
  end.

Definition round (st : Z * Z * Z * Z * Z * Z * Z * Z) (kw : Z * Z)
  : Z * Z * Z * Z * Z * Z * Z * Z :=
  let '(a, b, c, d, e, f, g, hh) := st in
  let t1 := add32 (add32 (add32 hh (Sigma1 e)) (add32 (Ch e f g) kw.1)) kw.2 in
  let t2 := add32 (Sigma0 a) (Maj a b c) in
  (add32 t1 t2, a, b, c, add32 d t1, e, f, g).

Definition compress (hs : list Z) (block : list Z) : list Z :=
  match hs with
  | [a; b; c; d; e; f; g; hh] =>
      let w := extend 48 (words_of 16 block) in
      let '(a', b', c', d', e', f', g', hh') :=
        fold_left round (zip K w) (a, b, c, d, e, f, g, hh) in
      [add32 a a'; add32 b b'; add32 c c'; add32 d d';
       add32 e e'; add32 f f'; add32 g g'; add32 hh hh']
  | _ => hs
  end.

Fixpoint blocks (n : nat) (bytes : list Z) (hs : list Z) : list Z :=
  match n with
  | O => hs
  | S n' => blocks n' (drop 64 bytes) (compress hs (take 64 bytes))
  end.

Definition digest (msg : list Z) : list Z :=
  let padded := pad msg in
  blocks (length padded / 64) padded H0.

Definition hex_digit (x : Z) : ascii :=
  ascii_of_nat (Z.to_nat (if x <? 10 then 48 + x else 87 + x)).

Definition hex_byte (x : Z) : string :=
  String (hex_digit (Z.shiftr x 4)) (String (hex_digit (Z.land x 15)) EmptyString).

Definition hex (hs : list Z) : string :=
  String.concat "" (map hex_byte (flat_map (be_bytes 4) hs)).

(** UTF-8 bytes of a string whose characters are code points below 256. *)
Definition utf8 (s : string) : list Z :=
  flat_map (fun c =>
              let n := Z.of_nat (nat_of_ascii c) in
              if n <? 128 then [n]
              else [Z.lor 192 (Z.shiftr n 6); Z.lor 128 (Z.land n 63)])
           (list_ascii_of_string s).

Definition sha256_hex (s : string) : string := hex (digest (utf8 s)).

End Sha256.

(** ** The redaction engine *)

Module Redact.

Inductive RedactionStrategy : Type := Mask | Hash | Drop.

#[global] Instance RedactionStrategy_eq_dec : EqDecision RedactionStrategy.
Proof. solve_decision. Defined.

Inductive FieldType : Type :=
| FString | FNumber | FBoolean | FObject | FArray.

Record FieldDefinition : Type := {
  type : FieldType;
  pii : option bool;
  redaction : option RedactionStrategy;
  cardinality : option bool
}.

Inductive UnknownFieldMode : Type := Allow | Warn | Deny.

Record CanonSchema : Type := {
  required : list string;
  fields : list (string * FieldDefinition);
  unknownMode : option UnknownFieldMode
}.

Record RedactionConfig : Type := {
  enabled : bool;
  strategy : option RedactionStrategy;
  redact_fields : list string
}.

Definition DEFAULT_SENSITIVE_FIELDS : list string :=
  [ "user.email"; "user.phone"; "headers.authorization"; "headers.cookie";
    "headers.x-api-key" ].

Definition star : ascii := "*"%char.

(** [local.length > 1 ? local[0] + '*'.repeat(Math.max(1, local.length - 1)) : '*'] *)
Definition mask_local (local : string) : string :=
  if (1 <? String.length local)%nat
  then first_char local +:+ repeat_char star (Nat.max 1 (String.length local - 1))
  else "*".

(** [part.length > 1 ? part[0] + '*'.repeat(part.length - 1) : '*'] *)
Definition mask_label (part : string) : string :=
  if (1 <? String.length part)%nat
  then first_char part +:+ repeat_char star (String.length part - 1)
  else "*".

(** [domainParts.map((part, i) => i === domainParts.length - 1 ? part : ...)] *)
Definition mask_domain (domainParts : list string) : list string :=
  imap (fun i part =>
          if (i =? length domainParts - 1)%nat then part else mask_label part)
       domainParts.

(** [maskValue(value)] *)
Definition maskValue (value : string) : string :=
  if (String.length value <=? 2)%nat then repeat_char star (String.length value)
  else if includes "@" value then
    match split_on "@" value with
    | local :: domain :: _ =>
        mask_local local +:+ "@"
          +:+ String.concat "." (mask_domain (split_on "." domain))
    | _ => ""
    end
  else
    first_char value
      +:+ repeat_char star (Nat.max 1 (String.length value - 2))
      +:+ last_char value.

(** The mask as the specification words it: a part keeps its first
    character and has the rest replaced by asterisks; in an address the
    local part and every domain label but the last are treated so; other
    strings keep their first and last character; strings of length at most
    2 become asterisks. *)
Definition keep_first (part : string) : string :=
  first_char part +:+ repeat_char star (String.length part - 1).

Fixpoint keep_first_but_last (labels : list string) : list string :=
  match labels with
  | [] => []
  | [l] => [l]
  | l :: ls => keep_first l :: keep_first_but_last ls
  end.

Definition mask_as_specified (value : string) : string :=
  if (String.length value <=? 2)%nat then repeat_char star (String.length value)
  else if includes "@" value then
    match split_on "@" value with
    | local :: domain :: _ =>
        keep_first local +:+ "@"
          +:+ String.concat "." (keep_first_but_last (split_on "." domain))
    | _ => ""
    end
  else
    first_char value +:+ repeat_char star (String.length value - 2)
      +:+ last_char value.

(** How the code masks a part: a part of one character, or an empty one,
    becomes a single asterisk. *)
Definition masked_part (part : string) : string :=
  match part with
  | String c (String _ _ as rest) => String c (repeat_char star (String.length rest))
  | _ => "*"
  end.

Fixpoint masked_but_last (labels : list string) : list string :=
  match labels with
  | [] => []
  | [l] => [l]
  | l :: ls => masked_part l :: masked_but_last ls
  end.

(** [hashValue(value)] *)
Definition hashValue (value : string) : string := Sha256.sha256_hex value.

(** [redactValue(value, strategy)] *)
Definition redactValue (h : heap) (v : jsval) (s : RedactionStrategy) : value :=
  match v with
  | Data VUndefined => VUndefined
  | Data VNull => VNull
  | _ =>
      let stringValue := to_string h v in
      match s with
      | Mask => VStr (maskValue stringValue)
      | Hash => VStr (hashValue stringValue)
      | Drop => VStr "[REDACTED]"
      end
  end.

(** [schema?.fields[path]?.redaction ?? globalStrategy] *)
Definition field_strategy (schema : option CanonSchema) (path : string)
    (globalStrategy : RedactionStrategy) : RedactionStrategy :=
  match schema with
  | Some sc =>
      match assoc path (fields sc) with
      | Some def => default globalStrategy (redaction def)
      | None => globalStrategy
      end
  | None => globalStrategy
  end.

(** One turn of the loop of [applyRedaction]. *)
Definition redact_path (schema : option CanonSchema)
    (globalStrategy : RedactionStrategy) (st : loc * heap) (path : string)
  : loc * heap :=
  let '(result, h) := st in
  let v := Merge.getPath h result path in
  if negb (is_undefined v) then
    let fieldStrategy := field_strategy schema path globalStrategy in
    let redactedValue := redactValue h v fieldStrategy in
    Merge.setPath result path redactedValue h
  else (result, h).

(** [applyRedaction(event, config, schema)] *)
Definition applyRedaction (event : loc) (config : option RedactionConfig)
    (schema : option CanonSchema) (h : heap) : loc * heap :=
  let '(redacted, h1) := Merge.snapshot_object event h in
  match config with
  | None => (redacted, h1)
  | Some c =>
      if negb (enabled c) then (redacted, h1)
      else
        let globalStrategy := default Mask (strategy c) in
        let fieldsToRedact :=
          if (0 <? length (redact_fields c))%nat then redact_fields c
          else DEFAULT_SENSITIVE_FIELDS in
        fold_left (redact_path schema globalStrategy) fieldsToRedact (redacted, h1)
  end.

(** A partial redaction configuration, as [createRedactionConfig] takes
    it. *)
Record PartialRedactionConfig : Type := {
  given_enabled : option bool;
  given_strategy : option RedactionStrategy;
  given_fields : option (list string)
}.

(** [createRedactionConfig(config)] *)
Definition createRedactionConfig (config : option PartialRedactionConfig)
  : RedactionConfig :=
  {| enabled := default false (config ≫= given_enabled);
     strategy := Some (default Mask (config ≫= given_strategy));
     redact_fields := default DEFAULT_SENSITIVE_FIELDS (config ≫= given_fields) |}.

(** [shouldRedactField(path, config)] *)
Definition shouldRedactField (path : string) (config : RedactionConfig) : bool :=
  if negb (enabled config) then false
  else bool_decide (path ∈ redact_fields config).

(** [[...new Set(xs)]]: the elements of [xs], each once, in the order of
    their first occurrence. *)
Definition set_values (xs : list string) : list string :=
  fold_left (λ acc x, if bool_decide (x ∈ acc) then acc else acc ++ [x]) xs [].

(** [mergeRedactionFields(config, additionalFields)] *)
Definition mergeRedactionFields (config : RedactionConfig)
    (additionalFields : list string) : RedactionConfig :=
  {| enabled := enabled config;
     strategy := strategy config;
     redact_fields := set_values (redact_fields config ++ additionalFields) |}.

End Redact.

(** ** Schema validation *)

Module Schema.

Import Redact.

Definition BUILT_IN_REQUIRED : list string :=
  [ "timestamp"; "request_id"; "service"; "method"; "path"; "status_code";
    "duration_ms"; "outcome" ].

Record ValidationResult : Type := {
  valid : bool;
  errors : list string;
  warnings : list string
}.

Definition is_array (h : heap) (v : jsval) : bool :=
  match v with
  | Data (VRef l) => match h !! l with Some (Arr _) => true | _ => false end
  | _ => false
  end.

(** [matchesType(value, expectedType)] *)
Definition matchesType (h : heap) (v : jsval) (expected : FieldType) : bool :=
  if is_nullish v then true
  else
    match expected with
    | FString => bool_decide (typeof v = TyString)
    | FNumber => bool_decide (typeof v = TyNumber)
    | FBoolean => bool_decide (typeof v = TyBoolean)
    | FObject => bool_decide (typeof v = TyObject) && negb (is_array h v)
    | FArray => is_array h v
    end.

Definition type_name (t : FieldType) : string :=
  match t with
  | FString => "string"
  | FNumber => "number"
  | FBoolean => "boolean"
  | FObject => "object"
  | FArray => "array"
  end.

Definition quote : string := String "034"%char EmptyString.

(** [path.split('.')[0]] *)
Definition first_segment (path : string) : string :=
  match split_on "." path with
  | p :: _ => p
  | [] => ""
  end.

(** [getKnownTopLevelKeys(schema)] *)
Definition getKnownTopLevelKeys (schema : CanonSchema) : gset string :=
  list_to_set (map first_segment (required schema))
  ∪ list_to_set (map (fun pd => first_segment pd.1) (fields schema))
  ∪ list_to_set BUILT_IN_REQUIRED.

(** The errors and warnings accumulated so far. *)
Abbreviation report := (list string * list string)%type.

Definition push_error (msg : string) (r : report) : report := (r.1 ++ [msg], r.2).
Definition push_warning (msg : string) (r : report) : report := (r.1, r.2 ++ [msg]).

Definition check_built_in (h : heap) (event : loc) (r : report) (field : string)
  : report :=
  if negb (Merge.hasPath h event field)
  then push_error ("Missing required built-in field: " +:+ field) r
  else r.

Definition check_required (h : heap) (event : loc) (r : report) (path : string)
  : report :=
  if negb (Merge.hasPath h event path)
  then push_error ("Missing required field: " +:+ path) r
  else r.

Definition check_type (h : heap) (event : loc) (strict : bool) (r : report)
    (pd : string * FieldDefinition) : report :=
  if Merge.hasPath h event pd.1 then
    let v := Merge.getPath h event pd.1 in
    if negb (matchesType h v (type pd.2)) then
      let msg :=
        "Field " +:+ quote +:+ pd.1 +:+ quote +:+ " has invalid type: expected "
          +:+ type_name (type pd.2) +:+ ", got " +:+ typeof_name (typeof v) in
      if strict then push_error msg r else push_warning msg r
    else r
  else r.

Definition check_unknown (known : gset string) (mode : UnknownFieldMode)
    (strict : bool) (r : report) (key : string) : report :=
  if negb (bool_decide (key ∈ known)) then
    let msg := "Unknown top-level field: " +:+ key in
    match mode with
    | Deny => if strict then push_error msg r else push_warning msg r
    | _ => push_warning msg r
    end
  else r.

(** The built-in fields a record lacks. *)
Definition missing_built_in (h : heap) (event : loc) (fs : list string)
  : list string :=
  List.filter (λ f, negb (Merge.hasPath h event f)) fs.

Definition result_of (r : report) : ValidationResult :=
  {| valid := (length r.1 =? 0)%nat; errors := r.1; warnings := r.2 |}.

(** [validateSchema(event, schema, strict)] *)
Definition validateSchema (h : heap) (event : loc) (schema : option CanonSchema)
    (strict : bool) : ValidationResult :=
  let r0 := fold_left (check_built_in h event) BUILT_IN_REQUIRED ([], []) in
  match schema with
  | None => result_of r0
  | Some sc =>
      let r1 := fold_left (check_required h event) (required sc) r0 in
      let r2 := fold_left (check_type h event strict) (fields sc) r1 in
      let mode := default Allow (unknownMode sc) in
      let r3 :=
        match mode with
        | Allow => r2
        | _ =>
            fold_left (check_unknown (getKnownTopLevelKeys sc) mode strict)
              (keys h event) r2
        end in
      result_of r3
  end.

Definition log_lines (kind requestId : string) (msgs : list string)
  : list string :=
  map (fun m => "[canon] validation " +:+ kind +:+ " (" +:+ requestId +:+ "): " +:+ m)
      msgs.

Definition plain_field (t : FieldType) : FieldDefinition :=
  {| type := t; pii := None; redaction := None; cardinality := None |}.

Definition CANON_BASE_FIELDS : list (string * FieldDefinition) :=
  [ ("timestamp", plain_field FString);
    ("request_id", plain_field FString);
    ("trace_id", plain_field FString);
    ("service", plain_field FString);
    ("version", plain_field FString);
    ("deployment_id", plain_field FString);
    ("region", plain_field FString);
    ("method", plain_field FString);
    ("path", plain_field FString);
    ("route", plain_field FString);
    ("status_code", plain_field FNumber);
    ("duration_ms", plain_field FNumber);
    ("outcome", plain_field FString);
    ("ip", {| type := FString; pii := Some true; redaction := None;
              cardinality := None |});
    ("user_agent", plain_field FString);
    ("error", plain_field FObject) ].

(** [o[k] = d] and [{ ...into, ...fs }] on field definitions. *)
Fixpoint set_definition (fs : list (string * FieldDefinition)) (k : string)
    (d : FieldDefinition) : list (string * FieldDefinition) :=
  match fs with
  | [] => [(k, d)]
  | (k', d') :: fs' =>
      if String.eqb k' k then (k', d) :: fs' else (k', d') :: set_definition fs' k d
  end.

Definition spread_definitions (fs into : list (string * FieldDefinition))
  : list (string * FieldDefinition) :=
  fold_left (fun acc kd => set_definition acc kd.1 kd.2) fs into.

(** The argument of [defineCanonSchema]: a partial schema. *)
Record PartialCanonSchema : Type := {
  given_required : option (list string);
  given_schema_fields : option (list (string * FieldDefinition));
  given_unknownMode : option UnknownFieldMode
}.

(** [defineCanonSchema(schema)] *)
Definition defineCanonSchema (schema : PartialCanonSchema) : CanonSchema :=
  {| required := default [] (given_required schema);
     fields :=
       spread_definitions (default [] (given_schema_fields schema))
         CANON_BASE_FIELDS;
     unknownMode := Some (default Allow (given_unknownMode schema)) |}.

(** [getPiiFields(schema)] *)
Definition getPiiFields (schema : CanonSchema) : list string :=
  map fst (List.filter (λ pd, bool_decide (pii pd.2 = Some true)) (fields schema)).

(** [getFieldRedactionStrategy(schema, path)] *)
Definition getFieldRedactionStrategy (schema : CanonSchema) (path : string)
  : option RedactionStrategy :=
  assoc path (fields schema) ≫= redaction.

End Schema.

(** ** The context manager: finalize, redact, validate, sample, emit *)

Module Canon.

Import Event Redact Schema Sampling.

Record CanonConfig : Type := {
  service : string;
  version : option string;
  deployment_id : option string;
  region : option string;
  schema : option CanonSchema;
  strict : option bool;
  sample : option sample_option;
  redact : option RedactionConfig
}.

(** One request's lifecycle instance: what [createCanonContext] closes
    over, the store and the diagnostics, and the records the injected sink
    has been called with. *)
Record lifecycle : Type := Lifecycle {
  config : CanonConfig;
  requestId : string;
  debug : bool;
  builder : EventBuilderState;
  emitted : bool;
  world_of : world;
  sink_calls : list loc
}.

Definition opt_str (o : option string) : value :=
  match o with Some s => VStr s | None => VUndefined end.

(** [createCanonContext(config, requestId, traceId, initialData, debug)];
    [now] and [timestamp] are the readings of the timer and of the wall
    clock. *)
Definition createCanonContext (cfg : CanonConfig) (rid : string)
    (traceId : option string) (initialData : loc) (dbg : bool)
    (now : Z) (timestamp : string) (w : world) : lifecycle :=
  let base :=
    spread (own_fields (store w) initialData)
      [ ("timestamp", VStr timestamp); ("request_id", VStr rid);
        ("trace_id", opt_str traceId); ("service", VStr (service cfg));
        ("version", opt_str (version cfg));
        ("deployment_id", opt_str (deployment_id cfg));
        ("region", opt_str (region cfg)) ] in
  let '(baseEvent, h) := alloc (Obj base) (store w) in
  let '(b, w') := createEventBuilder baseEvent now (with_store w h) in
  Lifecycle cfg rid dbg b false w' [].

(** A completion or abort signal, with the clock reading and the random
    draw available when it is handled. *)
Record signal : Type := Signal {
  sig_outcome : RequestOutcome;
  sig_status : Z;
  sig_now : Z;
  sig_random : Q
}.

(** [emitEvent(outcome, statusCode)] *)
Definition emitEvent (sg : signal) (st : lifecycle) : lifecycle :=
  if emitted st then st
  else
    let cfg := config st in
    let '(snap, (b, w1)) :=
      finalize (sig_outcome sg) (sig_status sg) (sig_now sg) (builder st) (world_of st) in
    let '(redacted, h2) := applyRedaction snap (redact cfg) (schema cfg) (store w1) in
    let validation := validateSchema h2 redacted (schema cfg) (default false (strict cfg)) in
    let log1 :=
      if (0 <? length (warnings validation))%nat
      then log_lines "warning" (requestId st) (warnings validation)
      else [] in
    let log2 :=
      if negb (valid validation)
      then log_lines "error" (requestId st) (errors validation)
      else [] in
    let w2 := World h2 (stderr w1 ++ log1 ++ log2) in
    let stopped := Lifecycle cfg (requestId st) (debug st) b true w2 (sink_calls st) in
    if negb (valid validation) && default false (strict cfg) then stopped
    else if negb (debug st)
            && negb (shouldSample h2 redacted (sample cfg) (sig_random sg))
    then stopped
    else
      Lifecycle cfg (requestId st) (debug st) (markEmitted b) true w2
        (sink_calls st ++ [redacted]).

Fixpoint deliver (sgs : list signal) (st : lifecycle) : lifecycle :=
  match sgs with
  | [] => st
  | sg :: rest => deliver rest (emitEvent sg st)
  end.

(** [s.toUpperCase()], for the ASCII letters an HTTP method is made of;
    other characters are left as they are. *)
Definition upper_char (c : ascii) : ascii :=
  let n := nat_of_ascii c in
  if (97 <=? n)%nat && (n <=? 122)%nat then ascii_of_nat (n - 32) else c.

Fixpoint toUpperCase (s : string) : string :=
  match s with
  | EmptyString => EmptyString
  | String c s' => String (upper_char c) (toUpperCase s')
  end.

(** [if (x) data.k = x] for an optional string [x]. *)
Definition set_if_given (k : string) (x : option string)
    (data : list (string * value)) : list (string * value) :=
  match x with
  | Some s => if truthy (Data (VStr s)) then set_field data k (VStr s) else data
  | None => data
  end.

(** [createInitialEventData(method, path, ip, userAgent, route)] *)
Definition createInitialEventData (method path : string)
    (ip userAgent route : option string) (h : heap) : loc * heap :=
  let data := [("method", VStr (toUpperCase method)); ("path", VStr path)] in
  let data := set_if_given "ip" ip data in
  let data := set_if_given "user_agent" userAgent data in
  let data := set_if_given "route" route data in
  alloc (Obj data) h.

(** The methods [enrich], [set] and [markError] of the context hand over
    to the builder. *)
Definition context_calls (cs : list call) (st : lifecycle) : lifecycle :=
  let '(b, w) := run_calls cs (builder st) (world_of st) in
  Lifecycle (config st) (requestId st) (debug st) b (emitted st) w (sink_calls st).

End Canon.

(** ** The Express adapter: the handlers of the response events *)

Module Express.

Import Event Canon.

(** What the handlers of one request read and write: the context with its
    emission callback, the variable [finalized] of the middleware, and of
    the framework's objects [req.route?.path], [res.statusCode] and
    [res.writableEnded]. *)
Record exchange : Type := Exchange {
  context : lifecycle;
  finalized : bool;
  route_path : option string;
  statusCode : Z;
  writableEnded : bool
}.

Definition with_context (x : exchange) (st : lifecycle) : exchange :=
  Exchange st (finalized x) (route_path x) (statusCode x) (writableEnded x).

(** [context.get()] *)
Definition context_get (st : lifecycle) : loc * lifecycle :=
  let '(s, w) := get (builder st) (world_of st) in
  (s, Lifecycle (config st) (requestId st) (debug st) (builder st) (emitted st) w
        (sink_calls st)).

(** The clock reading and the random draw at hand when a handler runs. *)
Record moment : Type := Moment { at_now : Z; at_random : Q }.

(** [finalizeOnce(outcome, overrideStatusCode)] *)
Definition finalizeOnce (outcome : RequestOutcome) (overrideStatusCode : option Z)
    (m : moment) (x : exchange) : exchange :=
  if finalized x then x
  else
    let st :=
      match route_path x with
      | Some p =>
          if truthy (Data (VStr p)) then
            let '(snap, st1) := context_get (context x) in
            if negb (truthy (get_prop (store (world_of st1)) snap "route"))
            then context_calls [CallSet "route" (VStr p)] st1
            else st1
          else context x
      | None => context x
      end in
    let code :=
      match overrideStatusCode with
      | Some c => c
      | None => if truthy (Data (VNum (statusCode x))) then statusCode x else 200%Z
      end in
    Exchange (emitEvent (Signal outcome code (at_now m) (at_random m)) st)
      true (route_path x) (statusCode x) (writableEnded x).

(** The handler of [finish] *)
Definition on_finish (m : moment) (x : exchange) : exchange :=
  let '(snap, st1) := context_get (context x) in
  let hasError := negb (is_undefined (get_prop (store (world_of st1)) snap "error")) in
  finalizeOnce (if hasError then Error else Success) None m (with_context x st1).

(** The handler of [close] *)
Definition on_close (m : moment) (x : exchange) : exchange :=
  if finalized x then x
  else if writableEnded x then x
  else finalizeOnce Aborted (Some 499%Z) m x.

Inductive response_event : Type :=
| Finish (m : moment)
| Close (m : moment).

Definition handle (x : exchange) (e : response_event) : exchange :=
  match e with
  | Finish m => on_finish m x
  | Close m => on_close m x
  end.

(** The error middleware: [req.canon.markError(err)]. *)
Definition on_error (err : thrown) (x : exchange) : exchange :=
  with_context x (context_calls [CallMarkError err] (context x)).

End Express.

(* ===================================================================== *)
(** * Part II: lemmas and theorems                                        *)
(* ===================================================================== *)

(** ** Strings *)

Section StringFacts.

Lemma append_nil_l s : "" +:+ s = s.
Proof. reflexivity. Qed.

Lemma append_cons a s1 s2 : String a s1 +:+ s2 = String a (s1 +:+ s2).
Proof. reflexivity. Qed.

Lemma append_nil_r s : s +:+ "" = s.
Proof. induction s as [|a s IH]; [done|]. by rewrite append_cons, IH. Qed.

Lemma split_on_nonempty c s : split_on c s ≠ [].
Proof.
  destruct s as [|a s]; simpl; [done|].
  destruct (Ascii.eqb a c); [done|]. by destruct (split_on c s).
Qed.

Lemma split_on_absent c s : includes c s = false → split_on c s = [s].
Proof.
  induction s as [|a s IH]; simpl; [done|].
  destruct (Ascii.eqb a c); simpl; [done|].
  intros H. by rewrite (IH H).
Qed.

Lemma split_on_app c s1 s2 :
  includes c s1 = false →
  split_on c (s1 +:+ String c s2) = s1 :: split_on c s2.
Proof.
  induction s1 as [|a s1 IH].
  - intros _. rewrite append_nil_l. simpl. by rewrite Ascii.eqb_refl.
  - rewrite append_cons. simpl. destruct (Ascii.eqb a c); simpl; [done|].
    intros H. by rewrite (IH H).
Qed.

Lemma includes_app c s1 s2 :
  includes c (s1 +:+ s2) = includes c s1 || includes c s2.
Proof.
  induction s1 as [|a s1 IH]; [done|].
  rewrite append_cons. simpl. by rewrite IH, orb_assoc.
Qed.

Lemma length_app_string s1 s2 :
  String.length (s1 +:+ s2) = String.length s1 + String.length s2.
Proof.
  induction s1 as [|a s1 IH]; [done|].
  rewrite append_cons. simpl. by rewrite IH.
Qed.

Lemma length_repeat_char c n : String.length (repeat_char c n) = n.
Proof. induction n; simpl; congruence. Qed.

End StringFacts.

(** ** The mask strategy *)

Section MaskFacts.

Import Redact.

Lemma last_char_snoc s z : last_char (s +:+ String z "") = String z "".
Proof.
  induction s as [|a s IH]; [done|].
  rewrite append_cons. simpl. rewrite IH.
  destruct s; reflexivity.
Qed.

Lemma mask_local_masked_part local : mask_local local = masked_part local.
Proof.
  unfold mask_local. destruct local as [|c [|d rest]]; reflexivity.
Qed.

Lemma mask_label_masked_part part : mask_label part = masked_part part.
Proof.
  unfold mask_label. destruct part as [|c [|d rest]]; reflexivity.
Qed.

Lemma mask_domain_masked_but_last parts :
  mask_domain parts = masked_but_last parts.
Proof.
  unfold mask_domain. induction parts as [|p ps IH]; [done|].
  destruct ps as [|q ps].
  - reflexivity.
  - change (masked_but_last (p :: q :: ps))
      with (masked_part p :: masked_but_last (q :: ps)).
    rewrite <- IH, <- mask_label_masked_part, imap_cons.
    f_equal. apply imap_ext. intros i x _. simpl. by rewrite Nat.sub_0_r.
Qed.

(** C5, the claim as stated fails: a local part of one character does not
    keep its first character; it is replaced by an asterisk (and so is a
    domain label of one character). *)
Lemma maskValue_keeps_first_counterexample :
  maskValue "a@b.com" = "*@*.com"
  ∧ mask_as_specified "a@b.com" = "a@b.com"
  ∧ maskValue "a@b.com" ≠ mask_as_specified "a@b.com".
Proof. vm_compute. repeat split; congruence. Qed.

(** C5, amended: strings of length at most 2 become asterisks of the same
    length; a longer string without [@] keeps its first and last character
    around asterisks; a longer string with exactly one [@] has its local part
    and every domain label but the last masked, where a part of two or more
    characters keeps its first character and a shorter part becomes a single
    asterisk; and [john@example.com] is masked to a string with one [@],
    starting with [j], ending with [m] and containing an asterisk. *)
Theorem maskValue_contract (value : string) :
  ((String.length value ≤ 2)%nat →
     maskValue value = repeat_char star (String.length value))
  ∧ (∀ a mid z,
       value = String a (mid +:+ String z "") → mid ≠ "" →
       includes "@" value = false →
       maskValue value
       = String a (repeat_char star (String.length mid) +:+ String z ""))
  ∧ (∀ local domain,
       value = local +:+ String "@" domain →
       (2 < String.length value)%nat →
       includes "@" local = false → includes "@" domain = false →
       maskValue value
       = masked_part local +:+ "@"
           +:+ String.concat "." (masked_but_last (split_on "." domain)))
  ∧ (maskValue "john@example.com" = "j***@e******.com"
     ∧ count_char "@" (maskValue "john@example.com") = 1%nat
     ∧ first_char (maskValue "john@example.com") = "j"
     ∧ last_char (maskValue "john@example.com") = "m"
     ∧ includes "*" (maskValue "john@example.com") = true).
Proof.
  repeat split; try (vm_compute; reflexivity).
  - intros Hlen. unfold maskValue.
    by replace (String.length value <=? 2)%nat with true
      by (symmetry; apply Nat.leb_le; lia).
  - intros a mid z -> Hmid Hno. unfold maskValue. rewrite Hno.
    assert (Hl : String.length (String a (mid +:+ String z ""))
                 = S (S (String.length mid))).
    { cbn [String.length]. rewrite length_app_string. simpl. lia. }
    assert (0 < String.length mid)%nat by (destruct mid; [done | simpl; lia]).
    rewrite Hl.
    replace (S (S (String.length mid)) <=? 2)%nat with false
      by (symmetry; apply Nat.leb_gt; lia).
    cbn [first_char]. rewrite Nat.max_r by lia.
    replace (S (S (String.length mid)) - 2)%nat with (String.length mid) by lia.
    replace (last_char (String a (mid +:+ String z ""))) with (String z "").
    2:{ symmetry. apply (last_char_snoc (String a mid) z). }
    reflexivity.
  - intros local domain -> Hlen Hl Hd. unfold maskValue.
    replace (String.length (local +:+ String "@" domain) <=? 2)%nat with false
      by (symmetry; apply Nat.leb_gt; lia).
    rewrite includes_app. simpl. rewrite orb_true_r.
    rewrite split_on_app by done. rewrite (split_on_absent _ _ Hd).
    by rewrite mask_local_masked_part, mask_domain_masked_but_last.
Qed.

Lemma maskValue_contract_witness :
  maskValue "john@example.com"
  = masked_part "john" +:+ "@"
      +:+ String.concat "." (masked_but_last (split_on "." "example.com")).
Proof.
  apply (proj1 (proj2 (proj2 (maskValue_contract "john@example.com")))
           "john" "example.com").
  - reflexivity.
  - vm_compute. lia.
  - reflexivity.
  - reflexivity.
Defined.

End MaskFacts.

(** ** Dot-paths: [hasPath] *)

Section PathFacts.

Import Merge.

Lemma assoc_app_None {A} k (l1 l2 : list (string * A)) :
  assoc k (l1 ++ l2) = None → assoc k l1 = None ∧ assoc k l2 = None.
Proof.
  induction l1 as [|[k' a] l1 IH]; simpl; [done|].
  destruct (String.eqb k' k); [done | exact IH].
Qed.

(** A key that [Array.prototype] does not provide is inherited by no
    object of the store. *)
Lemma not_inherited h l k :
  assoc k array_prototype = None → inherited h l k = None.
Proof.
  intros H. unfold inherited.
  destruct (h !! l) as [[fs|vs]|]; [|done|done].
  unfold array_prototype in H.
  change (assoc k ([("constructor", "Array")]
                     ++ (map (λ m, (m, m)) array_methods ++ object_prototype))
          = None) in H.
  apply assoc_app_None in H as [_ H]. by apply assoc_app_None in H as [_ H].
Qed.

Lemma hasPath_walk_own h current parts :
  hasOwnPath_walk h current parts = true → hasPath_walk h current parts = true.
Proof.
  revert current. induction parts as [|part rest IH]; intros current; simpl; [done|].
  destruct current as [[| | | | |l]|]; try done.
  unfold has_property, get_prop.
  destruct (get_own h l part) as [v|]; [apply IH | done].
Qed.

Lemma hasPath_walk_no_inherited h current parts :
  (∀ part, part ∈ parts → assoc part array_prototype = None) →
  hasPath_walk h current parts = hasOwnPath_walk h current parts.
Proof.
  revert current. induction parts as [|part rest IH]; intros current Hn; simpl; [done|].
  destruct current as [[| | | | |l]|]; try done.
  unfold has_property, get_prop.
  rewrite (not_inherited h l part) by (apply Hn; left).
  destruct (get_own h l part) as [v|]; [|done].
  apply IH. intros p Hp. apply Hn. by right.
Qed.




End PathFacts.

(** ** Tail sampling *)

Section SamplingFacts.

Import Sampling.

(** C8: a record whose status code is 503 is kept under every rules object
    without a custom function, whatever [sampleRateSuccess] and the random
    draw are: the rule on [status_code >= 500] answers first. *)
Theorem shouldSample_keeps_503 (h : heap) (event : loc) (c : SamplingConfig)
    (random : Q) :
  get_prop h event "status_code" = Data (VNum 503) →
  custom c = None →
  shouldSample h event (Some (SampleRules c)) random = true.
Proof.
  intros Hs Hc. unfold shouldSample. rewrite Hc.
  unfold shouldSampleDefault. rewrite Hs. reflexivity.
Qed.

Lemma shouldSample_keeps_503_witness :
  shouldSample [Obj [("status_code", VNum 503); ("outcome", VStr "success")]] 0
    (Some (SampleRules {| sampleRateSuccess := Some 0%Q;
                          slowThresholdMs := Some 999999%Z;
                          custom := None |}))
    (1 # 2)
  = true.
Proof.
  apply shouldSample_keeps_503; reflexivity.
Defined.

End SamplingFacts.

(** ** Schema validation without a schema *)

Section SchemaFacts.

Import Merge Redact Schema.

Lemma check_built_in_fold h event fs (r0 : report) :
  fold_left (check_built_in h event) fs r0
  = (r0.1 ++ map (λ f, "Missing required built-in field: " +:+ f)
                 (missing_built_in h event fs),
     r0.2).
Proof.
  revert r0. induction fs as [|f fs IH]; intros [es ws].
  - simpl. by rewrite app_nil_r.
  - cbn [fold_left]. rewrite IH. unfold check_built_in, missing_built_in.
    cbn [List.filter]. destruct (hasPath h event f); simpl; [done|].
    by rewrite <- app_assoc.
Qed.

Lemma missing_built_in_nil h event fs :
  missing_built_in h event fs = [] ↔ ∀ f, f ∈ fs → hasPath h event f = true.
Proof.
  unfold missing_built_in. induction fs as [|f fs IH]; simpl.
  - split; [|done]. intros _ f Hf. by apply elem_of_nil in Hf.
  - destruct (hasPath h event f) eqn:Hf; simpl.
    + rewrite IH. split.
      * intros Hall f' Hf'.
        apply elem_of_cons in Hf' as [->|Hf']; [done | by apply Hall].
      * intros Hall f' Hf'. apply Hall. by right.
    + split; [done|]. intros Hall. specialize (Hall f (ltac:(left))). congruence.
Qed.

(** C10: without a schema the warnings are empty, the record is valid
    exactly when the eight built-in required fields are present according
    to [hasPath], the only errors are those of the missing built-in fields
    (no type and no unknown-key check is made), and the strict flag does not
    change the result. *)
Theorem validateSchema_without_schema (h : heap) (event : loc) (strict : bool) :
  warnings (validateSchema h event None strict) = []
  ∧ (valid (validateSchema h event None strict) = true
     ↔ ∀ f, f ∈ BUILT_IN_REQUIRED → hasPath h event f = true)
  ∧ errors (validateSchema h event None strict)
    = map (λ f, "Missing required built-in field: " +:+ f)
          (missing_built_in h event BUILT_IN_REQUIRED)
  ∧ validateSchema h event None strict = validateSchema h event None (negb strict)
  ∧ BUILT_IN_REQUIRED
    = [ "timestamp"; "request_id"; "service"; "method"; "path"; "status_code";
        "duration_ms"; "outcome" ].
Proof.
  unfold validateSchema, result_of. rewrite check_built_in_fold.
  cbn [valid warnings errors fst snd app].
  repeat split.
  - intros Hv. apply missing_built_in_nil. apply Nat.eqb_eq in Hv.
    rewrite length_map in Hv. by apply nil_length_inv.
  - intros Hall. apply Nat.eqb_eq. apply missing_built_in_nil in Hall.
    by rewrite Hall.
Qed.

End SchemaFacts.

(** ** The store: property lists, allocation, assignment *)

Section HeapFacts.

Lemma eqb_string_true (a b : string) : String.eqb a b = true ↔ a = b.
Proof. apply String.eqb_eq. Qed.

Lemma eqb_string_false (a b : string) : String.eqb a b = false ↔ a ≠ b.
Proof. apply String.eqb_neq. Qed.

Lemma assoc_None_keys {A} k (fs : list (string * A)) :
  assoc k fs = None ↔ k ∉ map fst fs.
Proof.
  induction fs as [|[k' a] fs IH]; simpl.
  - split; [|done]. intros _ H. by apply elem_of_nil in H.
  - destruct (String.eqb k' k) eqn:E.
    + apply eqb_string_true in E as ->. split; [done|]. intros H. destruct H. left.
    + apply eqb_string_false in E. rewrite IH, not_elem_of_cons.
      split; [intros H; split; [congruence | done] | by intros [_ H]].
Qed.

Lemma assoc_Some_elem {A} k (a : A) (fs : list (string * A)) :
  assoc k fs = Some a → (k, a) ∈ fs.
Proof.
  induction fs as [|[k' a'] fs IH]; simpl; [done|].
  destruct (String.eqb k' k) eqn:E.
  - apply eqb_string_true in E as ->. intros [= ->]. left.
  - intros H. right. by apply IH.
Qed.

Lemma assoc_elem_nodup {A} k (a : A) (fs : list (string * A)) :
  NoDup (map fst fs) → (k, a) ∈ fs → assoc k fs = Some a.
Proof.
  induction fs as [|[k' a'] fs IH]; simpl; intros Hnd Hin.
  - by apply elem_of_nil in Hin.
  - apply NoDup_cons in Hnd as [Hk Hnd].
    apply elem_of_cons in Hin as [[= <- <-]|Hin].
    + by rewrite String.eqb_refl.
    + destruct (String.eqb k' k) eqn:E; [|by apply IH].
      apply eqb_string_true in E as ->. destruct Hk.
      apply list_elem_of_fmap. by exists (k, a).
Qed.

Lemma assoc_set_field_eq fs k v : assoc k (set_field fs k v) = Some v.
Proof.
  induction fs as [|[k' v'] fs IH]; simpl.
  - by rewrite String.eqb_refl.
  - destruct (String.eqb k' k) eqn:E; simpl; by rewrite E.
Qed.

Lemma assoc_set_field_ne fs k k' v :
  k ≠ k' → assoc k' (set_field fs k v) = assoc k' fs.
Proof.
  intros Hne. induction fs as [|[k0 v0] fs IH]; simpl.
  - by apply eqb_string_false in Hne as ->.
  - destruct (String.eqb k0 k) eqn:E; simpl.
    + apply eqb_string_true in E as ->. by apply eqb_string_false in Hne as ->.
    + by rewrite IH.
Qed.

Lemma keys_set_field_in fs k v :
  k ∈ map fst fs → map fst (set_field fs k v) = map fst fs.
Proof.
  induction fs as [|[k0 v0] fs IH]; simpl; intros Hin.
  - by apply elem_of_nil in Hin.
  - destruct (String.eqb k0 k) eqn:E; simpl; [done|].
    apply eqb_string_false in E. apply elem_of_cons in Hin as [->|Hin]; [done|].
    by rewrite IH.
Qed.

Lemma set_field_fresh fs k v :
  k ∉ map fst fs → set_field fs k v = fs ++ [(k, v)].
Proof.
  induction fs as [|[k0 v0] fs IH]; simpl; intros Hin; [done|].
  apply not_elem_of_cons in Hin as [Hne Hin].
  destruct (String.eqb k0 k) eqn:E.
  - apply eqb_string_true in E. congruence.
  - by rewrite IH.
Qed.

Lemma nodup_set_field fs k v :
  NoDup (map fst fs) → NoDup (map fst (set_field fs k v)).
Proof.
  intros Hnd. destruct (decide (k ∈ map fst fs)) as [Hin|Hin].
  - by rewrite keys_set_field_in.
  - rewrite set_field_fresh by done. rewrite map_app. simpl.
    apply NoDup_app. split; [done|]. split.
    + intros x Hx Hx'. apply list_elem_of_singleton in Hx'. by subst.
    + apply NoDup_singleton.
Qed.

Lemma nodup_spread fs into :
  NoDup (map fst into) → NoDup (map fst (spread fs into)).
Proof.
  unfold spread. revert into. induction fs as [|[k v] fs IH]; intros into Hnd; simpl.
  - done.
  - apply IH. by apply nodup_set_field.
Qed.

Lemma spread_fresh fs into :
  NoDup (map fst into ++ map fst fs) → spread fs into = into ++ fs.
Proof.
  unfold spread. revert into. induction fs as [|[k v] fs IH]; intros into Hnd; simpl.
  - by rewrite app_nil_r.
  - assert (k ∉ map fst into).
    { apply NoDup_app in Hnd as (_ & Hd & _). intros Hin. apply (Hd k Hin). left. }
    rewrite set_field_fresh by done. rewrite IH.
    + by rewrite <- app_assoc.
    + rewrite map_app. simpl. by rewrite <- app_assoc.
Qed.

Lemma spread_nil_nodup fs : NoDup (map fst fs) → spread fs [] = fs.
Proof. intros H. by rewrite spread_fresh. Qed.

Lemma assoc_spread_absent fs into k :
  k ∉ map fst fs → assoc k (spread fs into) = assoc k into.
Proof.
  unfold spread. revert into. induction fs as [|[k0 v0] fs IH]; intros into Hk; simpl.
  - done.
  - apply not_elem_of_cons in Hk as [Hne Hk]. rewrite IH by done.
    by apply assoc_set_field_ne.
Qed.

Lemma nodup_keys_spec ks : nodup_keys ks = true ↔ NoDup ks.
Proof.
  induction ks as [|k ks IH]; simpl.
  - split; [constructor | done].
  - rewrite andb_true_iff, negb_true_iff, IH, NoDup_cons.
    assert (existsb (String.eqb k) ks = false ↔ k ∉ ks) as ->; [|done].
    rewrite <- not_true_iff_false, existsb_exists. split.
    + intros Hn Hin. apply Hn. exists k. split; [by apply list_elem_of_In|].
      apply String.eqb_refl.
    + intros Hn (x & Hx & He). apply eqb_string_true in He as ->.
      by apply list_elem_of_In in Hx.
Qed.

(** *** Allocation and assignment *)

Lemma alloc_lookup_new o h : (alloc o h).2 !! (alloc o h).1 = Some o.
Proof. unfold alloc. cbn [fst snd]. by apply list_lookup_middle. Qed.

Lemma alloc_lookup_old o h l :
  (l < length h)%nat → (alloc o h).2 !! l = h !! l.
Proof. intros Hl. unfold alloc. cbn [fst snd]. by apply lookup_app_l. Qed.

Lemma alloc_length o h : length (alloc o h).2 = S (length h).
Proof. unfold alloc. cbn [fst snd]. rewrite length_app. simpl. lia. Qed.

Lemma set_prop_length l k v h : length (set_prop l k v h) = length h.
Proof.
  unfold set_prop. destruct (h !! l) as [[fs|vs]|]; [|destruct (index_of_key k)|];
    by rewrite ?length_insert.
Qed.

Lemma set_prop_lookup_ne l k v h l' :
  l ≠ l' → set_prop l k v h !! l' = h !! l'.
Proof.
  intros Hne. unfold set_prop.
  destruct (h !! l) as [[fs|vs]|]; [|destruct (index_of_key k)|];
    by rewrite ?list_lookup_insert_ne.
Qed.

Lemma set_prop_lookup_obj l k v h fs :
  h !! l = Some (Obj fs) → set_prop l k v h !! l = Some (Obj (set_field fs k v)).
Proof.
  intros Hl. unfold set_prop. rewrite Hl.
  apply list_lookup_insert_eq. by apply lookup_lt_Some in Hl.
Qed.

Lemma get_own_set_prop_eq l k v h fs :
  h !! l = Some (Obj fs) → get_own (set_prop l k v h) l k = Some v.
Proof.
  intros Hl. unfold get_own. rewrite (set_prop_lookup_obj _ _ _ _ _ Hl).
  apply assoc_set_field_eq.
Qed.

Lemma get_own_set_prop_ne l k k' v h fs :
  h !! l = Some (Obj fs) → k ≠ k' →
  get_own (set_prop l k v h) l k' = get_own h l k'.
Proof.
  intros Hl Hne. unfold get_own. rewrite (set_prop_lookup_obj _ _ _ _ _ Hl), Hl.
  by apply assoc_set_field_ne.
Qed.

Lemma get_own_lookup_eq h h' l k :
  h' !! l = h !! l → get_own h' l k = get_own h l k.
Proof. intros H. unfold get_own. by rewrite H. Qed.

Lemma get_prop_lookup_eq h h' l k :
  h' !! l = h !! l → get_prop h' l k = get_prop h l k.
Proof. intros H. unfold get_prop, get_own, inherited. by rewrite H. Qed.

Lemma get_prop_own h l k v : get_own h l k = Some v → get_prop h l k = Data v.
Proof. intros H. unfold get_prop. by rewrite H. Qed.

Lemma get_prop_set_prop_eq l k v h fs :
  h !! l = Some (Obj fs) → get_prop (set_prop l k v h) l k = Data v.
Proof. intros Hl. apply get_prop_own. by eapply get_own_set_prop_eq. Qed.

Lemma get_prop_set_prop_ne l k k' v h fs :
  h !! l = Some (Obj fs) → k ≠ k' →
  get_prop (set_prop l k v h) l k' = get_prop h l k'.
Proof.
  intros Hl Hne. unfold get_prop.
  rewrite (get_own_set_prop_ne _ _ _ _ _ _ Hl Hne).
  unfold inherited. by rewrite (set_prop_lookup_obj _ _ _ _ _ Hl), Hl.
Qed.

End HeapFacts.

(** ** [setPath] and [getPath] *)

Section SetPathFacts.

Import Merge.

Lemma setPath_walk_cons current key key2 rest v h :
  setPath_walk current (key :: key2 :: rest) v h
  = setPath_walk (length h) (key2 :: rest) v
      (set_prop current key (VRef (length h))
         (h ++ [Obj (copy_or_empty h (get_prop h current key))])).
Proof. reflexivity. Qed.

(** The walk of [setPath] writes to the object it stands on and to objects
    it has created itself; reading the path back finds the value written. *)
Lemma setPath_walk_spec parts : ∀ current v h fs,
  parts ≠ [] →
  h !! current = Some (Obj fs) →
  (length h ≤ length (setPath_walk current parts v h))%nat
  ∧ (∀ l, (l < length h)%nat → l ≠ current →
          setPath_walk current parts v h !! l = h !! l)
  ∧ (∃ fs', setPath_walk current parts v h !! current = Some (Obj fs')
            ∧ (∀ k, head parts ≠ Some k → assoc k fs' = assoc k fs)
            ∧ (NoDup (map fst fs) → NoDup (map fst fs')))
  ∧ getPath_walk (setPath_walk current parts v h) (Data (VRef current)) parts
    = Data v.
Proof.
  induction parts as [|key rest IH]; intros current v h fs Hne Hcur; [done|].
  destruct rest as [|key2 rest].
  - cbn [setPath_walk getPath_walk]. rewrite set_prop_length.
    split; [lia|]. split; [|split].
    + intros l _ Hl. by apply set_prop_lookup_ne.
    + exists (set_field fs key v). split; [by apply set_prop_lookup_obj|]. split.
      * intros k Hk. apply assoc_set_field_ne. simpl in Hk. congruence.
      * apply nodup_set_field.
    + by erewrite get_prop_set_prop_eq.
  - rewrite setPath_walk_cons.
    set (fresh := copy_or_empty h (get_prop h current key)).
    set (h1 := h ++ [Obj fresh]).
    set (h2 := set_prop current key (VRef (length h)) h1).
    assert (Hlt : (current < length h)%nat) by by apply lookup_lt_Some in Hcur.
    assert (Hcur1 : h1 !! current = Some (Obj fs)).
    { unfold h1. by rewrite lookup_app_l. }
    assert (Hnext : h2 !! length h = Some (Obj fresh)).
    { unfold h2. rewrite set_prop_lookup_ne by lia. unfold h1.
      by apply list_lookup_middle. }
    assert (Hlen2 : length h2 = S (length h)).
    { unfold h2, h1. rewrite set_prop_length, length_app. simpl. lia. }
    destruct (IH (length h) v h2 fresh ltac:(done) Hnext)
      as (Hlen & Hframe & _ & Hget).
    assert (Hcur' : setPath_walk (length h) (key2 :: rest) v h2 !! current
                    = Some (Obj (set_field fs key (VRef (length h))))).
    { rewrite Hframe by lia. unfold h2. by apply set_prop_lookup_obj. }
    split; [lia|]. split; [|split].
    + intros l Hl Hlc. rewrite Hframe by lia. unfold h2.
      rewrite set_prop_lookup_ne by done. unfold h1. by rewrite lookup_app_l.
    + eexists. split; [exact Hcur'|]. split.
      * intros k Hk. apply assoc_set_field_ne. simpl in Hk. congruence.
      * apply nodup_set_field.
    + cbn [getPath_walk].
      replace (get_prop (setPath_walk (length h) (key2 :: rest) v h2) current key)
        with (Data (VRef (length h))); [exact Hget|].
      symmetry. apply get_prop_own. unfold get_own. rewrite Hcur'.
      apply assoc_set_field_eq.
Qed.

Lemma setPath_spec o path v h :
  (setPath o path v h).1 = length h
  ∧ (length h < length (setPath o path v h).2)%nat
  ∧ (∀ l, (l < length h)%nat → (setPath o path v h).2 !! l = h !! l)
  ∧ (∃ fs', (setPath o path v h).2 !! (setPath o path v h).1 = Some (Obj fs')
            ∧ NoDup (map fst fs')
            ∧ ∀ k, head (split_on "." path) ≠ Some k →
                   assoc k fs' = assoc k (spread (own_fields h o) []))
  ∧ getPath (setPath o path v h).2 (setPath o path v h).1 path = Data v.
Proof.
  unfold setPath, getPath, alloc. cbn [fst snd].
  set (fs := spread (own_fields h o) []).
  assert (Hr : (h ++ [Obj fs]) !! length h = Some (Obj fs))
    by by apply list_lookup_middle.
  destruct (setPath_walk_spec (split_on "." path) (length h) v (h ++ [Obj fs]) fs
              (split_on_nonempty _ _) Hr) as (Hlen & Hframe & (fs' & Hfs' & Hk & Hnd) & Hget).
  rewrite length_app in Hlen, Hframe. simpl in Hlen, Hframe.
  split; [done|]. split; [lia|]. split; [|split].
  - intros l Hl. rewrite Hframe by lia. by apply lookup_app_l.
  - exists fs'. split; [done|]. split; [|done].
    apply Hnd. apply nodup_spread. constructor.
  - exact Hget.
Qed.

End SetPathFacts.

(** ** Redaction of a value *)

Section RedactValueFacts.

Import Merge Redact.

(** The string a strategy produces from the string form of a value. *)
Lemma redactValue_string h v s :
  is_nullish v = false →
  redactValue h v s
  = VStr (match s with
          | Mask => maskValue (to_string h v)
          | Hash => hashValue (to_string h v)
          | Drop => "[REDACTED]"
          end).
Proof.
  intros Hn. destruct v as [[| | | | |]|]; try done; by destruct s.
Qed.



End RedactValueFacts.

(** ** The context manager: at most one emission *)

Section CanonFacts.

Import Event Redact Schema Sampling Canon.

Lemma emitEvent_noop sg st : emitted st = true → emitEvent sg st = st.
Proof. intros H. unfold emitEvent. by rewrite H. Qed.

Lemma emitEvent_emitted sg st : emitted (emitEvent sg st) = true.
Proof.
  unfold emitEvent. destruct (emitted st) eqn:E; [done|].
  destruct (finalize _ _ _ _ _) as [snap [b w1]].
  destruct (applyRedaction _ _ _ _) as [redacted h2].
  cbv zeta. repeat case_match; reflexivity.
Qed.

(** A signal handled by an open instance calls the sink at most once,
    after the calls already made. *)
Lemma emitEvent_sink sg st :
  sink_calls (emitEvent sg st) = sink_calls st
  ∨ ∃ r, emitted st = false ∧ sink_calls (emitEvent sg st) = sink_calls st ++ [r].
Proof.
  unfold emitEvent. destruct (emitted st) eqn:E; [by left|].
  destruct (finalize _ _ _ _ _) as [snap [b w1]].
  destruct (applyRedaction _ _ _ _) as [redacted h2].
  cbv zeta. repeat case_match; simpl; eauto.
Qed.

Lemma deliver_noop sgs st : emitted st = true → deliver sgs st = st.
Proof.
  revert st. induction sgs as [|sg sgs IH]; intros st H; simpl; [done|].
  rewrite emitEvent_noop by done. by apply IH.
Qed.

Lemma createCanonContext_fresh cfg rid tid init dbg now ts w :
  emitted (createCanonContext cfg rid tid init dbg now ts w) = false
  ∧ sink_calls (createCanonContext cfg rid tid init dbg now ts w) = [].
Proof. unfold createCanonContext, createEventBuilder, alloc. done. Qed.

(** C1: whatever completion and abort signals are delivered to one
    lifecycle instance, in whatever order and however often, the sink is
    called at most once; the first signal decides, and every later signal
    leaves the instance exactly as it was (no work, no sink call).  Signals
    are handled one after the other: [emitEvent] runs to its end without
    yielding, which is what makes its check-and-set of [emitted] atomic. *)
Theorem at_most_once_emission cfg rid tid init dbg now ts w (sgs : list signal) :
  let st0 := createCanonContext cfg rid tid init dbg now ts w in
  (length (sink_calls (deliver sgs st0)) ≤ 1)%nat
  ∧ (∀ sg rest, deliver (sg :: rest) st0 = emitEvent sg st0)
  ∧ (∀ sg later, emitEvent later (emitEvent sg st0) = emitEvent sg st0)
  ∧ (∀ st later, emitted st = true → emitEvent later st = st).
Proof.
  intros st0.
  destruct (createCanonContext_fresh cfg rid tid init dbg now ts w) as [He Hs].
  fold st0 in He, Hs.
  assert (Hfirst : ∀ sg rest, deliver (sg :: rest) st0 = emitEvent sg st0).
  { intros sg rest. simpl. apply deliver_noop, emitEvent_emitted. }
  split; [|split; [exact Hfirst|split]].
  - destruct sgs as [|sg rest]; simpl deliver at 1.
    + rewrite Hs. simpl. lia.
    + change (deliver rest (emitEvent sg st0)) with (deliver (sg :: rest) st0).
      rewrite Hfirst.
      destruct (emitEvent_sink sg st0) as [->|(r & _ & ->)]; rewrite Hs; simpl; lia.
  - intros sg later. apply emitEvent_noop, emitEvent_emitted.
  - intros st later. apply emitEvent_noop.
Qed.

End CanonFacts.

(** ** SHA-256: test vectors *)

Section Sha256Facts.

Example sha256_abc :
  Sha256.sha256_hex "abc"
  = "ba7816bf8f01cfea414140de5dae2223b00361a396177a9cb410ff61f20015ad".
Proof. vm_compute. reflexivity. Qed.

Example sha256_empty :
  Sha256.sha256_hex ""
  = "e3b0c44298fc1c149afbf4c8996fb92427ae41e4649b934ca495991b7852b855".
Proof. vm_compute. reflexivity. Qed.

Example sha256_two_blocks :
  Sha256.sha256_hex "abcdbcdecdefdefgefghfghighijhijkijkljklmklmnlmnomnopnopq"
  = "248d6a61d20638b8e5c026930c3e6039a33ce45964ff2167f6ecedd419db06c1".
Proof. vm_compute. reflexivity. Qed.

End Sha256Facts.

(** ** Well-formed stores and the structure of values *)

Section StructureFacts.

Lemma heap_ok_spec h :
  heap_ok h = true ↔ ∀ l o, h !! l = Some o → obj_ok (length h) o = true.
Proof.
  unfold heap_ok. rewrite forallb_forall. split.
  - intros H l o Hl. apply H. apply list_elem_of_In. by eapply list_elem_of_lookup_2.
  - intros H o Ho. apply list_elem_of_In, list_elem_of_lookup in Ho as [l Hl].
    by eapply H.
Qed.

Lemma heap_ok_closed h : heap_ok h = true → closed_below (length h) h.
Proof.
  intros H. split; [done|]. intros l o _ Hl.
  by eapply (proj1 (heap_ok_spec h)).
Qed.

Lemma value_ok_lt n l : value_ok n (VRef l) = true ↔ (l < n)%nat.
Proof. simpl. apply Nat.ltb_lt. Qed.

Lemma value_ok_mono n n' v : (n ≤ n')%nat → value_ok n v = true → value_ok n' v = true.
Proof.
  intros Hn. destruct v; try done. rewrite !value_ok_lt. lia.
Qed.

Lemma obj_ok_values n o :
  obj_ok n o = true → ∀ v, v ∈ Merge.obj_values o → value_ok n v = true.
Proof.
  destruct o as [fs|vs]; simpl.
  - rewrite andb_true_iff, forallb_forall. intros [H _] v Hv.
    apply list_elem_of_fmap in Hv as ([k v'] & -> & Hin).
    apply (H (k, v')). by apply list_elem_of_In.
  - rewrite forallb_forall. intros H v Hv. apply H. by apply list_elem_of_In.
Qed.

Lemma obj_ok_nodup n fs : obj_ok n (Obj fs) = true → NoDup (map fst fs).
Proof.
  simpl. rewrite andb_true_iff. intros [_ H]. by apply nodup_keys_spec.
Qed.

Lemma obj_ok_intro_obj n fs :
  (∀ k v, (k, v) ∈ fs → value_ok n v = true) → NoDup (map fst fs) →
  obj_ok n (Obj fs) = true.
Proof.
  intros Hv Hnd. simpl. rewrite andb_true_iff, forallb_forall. split.
  - intros [k v] Hin. apply (Hv k v). by apply list_elem_of_In.
  - by apply nodup_keys_spec.
Qed.

Lemma obj_ok_mono n n' o : (n ≤ n')%nat → obj_ok n o = true → obj_ok n' o = true.
Proof.
  intros Hn. destruct o as [fs|vs]; simpl.
  - rewrite !andb_true_iff, !forallb_forall. intros [H ?]. split; [|done].
    intros x Hx. eapply value_ok_mono; [done | by apply H].
  - rewrite !forallb_forall. intros H x Hx.
    eapply value_ok_mono; [done | by apply H].
Qed.

(** Two stores that agree below [n], a closed region, give every value of
    the region the same structure. *)
Lemma unfold_agree n0 h h' :
  closed_below n0 h →
  (∀ l, (l < n0)%nat → h' !! l = h !! l) →
  ∀ n v, value_ok n0 v = true → unfold n h' v = unfold n h v.
Proof.
  intros [Hlen Hcl] Hag n. induction n as [|n IH]; intros v Hv.
  - destruct v as [| | | | |l]; try done. apply value_ok_lt in Hv.
    simpl. by rewrite Hag.
  - destruct v as [| | | | |l]; try done. apply value_ok_lt in Hv.
    simpl. rewrite Hag by done.
    destruct (h !! l) as [o|] eqn:Hl; [|done].
    pose proof (obj_ok_values _ _ (Hcl l o Hv Hl)) as Hvals.
    destruct o as [fs|vs]; f_equal.
    + apply map_ext_in. intros [k v] Hin. f_equal. apply IH. apply Hvals.
      simpl. apply list_elem_of_fmap. exists (k, v). split; [done|].
      by apply list_elem_of_In.
    + apply map_ext_in. intros v Hin. apply IH, Hvals. by apply list_elem_of_In.
Qed.

Lemma closed_below_agree n0 h h' :
  closed_below n0 h → (n0 ≤ length h')%nat →
  (∀ l, (l < n0)%nat → h' !! l = h !! l) → closed_below n0 h'.
Proof.
  intros [Hlen Hcl] Hlen' Hag. split; [done|].
  intros l o Hl Ho. rewrite Hag in Ho by done. by eapply Hcl.
Qed.

(** What is reachable from a value of a closed region stays in the region. *)
Lemma reach_closed n0 h :
  closed_below n0 h →
  ∀ n v l, value_ok n0 v = true → l ∈ reach n h v → (l < n0)%nat.
Proof.
  intros [Hlen Hcl] n. induction n as [|n IH]; intros v l Hv Hin.
  - destruct v as [| | | | |r]; try (by apply elem_of_nil in Hin).
    simpl in Hin. apply list_elem_of_singleton in Hin as ->. by apply value_ok_lt.
  - destruct v as [| | | | |r]; try (by apply elem_of_nil in Hin).
    apply value_ok_lt in Hv. simpl in Hin.
    apply elem_of_cons in Hin as [->|Hin]; [done|].
    destruct (h !! r) as [o|] eqn:Hr; [|by apply elem_of_nil in Hin].
    pose proof (obj_ok_values _ _ (Hcl r o Hv Hr)) as Hvals.
    destruct o as [fs|vs].
    + apply list_elem_of_In, in_flat_map in Hin as ([k v] & Hkv & Hin).
      apply (IH v); [|by apply list_elem_of_In].
      apply Hvals. simpl. apply list_elem_of_fmap. exists (k, v).
      split; [done | by apply list_elem_of_In].
    + apply list_elem_of_In, in_flat_map in Hin as (v & Hkv & Hin).
      apply (IH v); [|by apply list_elem_of_In].
      apply Hvals. by apply list_elem_of_In.
Qed.

End StructureFacts.

(** ** [structuredClone]: the copy leaves the store it reads untouched *)

Section CloneFrame.

Import Merge.

Lemma clone_all_eq f src vs st :
  (fix clone_all (vs : list value) (st : clone_state)
     : list value * clone_state :=
     match vs with
     | [] => ([], st)
     | v :: vs' =>
         let '(v', st') := clone_value f src v st in
         let '(r, st'') := clone_all vs' st' in
         (v' :: r, st'')
     end) vs st
  = clone_list f src vs st.
Proof.
  revert st. induction vs as [|v vs IH]; intros st; simpl; [done|].
  destruct (clone_value f src v st) as [v' st']. by rewrite IH.
Qed.

Lemma clone_value_enter f src l st o :
  st.1 !! l = None → src !! l = Some o →
  clone_value (S f) src (VRef l) st
  = let l' := length st.2 in
    let r := clone_list f src (obj_values o)
               (<[l := l']> st.1, st.2 ++ [obj_with_values o []]) in
    (VRef l', (r.2.1, <[l' := obj_with_values o r.1]> r.2.2)).
Proof.
  destruct st as [m hc]. cbn [fst snd]. intros Hm Ho.
  cbn [clone_value fst snd]. rewrite Hm, Ho, clone_all_eq.
  by destruct (clone_list _ _ _ _) as [vs' st2].
Qed.

Lemma clone_value_hit f src l st l' :
  st.1 !! l = Some l' → clone_value f src (VRef l) st = (VRef l', st).
Proof.
  destruct st as [m hc]. cbn [fst snd]. intros Hm.
  destruct f; cbn [clone_value fst snd]; by rewrite Hm.
Qed.

Lemma clone_value_stuck f src l st :
  st.1 !! l = None → (f = O ∨ src !! l = None) →
  clone_value f src (VRef l) st = (VRef l, st).
Proof.
  destruct st as [m hc]. cbn [fst snd]. intros Hm [->|Hs].
  - cbn [clone_value fst snd]. by rewrite Hm.
  - destruct f; cbn [clone_value fst snd]; rewrite Hm; [done|]. by rewrite Hs.
Qed.

Lemma clone_value_data f src v st :
  (∀ l, v ≠ VRef l) → clone_value f src v st = (v, st).
Proof. intros H. destruct v; try (by destruct f). by destruct (H l). Qed.

Lemma clone_frame_refl st : clone_frame st st.
Proof. by split. Qed.

Lemma clone_frame_trans st1 st2 st3 :
  clone_frame st1 st2 → clone_frame st2 st3 → clone_frame st1 st3.
Proof.
  intros [H1 H1'] [H2 H2']. split; [lia|].
  intros l Hl. rewrite H2' by lia. by apply H1'.
Qed.

Lemma clone_list_frame f src :
  (∀ v st, clone_frame st (clone_value f src v st).2) →
  ∀ vs st, clone_frame st (clone_list f src vs st).2.
Proof.
  intros IHv vs. induction vs as [|v vs IH]; intros st; simpl.
  - apply clone_frame_refl.
  - pose proof (IHv v st) as H1.
    destruct (clone_value f src v st) as [v' st'].
    pose proof (IH st') as H2.
    destruct (clone_list f src vs st') as [r st'']. simpl in *.
    by eapply clone_frame_trans.
Qed.

Lemma clone_value_frame f src : ∀ v st, clone_frame st (clone_value f src v st).2.
Proof.
  induction f as [|f IH]; intros v st.
  - destruct v as [| | | | |l]; try apply clone_frame_refl.
    destruct (st.1 !! l) as [l'|] eqn:Hm.
    + rewrite (clone_value_hit _ _ _ _ _ Hm). apply clone_frame_refl.
    + rewrite clone_value_stuck by auto. apply clone_frame_refl.
  - destruct v as [| | | | |l]; try apply clone_frame_refl.
    destruct (st.1 !! l) as [l'|] eqn:Hm.
    { rewrite (clone_value_hit _ _ _ _ _ Hm). apply clone_frame_refl. }
    destruct (src !! l) as [o|] eqn:Ho.
    2:{ rewrite clone_value_stuck by auto. apply clone_frame_refl. }
    rewrite (clone_value_enter _ _ _ _ _ Hm Ho). cbv zeta.
    pose proof (clone_list_frame f src IH (obj_values o)
                  (<[l:=length st.2]> st.1, st.2 ++ [obj_with_values o []]))
      as [Hlen Hfr].
    destruct (clone_list _ _ _ _) as [vs' st2]. simpl in *.
    rewrite length_app in Hlen, Hfr. simpl in Hlen, Hfr.
    split; simpl.
    + rewrite length_insert. lia.
    + intros l0 Hl0. rewrite list_lookup_insert_ne by lia.
      rewrite Hfr by lia. by apply lookup_app_l.
Qed.

Lemma structuredClone_frame v h :
  (length h ≤ length (structuredClone v h).2)%nat
  ∧ ∀ l, (l < length h)%nat → (structuredClone v h).2 !! l = h !! l.
Proof.
  unfold structuredClone.
  pose proof (clone_value_frame (length h) h v (∅, h)) as H.
  by destruct (clone_value _ _ _ _) as [v' st].
Qed.

Lemma snapshot_object_frame l h :
  (length h ≤ length (snapshot_object l h).2)%nat
  ∧ ∀ l0, (l0 < length h)%nat → (snapshot_object l h).2 !! l0 = h !! l0.
Proof.
  unfold snapshot_object, snapshot.
  pose proof (structuredClone_frame (VRef l) h) as H.
  by destruct (structuredClone (VRef l) h) as [[| | | | |l'] h'].
Qed.

End CloneFrame.

(** ** [structuredClone]: the copy has the structure of the original *)

Section CloneSpec.

Import Merge.

Lemma rename_mono m m' v :
  m ⊆ m' → covered m v → rename m' v = rename m v ∧ covered m' v.
Proof.
  intros Hsub Hc. destruct v as [| | | | |l]; try done.
  simpl in *. destruct Hc as [l' Hl'].
  pose proof (lookup_weaken _ _ _ _ Hl' Hsub) as Hl''.
  by rewrite Hl', Hl''.
Qed.

Lemma rename_map_mono m m' vs :
  m ⊆ m' → Forall (covered m) vs →
  map (rename m') vs = map (rename m) vs ∧ Forall (covered m') vs.
Proof.
  intros Hsub. induction 1 as [|v vs Hv _ [IH1 IH2]]; simpl; [done|].
  destruct (rename_mono _ _ _ Hsub Hv) as [-> ?]. rewrite IH1.
  split; [done|]. by constructor.
Qed.

Lemma memo_size_lt src P st l :
  clone_inv src P st → (l < length src)%nat → st.1 !! l = None →
  (size st.1 < length src)%nat.
Proof.
  intros Hinv Hl Hm.
  assert (Hsub : dom (<[l := 0%nat]> st.1) ⊆ (set_seq 0 (length src) : gset nat)).
  { intros x Hx. apply elem_of_dom in Hx as [y Hy]. apply elem_of_set_seq.
    destruct (decide (x = l)) as [->|Hne]; [lia|].
    rewrite lookup_insert_ne in Hy by done.
    destruct (ci_range _ _ _ Hinv _ _ Hy). lia. }
  apply subseteq_size in Hsub.
  rewrite size_dom, size_set_seq, map_size_insert_None in Hsub by done. lia.
Qed.

Lemma clone_list_spec src f :
  clone_value_ok src f →
  ∀ vs st P,
    clone_inv src P st → Forall (λ v, value_ok (length src) v = true) vs →
    (length src ≤ f + size st.1)%nat →
    clone_inv src P (clone_list f src vs st).2
    ∧ st.1 ⊆ (clone_list f src vs st).2.1
    ∧ (clone_list f src vs st).1 = map (rename (clone_list f src vs st).2.1) vs
    ∧ Forall (covered (clone_list f src vs st).2.1) vs.
Proof.
  intros IHv vs. induction vs as [|v vs IH]; intros st P Hinv Hvs Hfuel; simpl.
  - done.
  - apply Forall_cons in Hvs as [Hv Hvs].
    destruct (IHv v st P Hinv Hv Hfuel) as (Hinv1 & Hsub1 & Hr1 & Hc1).
    destruct (clone_value f src v st) as [v' st']. cbn [fst snd] in *.
    assert (Hfuel' : (length src ≤ f + size st'.1)%nat).
    { pose proof (map_subseteq_size _ _ Hsub1). lia. }
    destruct (IH st' P Hinv1 Hvs Hfuel') as (Hinv2 & Hsub2 & Hr2 & Hc2).
    destruct (clone_list f src vs st') as [r st'']. cbn [fst snd] in *.
    destruct (rename_mono _ _ _ Hsub2 Hc1) as [Hre Hc1'].
    split; [done|]. split; [by etrans|]. split.
    + by rewrite Hre, <- Hr1, <- Hr2.
    + by constructor.
Qed.

Lemma clone_enter_inv src P m hc l o :
  clone_inv src P (m, hc) → (l < length src)%nat → m !! l = None →
  src !! l = Some o →
  clone_inv src (P ∪ {[l]}) (<[l := length hc]> m, hc ++ [obj_with_values o []]).
Proof.
  intros Hinv Hl Hm Ho.
  assert (Hsub : m ⊆ <[l := length hc]> m) by by apply insert_subseteq.
  constructor; cbn [fst snd].
  - intros l0 Hl0. rewrite lookup_app_l.
    + by apply (ci_prefix _ _ _ Hinv).
    + pose proof (ci_len _ _ _ Hinv). simpl in *. lia.
  - rewrite length_app. pose proof (ci_len _ _ _ Hinv). simpl in *. lia.
  - intros l1 l1' H1. rewrite length_app. simpl.
    destruct (decide (l1 = l)) as [->|Hne].
    + rewrite lookup_insert_eq in H1. injection H1 as <-.
      pose proof (ci_len _ _ _ Hinv). simpl in *. lia.
    + rewrite lookup_insert_ne in H1 by done.
      destruct (ci_range _ _ _ Hinv _ _ H1) as (? & ? & ?). simpl in *. lia.
  - intros l1 l2 l' H1 H2.
    destruct (decide (l1 = l)) as [->|Hne1]; destruct (decide (l2 = l)) as [->|Hne2];
      try done.
    + rewrite lookup_insert_eq in H1. injection H1 as <-.
      rewrite lookup_insert_ne in H2 by done.
      destruct (ci_range _ _ _ Hinv _ _ H2) as (? & ? & ?). simpl in *. lia.
    + rewrite lookup_insert_eq in H2. injection H2 as <-.
      rewrite lookup_insert_ne in H1 by done.
      destruct (ci_range _ _ _ Hinv _ _ H1) as (? & ? & ?). simpl in *. lia.
    + rewrite lookup_insert_ne in H1, H2 by done.
      by eapply (ci_inj _ _ _ Hinv).
  - intros l' Hl1 Hl2. rewrite length_app in Hl2. simpl in Hl2.
    destruct (decide (l' = length hc)) as [->|Hne].
    + exists l. by rewrite lookup_insert_eq.
    + destruct (ci_onto _ _ _ Hinv l') as [l0 H0]; [done | simpl; lia |].
      exists l0. by eapply lookup_weaken.
  - intros l0 Hl0. apply elem_of_union in Hl0 as [Hl0|Hl0].
    + destruct (ci_entered _ _ _ Hinv _ Hl0) as [x Hx]. exists x.
      by eapply lookup_weaken.
    + apply elem_of_singleton in Hl0 as ->. by rewrite lookup_insert_eq.
  - intros l1 l1' H1.
    destruct (decide (l1 = l)) as [->|Hne].
    + rewrite lookup_insert_eq in H1. injection H1 as <-.
      exists o. split; [done|]. split.
      * intros _. by apply list_lookup_middle.
      * intros Hn. destruct Hn. apply elem_of_union_r. by apply elem_of_singleton.
    + rewrite lookup_insert_ne in H1 by done.
      destruct (ci_shape _ _ _ Hinv _ _ H1) as (o1 & Ho1 & HP & HnP).
      destruct (ci_range _ _ _ Hinv _ _ H1) as (? & ? & ?). simpl in *.
      exists o1. split; [done|]. split.
      * intros Hin. rewrite lookup_app_l by done. apply HP.
        apply elem_of_union in Hin as [Hin|Hin]; [done|].
        apply elem_of_singleton in Hin. congruence.
      * intros Hnin. rewrite lookup_app_l by done.
        destruct HnP as [Hobj Hcov].
        { intros Hin. apply Hnin. by apply elem_of_union_l. }
        destruct (rename_map_mono _ _ _ Hsub Hcov) as [-> Hcov'].
        done.
Qed.

Lemma clone_leave_inv src P m2 hc2 l l' o :
  clone_inv src (P ∪ {[l]}) (m2, hc2) → l ∉ P →
  m2 !! l = Some l' → src !! l = Some o →
  Forall (covered m2) (obj_values o) →
  clone_inv src P
    (m2, <[l' := obj_with_values o (map (rename m2) (obj_values o))]> hc2).
Proof.
  intros Hinv HlP Hm Ho Hcov.
  destruct (ci_range _ _ _ Hinv _ _ Hm) as (Hl1 & Hl2 & Hl3). cbn [fst snd] in *.
  constructor; cbn [fst snd].
  - intros l0 Hl0. rewrite list_lookup_insert_ne by lia.
    by apply (ci_prefix _ _ _ Hinv).
  - rewrite length_insert. apply (ci_len _ _ _ Hinv).
  - intros l1 l1' H1. rewrite length_insert. apply (ci_range _ _ _ Hinv _ _ H1).
  - apply (ci_inj _ _ _ Hinv).
  - intros l0. rewrite length_insert. apply (ci_onto _ _ _ Hinv).
  - intros l0 Hl0. apply (ci_entered _ _ _ Hinv). by apply elem_of_union_l.
  - intros l1 l1' H1.
    destruct (decide (l1 = l)) as [->|Hne].
    + assert (l1' = l') as -> by congruence.
      exists o. split; [done|]. split; [done|]. intros _.
      split; [|done]. by apply list_lookup_insert_eq.
    + assert (l1' ≠ l').
      { intros ->. apply Hne. by eapply (ci_inj _ _ _ Hinv). }
      destruct (ci_shape _ _ _ Hinv _ _ H1) as (o1 & Ho1 & HP & HnP).
      cbn [fst snd] in *.
      exists o1. split; [done|]. rewrite list_lookup_insert_ne by done. split.
      * intros Hin. apply HP. by apply elem_of_union_l.
      * intros Hnin. apply HnP. intros Hin.
        apply elem_of_union in Hin as [Hin|Hin]; [done|].
        by apply elem_of_singleton in Hin.
Qed.

Lemma clone_value_spec src :
  closed_below (length src) src → ∀ f, clone_value_ok src f.
Proof.
  intros [_ Hcl] f. induction f as [|f IH]; intros v st P Hinv Hv Hfuel.
  - destruct v as [| | | | |l]; try done.
    apply value_ok_lt in Hv.
    destruct (st.1 !! l) as [l'|] eqn:Hm.
    + rewrite (clone_value_hit _ _ _ _ _ Hm). cbn [fst snd rename covered].
      by rewrite Hm.
    + pose proof (memo_size_lt _ _ _ _ Hinv Hv Hm). lia.
  - destruct v as [| | | | |l]; try done.
    apply value_ok_lt in Hv.
    destruct (st.1 !! l) as [l'|] eqn:Hm.
    { rewrite (clone_value_hit _ _ _ _ _ Hm). cbn [fst snd rename covered].
      by rewrite Hm. }
    destruct (lookup_lt_is_Some_2 src l Hv) as [o Ho].
    rewrite (clone_value_enter _ _ _ _ _ Hm Ho). cbv zeta.
    destruct st as [m hc]. cbn [fst snd] in *.
    pose proof (clone_enter_inv _ _ _ _ _ _ Hinv Hv Hm Ho) as Hinv1.
    assert (Hvals : Forall (λ v, value_ok (length src) v = true) (obj_values o)).
    { apply Forall_forall. apply obj_ok_values. by eapply Hcl. }
    assert (Hfuel1 : (length src ≤ f + size (<[l:=length hc]> m))%nat).
    { rewrite map_size_insert_None by done. lia. }
    destruct (clone_list_spec src f IH (obj_values o) _ _ Hinv1 Hvals Hfuel1)
      as (Hinv2 & Hsub2 & Hr2 & Hc2).
    destruct (clone_list f src (obj_values o) _) as [vs' [m2 hc2]].
    cbn [fst snd] in *. subst vs'.
    assert (Hm2 : m2 !! l = Some (length hc)).
    { eapply lookup_weaken; [|exact Hsub2]. by rewrite lookup_insert_eq. }
    assert (HlP : l ∉ P).
    { intros Hin. destruct (ci_entered _ _ _ Hinv _ Hin) as [x Hx].
      cbn [fst] in Hx. congruence. }
    split; [by eapply clone_leave_inv|]. split.
    + etrans; [|exact Hsub2]. by apply insert_subseteq.
    + cbn [rename covered]. by rewrite Hm2.
Qed.

Lemma zip_keys_values {A B} (g : A → B) (fs : list (string * A)) :
  zip (map fst fs) (map g (map snd fs)) = map (λ kv, (kv.1, g kv.2)) fs.
Proof. induction fs as [|[k a] fs IH]; simpl; [done|]. by rewrite IH. Qed.

Lemma obj_with_values_rename o g :
  obj_with_values o (map g (obj_values o))
  = match o with
    | Obj fs => Obj (map (λ kv, (kv.1, g kv.2)) fs)
    | Arr vs => Arr (map g vs)
    end.
Proof. destruct o as [fs|vs]; simpl; [|done]. by rewrite zip_keys_values. Qed.

Section Finished.

Context (src : heap) (m : gmap nat nat) (hc : heap).
Hypothesis Hcl : closed_below (length src) src.
Hypothesis Hinv : clone_inv src ∅ (m, hc).

Lemma finished_object l l' :
  m !! l = Some l' →
  ∃ o, src !! l = Some o
       ∧ hc !! l' = Some (obj_with_values o (map (rename m) (obj_values o)))
       ∧ Forall (covered m) (obj_values o)
       ∧ Forall (λ v, value_ok (length src) v = true) (obj_values o).
Proof.
  intros Hl. destruct (ci_shape _ _ _ Hinv _ _ Hl) as (o & Ho & _ & Hdone).
  destruct Hdone as [Hobj Hcov]; [set_solver|].
  destruct (ci_range _ _ _ Hinv _ _ Hl) as (Hlt & _).
  exists o. repeat split; try done.
  apply Forall_forall. apply obj_ok_values. by eapply (proj2 Hcl).
Qed.

Lemma unfold_rename n : ∀ v,
  value_ok (length src) v = true → covered m v →
  unfold n hc (rename m v) = unfold n src v.
Proof.
  induction n as [|n IH]; intros v Hv Hc.
  - destruct v as [| | | | |l]; try done. destruct Hc as [l' Hl'].
    destruct (finished_object _ _ Hl') as (o & Ho & Hobj & _).
    cbn [rename]. rewrite Hl'. cbn [unfold]. rewrite Hobj, Ho.
    by destruct o.
  - destruct v as [| | | | |l]; try done. destruct Hc as [l' Hl'].
    destruct (finished_object _ _ Hl') as (o & Ho & Hobj & Hcov & Hok).
    cbn [rename]. rewrite Hl'. cbn [unfold]. rewrite Hobj, Ho.
    rewrite obj_with_values_rename.
    destruct o as [fs|vs]; cbn [obj_values] in *; f_equal.
    + rewrite map_map. apply map_ext_in. intros [k v] Hin. cbn [fst snd].
      f_equal. apply list_elem_of_In in Hin.
      assert (Hv' : v ∈ map snd fs).
      { apply list_elem_of_fmap. by exists (k, v). }
      apply IH.
      * by apply (proj1 (Forall_forall _ _) Hok).
      * by apply (proj1 (Forall_forall _ _) Hcov).
    + rewrite map_map. apply map_ext_in. intros v Hin. apply list_elem_of_In in Hin.
      apply IH.
      * by apply (proj1 (Forall_forall _ _) Hok).
      * by apply (proj1 (Forall_forall _ _) Hcov).
Qed.

Lemma rename_fresh v :
  value_ok (length src) v = true → covered m v →
  value_ok (length hc) (rename m v) = true
  ∧ ∀ l', rename m v = VRef l' → (length src ≤ l')%nat.
Proof.
  intros Hv Hc. destruct v as [| | | | |l]; try done.
  destruct Hc as [l' Hl']. cbn [rename]. rewrite Hl'.
  destruct (ci_range _ _ _ Hinv _ _ Hl') as (? & ? & ?). cbn [snd] in *.
  split; [by apply value_ok_lt|]. intros ? [= <-]. done.
Qed.

(** Every object of the copy is well formed and refers to copies only. *)
Lemma finished_new_object l' o' :
  (length src ≤ l')%nat → hc !! l' = Some o' →
  obj_ok (length hc) o' = true
  ∧ ∀ v l, v ∈ obj_values o' → v = VRef l → (length src ≤ l)%nat.
Proof.
  intros Hge Hl'.
  destruct (ci_onto _ _ _ Hinv l' Hge) as [l Hl].
  { by apply lookup_lt_Some in Hl'. }
  destruct (finished_object _ _ Hl) as (o & Ho & Hobj & Hcov & Hok).
  rewrite Hobj in Hl'. injection Hl' as <-.
  rewrite obj_with_values_rename.
  assert (Hnew : ∀ v, v ∈ obj_values o →
            value_ok (length hc) (rename m v) = true
            ∧ ∀ l', rename m v = VRef l' → (length src ≤ l')%nat).
  { intros v Hv. apply rename_fresh.
    - by apply (proj1 (Forall_forall _ _) Hok).
    - by apply (proj1 (Forall_forall _ _) Hcov). }
  pose proof (proj2 Hcl l o ltac:(by apply lookup_lt_Some in Ho) Ho) as Hoo.
  destruct o as [fs|vs]; cbn [obj_values] in *.
  - split.
    + apply obj_ok_intro_obj.
      * intros k v Hin. apply list_elem_of_fmap in Hin as ([k0 v0] & [= -> ->] & Hin).
        apply Hnew. apply list_elem_of_fmap. by exists (k0, v0).
      * rewrite map_map. cbn [fst]. by eapply obj_ok_nodup.
    + intros v l0 Hin ->. rewrite map_map in Hin.
      apply list_elem_of_fmap in Hin as ([k0 v0] & Heq & Hin). cbn [fst snd] in Heq.
      apply (proj2 (Hnew v0 ltac:(apply list_elem_of_fmap; by exists (k0, v0)))).
      done.
  - split.
    + simpl. apply forallb_forall. intros v Hin.
      apply list_elem_of_In, list_elem_of_fmap in Hin as (v0 & -> & Hin).
      by apply Hnew.
    + intros v l0 Hin ->. apply list_elem_of_fmap in Hin as (v0 & Heq & Hin).
      by apply (proj2 (Hnew v0 Hin)).
Qed.

Lemma finished_heap_ok : heap_ok hc = true.
Proof.
  apply heap_ok_spec. intros l o Hl.
  destruct (decide (l < length src)%nat) as [Hlt|Hge].
  - rewrite (ci_prefix _ _ _ Hinv) in Hl by done.
    eapply obj_ok_mono; [apply (ci_len _ _ _ Hinv) | by eapply (proj2 Hcl)].
  - apply (finished_new_object l o); [lia | done].
Qed.

Lemma finished_reach n : ∀ v l,
  (∀ l', v = VRef l' → (length src ≤ l')%nat) →
  l ∈ reach n hc v → (length src ≤ l)%nat.
Proof.
  induction n as [|n IH]; intros v l Hv Hin.
  - destruct v as [| | | | |r]; try (by apply elem_of_nil in Hin).
    simpl in Hin. apply list_elem_of_singleton in Hin as ->. by apply Hv.
  - destruct v as [| | | | |r]; try (by apply elem_of_nil in Hin).
    simpl in Hin. apply elem_of_cons in Hin as [->|Hin]; [by apply Hv|].
    destruct (hc !! r) as [o|] eqn:Hr; [|by apply elem_of_nil in Hin].
    destruct (finished_new_object r o (Hv r eq_refl) Hr) as [_ Hnew].
    destruct o as [fs|vs].
    + apply list_elem_of_In, in_flat_map in Hin as ([k v] & Hkv & Hin).
      apply (IH v); [|by apply list_elem_of_In].
      intros l' ->. apply (Hnew (VRef l') l'); [|done].
      simpl. apply list_elem_of_fmap. exists (k, VRef l').
      split; [done | by apply list_elem_of_In].
    + apply list_elem_of_In, in_flat_map in Hin as (v & Hkv & Hin).
      apply (IH v); [|by apply list_elem_of_In].
      intros l' ->. apply (Hnew (VRef l') l'); [|done].
      by apply list_elem_of_In.
Qed.

End Finished.

Lemma clone_inv_initial h : clone_inv h ∅ (∅, h).
Proof.
  constructor; cbn [fst snd]; try done.
  - intros l' H1 H2. lia.
Qed.

(** The clone of a value of a well-formed store: the store stays well
    formed, the copy has the structure of the original at every depth, and
    everything reachable from the copy is new. *)
Theorem structuredClone_spec h v :
  heap_ok h = true → value_ok (length h) v = true →
  heap_ok (structuredClone v h).2 = true
  ∧ value_ok (length (structuredClone v h).2) (structuredClone v h).1 = true
  ∧ deep_equal (structuredClone v h).2 (structuredClone v h).1 h v
  ∧ (∀ l, (structuredClone v h).1 = VRef l → (length h ≤ l)%nat)
  ∧ (∀ n l, l ∈ reach n (structuredClone v h).2 (structuredClone v h).1 →
            (length h ≤ l)%nat).
Proof.
  intros Hok Hv. pose proof (heap_ok_closed _ Hok) as Hcl.
  unfold structuredClone.
  destruct (clone_value_spec h Hcl (length h) v (∅, h) ∅ (clone_inv_initial h) Hv
              ltac:(lia)) as (Hinv & _ & Hr & Hc).
  destruct (clone_value (length h) h v (∅, h)) as [v' [m hc]].
  cbn [fst snd] in *. subst v'.
  destruct (rename_fresh h m hc Hinv v Hv Hc) as [Hv' Hnew].
  split; [by eapply finished_heap_ok|]. split; [done|]. split; [|split].
  - intros n. by eapply unfold_rename.
  - exact Hnew.
  - intros n l. by eapply finished_reach.
Qed.

Theorem snapshot_object_spec l h :
  heap_ok h = true → (l < length h)%nat →
  heap_ok (snapshot_object l h).2 = true
  ∧ (length h ≤ (snapshot_object l h).1)%nat
  ∧ ((snapshot_object l h).1 < length (snapshot_object l h).2)%nat
  ∧ deep_equal (snapshot_object l h).2 (VRef (snapshot_object l h).1) h (VRef l)
  ∧ (∀ n l0, l0 ∈ reach n (snapshot_object l h).2 (VRef (snapshot_object l h).1) →
             (length h ≤ l0)%nat).
Proof.
  intros Hok Hl.
  destruct (structuredClone_spec h (VRef l) Hok ltac:(by apply value_ok_lt))
    as (Hok' & Hv' & Heq & Hnew & Hreach).
  unfold snapshot_object, snapshot.
  destruct (structuredClone (VRef l) h) as [v' h']. cbn [fst snd] in *.
  destruct v' as [| | | | |l'].
  1-5: specialize (Heq 0%nat); simpl in Heq;
       destruct (lookup_lt_is_Some_2 h l Hl) as [o Ho]; rewrite Ho in Heq; done.
  cbn [fst snd]. apply value_ok_lt in Hv'.
  split; [done|]. split; [by apply Hnew|]. done.
Qed.

End CloneSpec.

(** ** Well-formedness is kept by allocation and assignment *)

Section StoreOk.

Lemma elem_of_set_field fs k v k' v' :
  (k', v') ∈ set_field fs k v → (k', v') ∈ fs ∨ (k', v') = (k, v).
Proof.
  induction fs as [|[k0 v0] fs IH]; simpl.
  - intros H. apply list_elem_of_singleton in H. by right.
  - destruct (String.eqb k0 k) eqn:E.
    + apply eqb_string_true in E as ->. intros H.
      apply elem_of_cons in H as [->|H]; [by right | left; by right].
    + intros H. apply elem_of_cons in H as [->|H]; [left; left|].
      destruct (IH H) as [?|?]; [left; by right | by right].
Qed.

Lemma set_prop_heap_ok l k v h :
  heap_ok h = true → value_ok (length h) v = true →
  heap_ok (set_prop l k v h) = true.
Proof.
  intros Hok Hv. apply heap_ok_spec. intros l0 o0 Hl0.
  rewrite set_prop_length.
  pose proof (proj1 (heap_ok_spec h) Hok) as Hall.
  destruct (decide (l0 = l)) as [->|Hne].
  2:{ rewrite set_prop_lookup_ne in Hl0 by done. by eapply Hall. }
  unfold set_prop in Hl0. destruct (h !! l) as [[fs|vs]|] eqn:Hl.
  - rewrite list_lookup_insert_eq in Hl0 by by apply lookup_lt_Some in Hl.
    injection Hl0 as <-. pose proof (Hall _ _ Hl) as Hobj.
    apply obj_ok_intro_obj.
    + intros k' v' Hin. apply elem_of_set_field in Hin as [Hin|[= -> ->]]; [|done].
      apply (obj_ok_values _ _ Hobj). simpl. apply list_elem_of_fmap. by exists (k', v').
    + apply nodup_set_field. by eapply obj_ok_nodup.
  - destruct (index_of_key k) as [i|].
    + rewrite list_lookup_insert_eq in Hl0 by by apply lookup_lt_Some in Hl.
      injection Hl0 as <-. pose proof (Hall _ _ Hl) as Hobj. simpl in *.
      rewrite forallb_forall in Hobj. apply forallb_forall. intros x Hx.
      apply list_elem_of_In, list_elem_of_lookup in Hx as [j Hj].
      destruct (decide (i = j)) as [->|Hij].
      * rewrite list_lookup_insert_eq in Hj by by apply lookup_lt_Some in Hj; rewrite length_insert in Hj.
        congruence.
      * rewrite list_lookup_insert_ne in Hj by done.
        apply Hobj, list_elem_of_In. by eapply list_elem_of_lookup_2.
    + rewrite Hl in Hl0. injection Hl0 as <-. by eapply Hall.
  - congruence.
Qed.

Lemma alloc_heap_ok o h :
  heap_ok h = true → obj_ok (S (length h)) o = true →
  heap_ok (alloc o h).2 = true.
Proof.
  intros Hok Ho. apply heap_ok_spec. intros l o0 Hl.
  rewrite alloc_length. unfold alloc in Hl. cbn [snd] in Hl.
  apply lookup_app_Some in Hl as [Hl|[_ Hl]].
  - eapply obj_ok_mono; [|by eapply (proj1 (heap_ok_spec h))]. lia.
  - apply list_lookup_singleton_Some in Hl as [_ <-]. done.
Qed.

End StoreOk.

(** ** The event builder: finalize *)

Section FinalizeFacts.

Import Merge Event.

Lemma finalize_finalized outcome statusCode now b w :
  finalized (finalize outcome statusCode now b w).2.1 = true.
Proof.
  unfold finalize. destruct (finalized b) eqn:Hf.
  - by destruct (snapshot_object _ _).
  - by destruct (snapshot_object _ _).
Qed.

Lemma finalize_unfold outcome statusCode now b w :
  finalize outcome statusCode now b w
  = let h := finalize_store outcome statusCode now b (store w) in
    ((snapshot_object (event b) h).1,
     (BuilderState (event b) (startTime b) true (emitted b),
      with_store w (snapshot_object (event b) h).2)).
Proof.
  unfold finalize, finalize_store. destruct (finalized b) eqn:Hf.
  - destruct (snapshot_object _ _). destruct b; simpl in *. by subst.
  - cbv zeta. by destruct (snapshot_object _ _).
Qed.

Lemma finalize_store_ok outcome statusCode now b h :
  heap_ok h = true →
  heap_ok (finalize_store outcome statusCode now b h) = true
  ∧ length (finalize_store outcome statusCode now b h) = length h.
Proof.
  intros Hok. unfold finalize_store. destruct (finalized b); [done|].
  cbv zeta. destruct (negb _).
  - rewrite !set_prop_length. split; [|done].
    repeat (apply set_prop_heap_ok; [|done]). done.
  - rewrite !set_prop_length. split; [|done].
    repeat (apply set_prop_heap_ok; [|done]). done.
Qed.

(** C3: a second [finalize] returns a snapshot structurally equal to the
    one the first call returned, whatever the arguments of the two calls;
    it leaves the builder's state as the first call left it, writes to no
    object that existed after the first call (so [duration_ms],
    [status_code] and [outcome] of the record keep their values) and emits
    no diagnostic. *)
Theorem finalize_idempotent (o1 o2 : RequestOutcome) (c1 c2 n1 n2 : Z)
    (b : EventBuilderState) (w : world) :
  heap_ok (store w) = true → (event b < length (store w))%nat →
  let r1 := finalize o1 c1 n1 b w in
  let r2 := finalize o2 c2 n2 r1.2.1 r1.2.2 in
  deep_equal (store r2.2.2) (VRef r2.1) (store r1.2.2) (VRef r1.1)
  ∧ deep_equal (store r2.2.2) (VRef r2.1) (store r2.2.2) (VRef r1.1)
  ∧ r2.2.1 = r1.2.1
  ∧ (∀ l, (l < length (store r1.2.2))%nat →
          store r2.2.2 !! l = store r1.2.2 !! l)
  ∧ (∀ k, get_prop (store r2.2.2) (event r2.2.1) k
          = get_prop (store r1.2.2) (event r1.2.1) k)
  ∧ stderr r2.2.2 = stderr r1.2.2.
Proof.
  intros Hok He r1 r2. unfold r2, r1. clear r1 r2.
  rewrite (finalize_unfold o1 c1 n1 b w). cbv zeta. cbn [fst snd].
  rewrite finalize_unfold. cbv zeta. cbn [fst snd event startTime emitted store
    with_store stderr].
  unfold finalize_store at 1. cbn [finalized].
  destruct (finalize_store_ok o1 c1 n1 b (store w) Hok) as [Hok0 Hlen0].
  set (h0 := finalize_store o1 c1 n1 b (store w)) in *.
  assert (He0 : (event b < length h0)%nat) by lia.
  destruct (snapshot_object_spec (event b) h0 Hok0 He0)
    as (Hok1 & Hnew1 & Hlt1 & Heq1 & _).
  destruct (snapshot_object_frame (event b) h0) as [Hlen1 Hfr1].
  set (s1 := (snapshot_object (event b) h0).1) in *.
  set (h1 := (snapshot_object (event b) h0).2) in *.
  assert (He1 : (event b < length h1)%nat) by lia.
  destruct (snapshot_object_spec (event b) h1 Hok1 He1)
    as (Hok2 & Hnew2 & Hlt2 & Heq2 & _).
  destruct (snapshot_object_frame (event b) h1) as [Hlen2 Hfr2].
  set (s2 := (snapshot_object (event b) h1).1) in *.
  set (h2 := (snapshot_object (event b) h1).2) in *.
  assert (Hrec : ∀ n, unfold n h1 (VRef (event b)) = unfold n h0 (VRef (event b))).
  { intros n. apply (unfold_agree (length h0)); [by apply heap_ok_closed | done |].
    by apply value_ok_lt. }
  assert (Hs1 : ∀ n, unfold n h2 (VRef s1) = unfold n h1 (VRef s1)).
  { intros n. apply (unfold_agree (length h1)); [by apply heap_ok_closed | done |].
    by apply value_ok_lt. }
  assert (Hboth : ∀ n, unfold n h2 (VRef s2) = unfold n h1 (VRef s1)).
  { intros n. by rewrite (Heq2 n), Hrec, <- (Heq1 n). }
  split; [exact Hboth|]. split; [|split; [done|split; [done|split; [|done]]]].
  - intros n. by rewrite Hboth, Hs1.
  - intros k. apply get_prop_lookup_eq. by apply Hfr2.
Qed.

Lemma finalize_idempotent_witness :
  let w := World [Obj [("method", VStr "GET"); ("user", VRef 1)];
                  Obj [("id", VNum 7)]] [] in
  let b := BuilderState 0 100 false false in
  let r1 := finalize Success 200 130 b w in
  let r2 := finalize Error 500 990 r1.2.1 r1.2.2 in
  r2.2.1 = r1.2.1
  ∧ get_prop (store r2.2.2) 0 "outcome" = Data (VStr "success")
  ∧ get_prop (store r2.2.2) 0 "status_code" = Data (VNum 200)
  ∧ get_prop (store r2.2.2) 0 "duration_ms" = Data (VNum 30).
Proof.
  intros w b r1 r2.
  destruct (finalize_idempotent Success Error 200 500 130 990 b w)
    as (_ & _ & Hb & _ & Hk & _).
  - reflexivity.
  - simpl. lia.
  - split; [exact Hb|].
    split; [|split]; (etrans; [apply Hk|]); reflexivity.
Defined.

End FinalizeFacts.

(** ** [mergeDeep]: what it writes *)

Section MergeFrame.

Import Merge.

(** One turn of the loop is an assignment to [result[key]], of the source
    value or of the outcome of the recursive call. *)
Lemma merge_key_cases recurse s result h key :
  ((isPlainObject h (Data (get_own_or_undefined h s key))
    && isPlainObject h (get_prop h result key)) = false
   ∧ merge_key recurse s result h key
     = set_prop result key (get_own_or_undefined h s key) h)
  ∨ ∃ sl tl,
      get_own_or_undefined h s key = VRef sl
      ∧ get_prop h result key = Data (VRef tl)
      ∧ isPlainObject h (Data (VRef sl)) = true
      ∧ isPlainObject h (Data (VRef tl)) = true
      ∧ merge_key recurse s result h key
        = set_prop result key (VRef (recurse tl sl h).1) (recurse tl sl h).2.
Proof.
  unfold merge_key.
  destruct (isPlainObject h (Data (get_own_or_undefined h s key))) eqn:Hs;
    [|by left].
  destruct (isPlainObject h (get_prop h result key)) eqn:Ht; [|by left].
  cbn [andb].
  destruct (get_own_or_undefined h s key) as [| | | | |sl]; try done.
  destruct (get_prop h result key) as [[| | | | |tl]|]; try done.
  right. exists sl, tl. repeat split; try done.
  by destruct (recurse tl sl h).
Qed.

Lemma merge_loop_frame recurse s result :
  (∀ t' s', allocates_only (recurse t' s')) →
  ∀ ks hacc F,
    hacc !! result = Some (Obj F) → NoDup (map fst F) →
    (length hacc ≤ length (fold_left (merge_key recurse s result) ks hacc))%nat
    ∧ (∀ l, (l < length hacc)%nat → l ≠ result →
            fold_left (merge_key recurse s result) ks hacc !! l = hacc !! l)
    ∧ ∃ F', fold_left (merge_key recurse s result) ks hacc !! result = Some (Obj F')
            ∧ NoDup (map fst F')
            ∧ ∀ k, k ∉ ks → assoc k F' = assoc k F.
Proof.
  intros Hrec ks. induction ks as [|key ks IH]; intros hacc F Hres Hnd.
  - simpl. split; [done|]. split; [done|]. by exists F.
  - cbn [fold_left].
    assert (Hlt : (result < length hacc)%nat) by by apply lookup_lt_Some in Hres.
    assert (Hstep : ∃ v h',
               merge_key recurse s result hacc key = set_prop result key v h'
               ∧ (length hacc ≤ length h')%nat
               ∧ ∀ l, (l < length hacc)%nat → h' !! l = hacc !! l).
    { destruct (merge_key_cases recurse s result hacc key)
        as [[_ ->]|(sl & tl & _ & _ & _ & _ & ->)].
      - by eexists _, hacc.
      - destruct (Hrec tl sl hacc) as (_ & Hlen & Hfr).
        eexists _, _. split; [done|]. split; [lia | done]. }
    destruct Hstep as (v & h' & -> & Hlen & Hfr).
    assert (Hres' : h' !! result = Some (Obj F)) by by rewrite Hfr.
    destruct (IH (set_prop result key v h') (set_field F key v)
                (set_prop_lookup_obj _ _ _ _ _ Hres') (nodup_set_field _ _ _ Hnd))
      as (Hlen2 & Hfr2 & F' & HF' & Hnd' & Hk).
    rewrite set_prop_length in Hlen2, Hfr2.
    split; [lia|]. split; [|exists F'; split; [done|split; [done|]]].
    + intros l Hl Hne. rewrite Hfr2 by (done || lia).
      rewrite set_prop_lookup_ne by done. by apply Hfr.
    + intros k Hk'. apply not_elem_of_cons in Hk' as [Hne Hk'].
      rewrite Hk by done. by apply assoc_set_field_ne.
Qed.

Lemma mergeDeep_from_allocates remaining :
  ∀ t s, allocates_only (mergeDeep_from remaining t s).
Proof.
  induction remaining as [|remaining IH]; intros t s h.
  - cbn [mergeDeep_from]. rewrite alloc_length. split; [done|]. split; [lia|].
    intros l Hl. by apply alloc_lookup_old.
  - cbn [mergeDeep_from]. unfold alloc. cbn [fst snd].
    set (F := spread (own_fields h t) []).
    destruct (merge_loop_frame (mergeDeep_from remaining) s (length h) IH
                (keys h s) (h ++ [Obj F]) F)
      as (Hlen & Hfr & _).
    { by apply list_lookup_middle. }
    { apply nodup_spread. constructor. }
    rewrite length_app in Hlen, Hfr. simpl in Hlen, Hfr.
    split; [done|]. split; [lia|].
    intros l Hl. rewrite Hfr by lia. by apply lookup_app_l.
Qed.

(** The merged object keeps, for every key the source does not have, what
    the target had; its keys are distinct. *)
Lemma mergeDeep_from_keeps remaining t s h :
  ∃ F', (mergeDeep_from remaining t s h).2 !! (mergeDeep_from remaining t s h).1
        = Some (Obj F')
        ∧ NoDup (map fst F')
        ∧ ∀ k, k ∉ keys h s → assoc k F' = assoc k (spread (own_fields h t) []).
Proof.
  destruct remaining as [|remaining].
  - cbn [mergeDeep_from]. eexists. split; [apply alloc_lookup_new|]. split.
    + apply nodup_spread, nodup_spread. constructor.
    + intros k Hk. by apply assoc_spread_absent.
  - cbn [mergeDeep_from]. unfold alloc. cbn [fst snd].
    set (F := spread (own_fields h t) []).
    destruct (merge_loop_frame (mergeDeep_from remaining) s (length h)
                (mergeDeep_from_allocates remaining)
                (keys h s) (h ++ [Obj F]) F)
      as (_ & _ & F' & HF' & Hnd & Hk).
    { by apply list_lookup_middle. }
    { apply nodup_spread. constructor. }
    exists F'. split; [done|]. split; [done|].
    done.
Qed.

End MergeFrame.

(** ** The event builder: the outcome written by [finalize] *)

Section OutcomeFacts.

Import Merge Event.

Lemma get_prop_absent h l fs k :
  h !! l = Some (Obj fs) → assoc k fs = None → assoc k object_prototype = None →
  get_prop h l k = Data VUndefined.
Proof.
  intros Hl Hk Hp. unfold get_prop, get_own, inherited. by rewrite Hl, Hk, Hp.
Qed.

Lemma get_prop_present h l fs k v :
  h !! l = Some (Obj fs) → assoc k fs = Some v → get_prop h l k = Data v.
Proof. intros Hl Hk. apply get_prop_own. unfold get_own. by rewrite Hl. Qed.

(** The outcome in the record after [finalize], in terms of the record
    before it. *)
Lemma finalize_outcome outcome statusCode now b w fs :
  finalized b = false → store w !! event b = Some (Obj fs) →
  get_prop (store (finalize outcome statusCode now b w).2.2) (event b) "outcome"
  = if truthy (get_prop (store w) (event b) "outcome")
    then get_prop (store w) (event b) "outcome"
    else Data (VStr (outcome_name
           match outcome with
           | Aborted => Aborted
           | _ => if truthy (get_prop (store w) (event b) "error")
                     || (500 <=? statusCode)%Z
                  then Error else outcome
           end)).
Proof.
  intros Hf He. rewrite finalize_unfold. cbv zeta. cbn [fst snd store with_store].
  rewrite (get_prop_lookup_eq (finalize_store outcome statusCode now b (store w))).
  2:{ apply snapshot_object_frame. unfold finalize_store. rewrite Hf. cbv zeta.
      destruct (negb _); rewrite !set_prop_length; by apply lookup_lt_Some in He. }
  unfold finalize_store. rewrite Hf. cbv zeta.
  set (h1 := set_prop (event b) "duration_ms" _ (store w)).
  set (h2 := set_prop (event b) "status_code" _ h1).
  assert (H1 : h1 !! event b = Some (Obj (set_field fs "duration_ms"
                 (VNum (Time.durationMs (startTime b) now)))))
    by by apply set_prop_lookup_obj.
  assert (H2 : ∃ fs2, h2 !! event b = Some (Obj fs2))
    by (eexists; by apply set_prop_lookup_obj).
  destruct H2 as [fs2 H2].
  assert (Hsame : ∀ k, k ≠ "duration_ms" → k ≠ "status_code" →
            get_prop h2 (event b) k = get_prop (store w) (event b) k).
  { intros k Hk1 Hk2. unfold h2.
    erewrite get_prop_set_prop_ne by (done || congruence).
    unfold h1. erewrite get_prop_set_prop_ne by (done || congruence). done. }
  rewrite !Hsame by done.
  unfold resolve_outcome. rewrite !Hsame by done.
  destruct (truthy (get_prop (store w) (event b) "outcome")); cbn [negb].
  - by apply Hsame.
  - by erewrite get_prop_set_prop_eq.
Qed.

Lemma createEventBuilder_record_state initialData start w :
  "outcome" ∉ keys (store w) initialData →
  "error" ∉ keys (store w) initialData →
  record_state false (createEventBuilder initialData start w).1
    (store (createEventBuilder initialData start w).2).
Proof.
  intros Ho He. unfold createEventBuilder, alloc. cbn [fst snd event store with_store].
  split; [done|]. eexists. split; [by apply list_lookup_middle|].
  split; [apply nodup_spread; constructor|].
  by rewrite !assoc_spread_absent.
Qed.

Lemma run_call_record_state c b w marked :
  record_state marked b (store w) →
  writes_key (store w) c "outcome" = false →
  writes_key (store w) c "error" = false →
  record_state (marked || marks_error c) (run_call c b w).1
    (store (run_call c b w).2).
Proof.
  intros (Hf & fs & He & Hnd & Hm) Hwo Hwe.
  destruct c as [o|path v|err]; cbn [run_call marks_error writes_key] in *.
  - rewrite orb_false_r. unfold enrich. rewrite Hf.
    apply bool_decide_eq_false in Hwo, Hwe.
    unfold mergeDeep, mergeDeep_at.
    destruct (mergeDeep_from_keeps (MAX_MERGE_DEPTH - 0) (event b) o (store w))
      as (F' & HF' & Hnd' & Hk).
    destruct (mergeDeep_from _ _ _ _) as [e' h']. cbn [fst snd event store with_store] in *.
    split; [done|]. exists F'. split; [done|]. split; [done|].
    rewrite !Hk by done. unfold own_fields. rewrite He.
    by rewrite spread_nil_nodup.
  - rewrite orb_false_r. unfold set. rewrite Hf.
    apply bool_decide_eq_false in Hwo, Hwe.
    destruct (setPath_spec (event b) path v (store w))
      as (_ & _ & _ & (F' & HF' & Hnd' & Hk) & _).
    destruct (setPath _ _ _ _) as [e' h']. cbn [fst snd event store with_store] in *.
    split; [done|]. exists F'. split; [done|]. split; [done|].
    rewrite !Hk by done. unfold own_fields. rewrite He.
    by rewrite spread_nil_nodup.
  - rewrite orb_true_r. unfold markError. rewrite Hf.
    unfold alloc. cbn [fst snd store with_store].
    set (ce := length (store w)).
    set (h1 := store w ++ [Obj (normalizeError (store w) err)]).
    assert (He1 : h1 !! event b = Some (Obj fs)).
    { unfold h1. rewrite lookup_app_l; [done | by apply lookup_lt_Some in He]. }
    set (h2 := set_prop (event b) "error" (VRef ce) h1).
    assert (He2 : h2 !! event b = Some (Obj (set_field fs "error" (VRef ce))))
      by by apply set_prop_lookup_obj.
    assert (Hnot : is_string (get_prop h2 (event b) "outcome") "aborted" = false).
    { destruct marked.
      - destruct Hm as [Ho _].
        erewrite get_prop_present; [|exact He2|].
        2:{ rewrite assoc_set_field_ne by done. exact Ho. }
        done.
      - destruct Hm as [Ho _].
        erewrite get_prop_absent; [done|exact He2| |done].
        by rewrite assoc_set_field_ne. }
    rewrite Hnot. cbn [negb].
    split; [done|]. eexists. split; [by apply set_prop_lookup_obj|].
    split; [by do 2 apply nodup_set_field|]. split.
    + apply assoc_set_field_eq.
    + exists ce. rewrite assoc_set_field_ne by done. apply assoc_set_field_eq.
Qed.

Lemma run_calls_record_state cs : ∀ b w marked,
  record_state marked b (store w) →
  reserved_untouched cs b w = true →
  record_state (marked || existsb marks_error cs) (run_calls cs b w).1
    (store (run_calls cs b w).2).
Proof.
  induction cs as [|c cs IH]; intros b w marked Hst Hres.
  - simpl. by rewrite orb_false_r.
  - cbn [reserved_untouched run_calls existsb] in *.
    apply andb_true_iff in Hres as [Hres Hrest].
    apply andb_true_iff in Hres as [Ho He].
    apply negb_true_iff in Ho, He.
    pose proof (run_call_record_state c b w marked Hst Ho He) as Hst'.
    destruct (run_call c b w) as [b' w']. cbn [fst snd] in *.
    rewrite orb_assoc. by apply IH.
Qed.

(** The outcome [finalize] leaves in a record in one of the two states. *)
Lemma finalize_record_state marked outcome statusCode now b w :
  record_state marked b (store w) →
  get_prop (store (finalize outcome statusCode now b w).2.2) (event b) "outcome"
  = Data (VStr (outcome_name (policy_outcome marked outcome statusCode))).
Proof.
  intros (Hf & fs & He & Hnd & Hm).
  rewrite (finalize_outcome _ _ _ _ _ _ Hf He). unfold policy_outcome.
  destruct marked.
  - destruct Hm as [Ho _]. rewrite (get_prop_present _ _ _ _ _ He Ho). done.
  - destruct Hm as [Ho Herr].
    rewrite (get_prop_absent _ _ _ _ He Ho eq_refl).
    rewrite (get_prop_absent _ _ _ _ He Herr eq_refl). cbn [truthy orb].
    by destruct outcome.
Qed.




End OutcomeFacts.

(** ** Redaction works on a copy *)

Section RedactionFrame.

Import Merge Redact.

Lemma redact_path_frame schema g st path :
  (length st.2 ≤ length (redact_path schema g st path).2)%nat
  ∧ ∀ l, (l < length st.2)%nat → (redact_path schema g st path).2 !! l = st.2 !! l.
Proof.
  destruct st as [result h]. unfold redact_path. cbn [fst snd].
  destruct (negb _); [|done].
  destruct (setPath_spec result path
              (redactValue h (getPath h result path) (field_strategy schema path g)) h)
    as (_ & Hlen & Hfr & _).
  split; [lia | done].
Qed.

Lemma redact_paths_frame schema g paths : ∀ st,
  (length st.2 ≤ length (fold_left (redact_path schema g) paths st).2)%nat
  ∧ ∀ l, (l < length st.2)%nat →
         (fold_left (redact_path schema g) paths st).2 !! l = st.2 !! l.
Proof.
  induction paths as [|path paths IH]; intros st; [done|].
  cbn [fold_left].
  destruct (redact_path_frame schema g st path) as [Hlen1 Hfr1].
  destruct (IH (redact_path schema g st path)) as [Hlen2 Hfr2].
  split; [lia|]. intros l Hl. rewrite Hfr2 by lia. by apply Hfr1.
Qed.

Lemma applyRedaction_frame event config schema h :
  (length h ≤ length (applyRedaction event config schema h).2)%nat
  ∧ ∀ l, (l < length h)%nat →
         (applyRedaction event config schema h).2 !! l = h !! l.
Proof.
  unfold applyRedaction.
  destruct (snapshot_object_frame event h) as [Hlen Hfr].
  destruct (snapshot_object event h) as [redacted h1]. cbn [fst snd] in *.
  destruct config as [c|]; [|done].
  destruct (negb (enabled c)); [done|]. cbv zeta.
  destruct (redact_paths_frame schema (default Mask (strategy c))
              (if (0 <? length (redact_fields c))%nat then redact_fields c
               else DEFAULT_SENSITIVE_FIELDS) (redacted, h1)) as [Hlen2 Hfr2].
  cbn [fst snd] in *. split; [lia|].
  intros l Hl. rewrite Hfr2 by lia. by apply Hfr.
Qed.

(** C4: [applyRedaction] writes to no object that existed before the call,
    so the input snapshot has the same structure afterwards at every depth,
    whatever paths the configuration targets; without a configuration, or
    with a disabled one, the result is structurally equal to the input and
    shares no object with it. *)
Theorem applyRedaction_copy_only (event : loc) (config : option RedactionConfig)
    (schema : option CanonSchema) (h : heap) :
  heap_ok h = true → (event < length h)%nat →
  let r := applyRedaction event config schema h in
  (∀ l, (l < length h)%nat → r.2 !! l = h !! l)
  ∧ deep_equal r.2 (VRef event) h (VRef event)
  ∧ (config = None ∨ (∃ c, config = Some c ∧ enabled c = false) →
     deep_equal r.2 (VRef r.1) h (VRef event)
     ∧ ∀ n l, l ∈ reach n r.2 (VRef r.1) →
              (length h ≤ l)%nat ∧ ∀ n', l ∉ reach n' r.2 (VRef event)).
Proof.
  intros Hok He r.
  destruct (applyRedaction_frame event config schema h) as [Hlen Hfr].
  fold r in Hlen, Hfr.
  assert (Hin : deep_equal r.2 (VRef event) h (VRef event)).
  { intros n. apply (unfold_agree (length h)); [by apply heap_ok_closed | done |].
    by apply value_ok_lt. }
  split; [done|]. split; [done|].
  intros Hoff.
  assert (Hr : r = snapshot_object event h).
  { unfold r, applyRedaction. destruct (snapshot_object event h) as [redacted h1].
    destruct Hoff as [->|(c & -> & Hc)]; [done|]. by rewrite Hc. }
  rewrite Hr.
  destruct (snapshot_object_spec event h Hok He) as (_ & _ & _ & Heq & Hnew).
  split; [done|]. intros n l Hl. split; [by eapply Hnew|].
  intros n' Hl'.
  assert (l < length h)%nat; [|specialize (Hnew n l Hl); lia].
  eapply (reach_closed (length h) (snapshot_object event h).2).
  - eapply closed_below_agree; [by apply heap_ok_closed | |].
    + apply snapshot_object_frame.
    + apply snapshot_object_frame.
  - by apply value_ok_lt.
  - exact Hl'.
Qed.

Lemma applyRedaction_copy_only_witness :
  let h := [Obj [("user", VRef 1); ("status_code", VNum 200)];
            Obj [("email", VStr "john@example.com")]] in
  let cfg := {| enabled := true; strategy := Some Mask;
                redact_fields := ["user.email"] |} in
  let r := applyRedaction 0 (Some cfg) None h in
  (∀ l, (l < length h)%nat → r.2 !! l = h !! l)
  ∧ getPath r.2 0 "user.email" = Data (VStr "john@example.com")
  ∧ getPath r.2 r.1 "user.email" = Data (VStr "j***@e******.com").
Proof.
  intros h cfg r.
  destruct (applyRedaction_copy_only 0 (Some cfg) None h) as (Hfr & _ & _).
  - reflexivity.
  - simpl. lia.
  - split; [exact Hfr|]. split; reflexivity.
Defined.

End RedactionFrame.

(** ** [mergeDeep] against its contract *)

Section SpreadFacts.

Import Merge.

(** Overwriting the fields [tf] with the fields [sf], key by key: the keys
    of [tf] stay where they are with the value [sf] gives them, if any; the
    keys only [sf] has follow. *)
Lemma set_field_present (tf : list (string * value)) k v :
  NoDup (map fst tf) → k ∈ map fst tf →
  set_field tf k v = map (λ kv, if String.eqb kv.1 k then (kv.1, v) else kv) tf.
Proof.
  induction tf as [|[k0 v0] tf IH]; simpl; intros Hnd Hin.
  - by apply elem_of_nil in Hin.
  - apply NoDup_cons in Hnd as [Hk0 Hnd].
    destruct (String.eqb k0 k) eqn:E.
    + apply eqb_string_true in E as ->. f_equal.
      symmetry. erewrite map_ext_in; [apply map_id|].
      intros [k1 v1] Hin1. simpl. destruct (String.eqb k1 k) eqn:E1; [|done].
      apply eqb_string_true in E1 as ->. destruct Hk0.
      apply list_elem_of_fmap. exists (k, v1). split; [done | by apply list_elem_of_In].
    + f_equal. apply IH; [done|].
      apply elem_of_cons in Hin as [->|Hin]; [|done].
      by rewrite String.eqb_refl in E.
Qed.

Lemma spread_declarative (sf : list (string * value)) : ∀ tf,
  NoDup (map fst tf) → NoDup (map fst sf) →
  spread sf tf
  = map (λ kv, (kv.1, default kv.2 (assoc kv.1 sf))) tf ++ only_in_source tf sf.
Proof.
  unfold spread, only_in_source.
  induction sf as [|[k sv] sf IH]; intros tf Hnt Hns; cbn [fold_left List.filter].
  - rewrite app_nil_r. symmetry. erewrite map_ext; [apply map_id|]. by intros [].
  - apply NoDup_cons in Hns as [Hk Hns]. cbn [fst snd].
    rewrite IH by (done || by apply nodup_set_field).
    destruct (decide (k ∈ map fst tf)) as [Hin|Hnin].
    + rewrite bool_decide_eq_true_2 by done. cbn [negb].
      rewrite keys_set_field_in by done. f_equal.
      rewrite set_field_present by done. rewrite map_map.
      apply map_ext. intros [k1 v1]. cbn [fst snd assoc].
      rewrite (String.eqb_sym k k1).
      destruct (String.eqb k1 k) eqn:E; cbn [fst snd]; [|done].
      apply eqb_string_true in E as ->.
      by rewrite (proj2 (assoc_None_keys k sf) Hk).
    + rewrite bool_decide_eq_false_2 by done. cbn [negb].
      rewrite set_field_fresh by done. rewrite map_app, <- app_assoc.
      cbn [map app fst snd]. f_equal.
      * apply map_ext_in. intros [k1 v1] Hin1. cbn [fst snd assoc].
        destruct (String.eqb k k1) eqn:E; [|done].
        apply eqb_string_true in E as ->. destruct Hnin.
        apply list_elem_of_fmap. exists (k1, v1). split; [done | by apply list_elem_of_In].
      * rewrite (proj2 (assoc_None_keys k sf) Hk). cbn [default]. f_equal.
        apply filter_ext_in. intros [k1 v1] Hin1. cbn [fst]. f_equal.
        apply bool_decide_ext. rewrite map_app, elem_of_app. cbn [map fst].
        split; [|by left]. intros [?|Hk1]; [done|].
        apply list_elem_of_singleton in Hk1 as ->. destruct Hk.
        apply list_elem_of_fmap. exists (k, v1). split; [done | by apply list_elem_of_In].
Qed.

End SpreadFacts.

Section MergeRefinement.

Import Merge.

(** The store [h0] in which the two maps to merge live. *)
Context (h0 : heap) (Hcl : closed_below (length h0) h0).

Lemma merge_as_specified_obj remaining tf sf :
  merge_as_specified remaining (TObj tf) (TObj sf)
  = TObj (map (λ kv, (kv.1, match assoc kv.1 sf with
                            | Some sv => tree_combine remaining kv.2 sv
                            | None => kv.2
                            end)) tf
          ++ only_in_source tf sf).
Proof. destruct remaining; reflexivity. Qed.

Lemma assoc_map_value {A B} (g : A → B) k (fs : list (string * A)) :
  assoc k (map (λ kv, (kv.1, g kv.2)) fs) = g <$> assoc k fs.
Proof.
  induction fs as [|[k0 a] fs IH]; simpl; [done|].
  destruct (String.eqb k0 k); [done | exact IH].
Qed.

Lemma good_values_keys remaining result hf tf sf sf' :
  Forall2 (good_value h0 remaining result hf tf) sf sf' → map fst sf' = map fst sf.
Proof.
  induction 1 as [|ks kx sf sf' [Hk _] _ IH]; simpl; [done|]. by rewrite Hk, IH.
Qed.

Lemma good_values_assoc remaining result hf tf sf sf' k sv :
  Forall2 (good_value h0 remaining result hf tf) sf sf' →
  assoc k sf = Some sv →
  ∃ x, assoc k sf' = Some x ∧ good_value h0 remaining result hf tf (k, sv) (k, x).
Proof.
  induction 1 as [|[k1 sv1] [k2 x2] sf sf' Hg _ IH]; simpl; [done|].
  destruct Hg as [Hk Hg]. cbn [fst snd] in *. subst k2.
  destruct (String.eqb k1 k) eqn:E; [|exact IH].
  apply eqb_string_true in E as ->. intros [= ->]. exists x2. by split.
Qed.

Lemma unfold_base h'' result hf n v :
  agree_region h0 result hf h'' → (∀ l, (l < length h0)%nat → hf !! l = h0 !! l) →
  value_ok (length h0) v = true → unfold n h'' v = unfold n h0 v.
Proof.
  intros Hag Hf Hv. apply (unfold_agree (length h0)); [done | | done].
  intros l Hl. rewrite Hag by by left. by apply Hf.
Qed.

Lemma fields_refine remaining result hf tf sf sf' h'' n :
  NoDup (map fst tf) → NoDup (map fst sf) →
  (∀ k v, (k, v) ∈ tf → value_ok (length h0) v = true) →
  (∀ l, (l < length h0)%nat → hf !! l = h0 !! l) →
  Forall2 (good_value h0 remaining result hf tf) sf sf' →
  agree_region h0 result hf h'' →
  TObj (map (unfold_field h'' n) (spread sf' tf))
  = merge_as_specified remaining (TObj (map (unfold_field h0 n) tf))
      (TObj (map (unfold_field h0 n) sf)).
Proof.
  intros Hnt Hns Htf Hf Hgood Hag.
  rewrite merge_as_specified_obj. f_equal.
  rewrite spread_declarative
    by (done || by rewrite (good_values_keys _ _ _ _ _ _ Hgood)).
  rewrite map_app. f_equal.
  - rewrite !map_map. apply map_ext_in. intros [k v] Hin.
    apply list_elem_of_In in Hin. unfold unfold_field at 1 3. cbn [fst snd]. f_equal.
    unfold unfold_field. rewrite assoc_map_value.
    destruct (assoc k sf) as [sv|] eqn:Hsv; cbn [fmap option_fmap option_map].
    + destruct (good_values_assoc _ _ _ _ _ _ _ _ Hgood Hsv) as (x & Hx & _ & Hg).
      rewrite Hx. cbn [default from_option id fst snd] in *. rewrite (Hg h'' Hag n).
      by rewrite (assoc_elem_nodup _ _ _ Hnt Hin).
    + assert (assoc k sf' = None) as ->.
      { apply assoc_None_keys. rewrite (good_values_keys _ _ _ _ _ _ Hgood).
        by apply assoc_None_keys. }
      cbn [default from_option]. eapply unfold_base; eauto.
  - unfold only_in_source.
    induction Hgood as [|[k1 sv1] [k2 x2] sf1 sf1' [Hk Hg] _ IH];
      cbn [map List.filter]; [done|].
    cbn [fst snd] in *. subst k2.
    unfold unfold_field at 2. cbn [fst snd].
    replace (map fst (map (unfold_field h0 n) tf)) with (map fst tf)
      by (rewrite map_map; by apply map_ext).
    apply NoDup_cons in Hns as [_ Hns].
    destruct (bool_decide (k1 ∈ map fst tf)) eqn:Hd; cbn [negb].
    + rewrite IH by done.
      replace (map fst (map (unfold_field h0 n) tf)) with (map fst tf)
        by (rewrite map_map; by apply map_ext). done.
    + cbn [map]. rewrite IH by done.
      replace (map fst (map (unfold_field h0 n) tf)) with (map fst tf)
        by (rewrite map_map; by apply map_ext).
      f_equal. unfold unfold_field at 1. cbn [fst snd]. f_equal.
      rewrite (Hg h'' Hag n).
      apply bool_decide_eq_false in Hd. apply assoc_None_keys in Hd.
      by rewrite Hd.
Qed.

Lemma tree_is_plain_unfold n h v :
  tree_is_plain (unfold n h v) = isPlainObject h (Data v).
Proof.
  destruct v as [| | | | |l]; try by destruct n.
  unfold isPlainObject. destruct n; simpl; by destruct (h !! l) as [[?|?]|].
Qed.

Lemma isPlainObject_agree h v :
  (∀ l, (l < length h0)%nat → h !! l = h0 !! l) →
  value_ok (length h0) v = true →
  isPlainObject h (Data v) = isPlainObject h0 (Data v).
Proof.
  intros Hag Hv. destruct v as [| | | | |l]; try done.
  apply value_ok_lt in Hv. unfold isPlainObject. by rewrite Hag.
Qed.

Lemma get_prop_data_ref h l k r :
  get_prop h l k = Data (VRef r) → get_own h l k = Some (VRef r).
Proof.
  unfold get_prop. destruct (get_own h l k) as [v|]; [congruence|].
  by destruct (inherited h l k).
Qed.

Lemma base_object_ok l fs :
  h0 !! l = Some (Obj fs) →
  NoDup (map fst fs) ∧ ∀ k v, assoc k fs = Some v → value_ok (length h0) v = true.
Proof.
  intros Hl. pose proof (proj2 Hcl l _ ltac:(by apply lookup_lt_Some in Hl) Hl) as Hok.
  split; [by eapply obj_ok_nodup|].
  intros k v Hk. apply (obj_ok_values _ _ Hok). simpl.
  apply list_elem_of_fmap. exists (k, v). split; [done | by apply assoc_Some_elem].
Qed.

Lemma merge_loop_refines remaining s result tf sf :
  merge_refines h0 remaining →
  h0 !! s = Some (Obj sf) → (length h0 ≤ result)%nat →
  (∀ k v, assoc k tf = Some v → value_ok (length h0) v = true) →
  ∀ sf2 hacc F,
    (∀ l, (l < length h0)%nat → hacc !! l = h0 !! l) →
    hacc !! result = Some (Obj F) →
    (∀ k sv, (k, sv) ∈ sf2 → assoc k sf = Some sv) →
    NoDup (map fst sf2) →
    (∀ k, k ∈ map fst sf2 → assoc k F = assoc k tf) →
    ∃ sf2',
      fold_left (merge_key (mergeDeep_from remaining) s result) (map fst sf2) hacc
        !! result = Some (Obj (spread sf2' F))
      ∧ Forall2 (good_value h0 (S remaining) result
                   (fold_left (merge_key (mergeDeep_from remaining) s result)
                      (map fst sf2) hacc) tf) sf2 sf2'
      ∧ (length hacc ≤ length (fold_left (merge_key (mergeDeep_from remaining) s result)
                                 (map fst sf2) hacc))%nat
      ∧ ∀ l, (l < length hacc)%nat → l ≠ result →
             fold_left (merge_key (mergeDeep_from remaining) s result)
               (map fst sf2) hacc !! l = hacc !! l.
Proof.
  intros IHr Hs Hres Htf.
  destruct (base_object_ok _ _ Hs) as [_ Hsf].
  induction sf2 as [|[k sv] sf2 IH]; intros hacc F Hag HF Hin Hnd Hkeys.
  - exists []. cbn [map fold_left]. split; [done|]. split; [constructor|]. done.
  - cbn [map fold_left fst].
    apply NoDup_cons in Hnd as [Hk Hnd]. cbn [map fst] in Hk.
    assert (Hlt : (result < length hacc)%nat) by by apply lookup_lt_Some in HF.
    assert (Hsv : assoc k sf = Some sv) by (apply Hin; left).
    assert (Hsvok : value_ok (length h0) sv = true) by by eapply Hsf.
    assert (Hsrc : get_own_or_undefined hacc s k = sv).
    { unfold get_own_or_undefined, get_own.
      rewrite Hag by by apply lookup_lt_Some in Hs. by rewrite Hs, Hsv. }
    assert (HkF : assoc k F = assoc k tf) by (apply Hkeys; left).
    (* the assignment made by this turn *)
    assert (Hstep : ∃ x h',
      merge_key (mergeDeep_from remaining) s result hacc k = set_prop result k x h'
      ∧ (length hacc ≤ length h')%nat
      ∧ (∀ l, (l < length hacc)%nat → h' !! l = hacc !! l)
      ∧ ∀ hf, (length h' ≤ length hf)%nat →
              (∀ l, (l < length h')%nat → l ≠ result → hf !! l = h' !! l) →
              good_value h0 (S remaining) result hf tf (k, sv) (k, x)).
    { destruct (merge_key_cases (mergeDeep_from remaining) s result hacc k)
        as [[Htest ->]|(sl & tl & Hsl & Htl & Hpsl & Hptl & ->)].
      - rewrite Hsrc in *. exists sv, hacc. split; [done|]. split; [done|].
        split; [done|]. intros hf Hlen Hfr. split; [done|].
        intros h'' Hag'' n. cbn [fst snd].
        assert (Hbase : ∀ l, (l < length h0)%nat → hf !! l = h0 !! l).
        { intros l Hl. rewrite Hfr by lia. by apply Hag. }
        rewrite (unfold_base h'' result hf n sv) by done.
        destruct (assoc k tf) as [tv|] eqn:Htv; [|done].
        unfold tree_combine. rewrite !tree_is_plain_unfold.
        rewrite <- (isPlainObject_agree hacc sv) by done.
        rewrite <- (isPlainObject_agree hacc tv) by (done || by eapply Htf).
        replace (Data tv) with (get_prop hacc result k); [by rewrite Htest|].
        apply get_prop_own. unfold get_own. by rewrite HF, HkF.
      - rewrite Hsrc in Hsl. clear Hsrc. subst sv.
        apply get_prop_data_ref in Htl. unfold get_own in Htl.
        rewrite HF, HkF in Htl.
        pose proof (Htf _ _ Htl) as Htlok.
        apply value_ok_lt in Hsvok, Htlok.
        assert (∃ slf, h0 !! sl = Some (Obj slf)) as [slf Hslf].
        { unfold isPlainObject in Hpsl. rewrite Hag in Hpsl by done.
          destruct (h0 !! sl) as [[slf|?]|]; try done. by exists slf. }
        assert (∃ tlf, h0 !! tl = Some (Obj tlf)) as [tlf Htlf].
        { unfold isPlainObject in Hptl. rewrite Hag in Hptl by done.
          destruct (h0 !! tl) as [[tlf|?]|]; try done. by exists tlf. }
        destruct (mergeDeep_from_allocates remaining tl sl hacc) as (Hm & Hlen & Hfr).
        pose proof (IHr tl sl hacc tlf slf Hag ltac:(lia) Htlf Hslf) as Href.
        destruct (mergeDeep_from remaining tl sl hacc) as [m h'] eqn:Hcall.
        cbn [fst snd] in *. subst m.
        exists (VRef (length hacc)), h'. split; [done|]. split; [lia|].
        split; [done|]. intros hf Hlenf Hfrf. split; [done|].
        intros h'' Hag'' n. cbn [fst snd]. rewrite Htl.
        unfold tree_combine. rewrite !tree_is_plain_unfold.
        unfold isPlainObject. rewrite Hslf, Htlf. cbn [andb].
        apply Href. intros l Hl. rewrite Hag''.
        + apply Hfrf; lia.
        + destruct Hl as [Hl|Hl]; [by left | right; lia]. }
    destruct Hstep as (x & h' & -> & Hlen & Hfr & Hgood).
    assert (HF' : h' !! result = Some (Obj F)) by by rewrite Hfr.
    destruct (IH (set_prop result k x h') (set_field F k x)) as (sf2' & Hobj & Hall & Hlen2 & Hfr2).
    + intros l Hl. rewrite set_prop_lookup_ne by lia. rewrite Hfr by lia. by apply Hag.
    + by apply set_prop_lookup_obj.
    + intros k2 sv2 Hin2. apply Hin. by right.
    + done.
    + intros k2 Hk2. rewrite assoc_set_field_ne.
      * apply Hkeys. by right.
      * intros ->. done.
    + rewrite set_prop_length in Hlen2, Hfr2.
      exists ((k, x) :: sf2'). split; [exact Hobj|]. split; [|split].
      * constructor; [|done]. apply Hgood; [lia|].
        intros l Hl Hne. rewrite Hfr2 by done. by apply set_prop_lookup_ne.
      * lia.
      * intros l Hl Hne. rewrite Hfr2 by (done || lia).
        rewrite set_prop_lookup_ne by done. by apply Hfr.
Qed.

Lemma merge_refines_all remaining : merge_refines h0 remaining.
Proof.
  induction remaining as [|remaining IHr];
    intros t s h tf sf Hag Hlen Ht Hs h'' Hag'' n.
  - (* the depth bound is reached: flat overwrite *)
    destruct (base_object_ok _ _ Ht) as [Hnt Htf].
    destruct (base_object_ok _ _ Hs) as [Hns Hsf].
    revert Hag''. cbn [mergeDeep_from]. unfold alloc, own_fields. cbn [fst snd].
    rewrite !Hag by by eapply lookup_lt_Some.
    rewrite Ht, Hs, (spread_nil_nodup tf) by done.
    intros Hag''.
    assert (Hr : h'' !! length h = Some (Obj (spread sf tf))).
    { rewrite Hag''; [by apply list_lookup_middle|].
      right. rewrite length_app. simpl. lia. }
    destruct n as [|n]; cbn [unfold]; rewrite Hr, Ht, Hs; [done|].
    change (map (λ kv, (kv.1, unfold n h'' kv.2)) (spread sf tf))
      with (map (unfold_field h'' n) (spread sf tf)).
    apply (fields_refine 0 (length h) (h ++ [Obj (spread sf tf)])); try done.
    + intros k v Hin. apply (Htf k). by apply assoc_elem_nodup.
    + intros l Hl. rewrite lookup_app_l by lia. by apply Hag.
    + apply Forall_Forall2_diag, Forall_forall. intros [k sv] Hin.
      split; [done|]. intros h2 Hag2 n2. cbn [fst snd tree_combine].
      assert (unfold n2 h2 sv = unfold n2 h0 sv) as ->; [|by destruct (assoc k tf)].
      apply (unfold_base h2 (length h) (h ++ [Obj (spread sf tf)])); [done| |].
      * intros l Hl. rewrite lookup_app_l by lia. by apply Hag.
      * apply (Hsf k). by apply assoc_elem_nodup.
    + intros l Hl. apply Hag''.
      destruct Hl as [Hl|Hl]; [by left | right; lia].
  - destruct (base_object_ok _ _ Ht) as [Hnt Htf].
    destruct (base_object_ok _ _ Hs) as [Hns Hsf].
    revert Hag''. cbn [mergeDeep_from]. unfold alloc, keys, own_fields. cbn [fst snd].
    rewrite !Hag by by eapply lookup_lt_Some.
    rewrite Ht, Hs, (spread_nil_nodup tf) by done.
    destruct (merge_loop_refines remaining s (length h) tf sf IHr Hs Hlen Htf
                sf (h ++ [Obj tf]) tf) as (sf' & Hobj & Hgood & Hlen' & Hfr).
    + intros l Hl. rewrite lookup_app_l by lia. by apply Hag.
    + by apply list_lookup_middle.
    + intros k sv Hin. by apply assoc_elem_nodup.
    + done.
    + done.
    + set (hf := fold_left _ _ _) in *.
      rewrite length_app in Hlen', Hfr. cbn [length] in Hlen', Hfr.
      intros Hag''.
      assert (Hr : h'' !! length h = Some (Obj (spread sf' tf))).
      { rewrite Hag'' by (right; lia). exact Hobj. }
      destruct n as [|n]; cbn [unfold]; rewrite Hr, Ht, Hs; [done|].
      change (map (λ kv, (kv.1, unfold n h'' kv.2)) (spread sf' tf))
        with (map (unfold_field h'' n) (spread sf' tf)).
      apply (fields_refine (S remaining) (length h) hf); try done.
      * intros k v Hin. apply (Htf k). by apply assoc_elem_nodup.
      * intros l Hl. rewrite Hfr by lia. rewrite lookup_app_l by lia. by apply Hag.
      * intros l Hl. apply Hag''. destruct Hl as [Hl|Hl]; [by left | right; lia].
Qed.

End MergeRefinement.

Section MergeContract.

Import Merge.



(** The merge of two maps that point to themselves returns. *)
Example mergeDeep_cyclic :
  let h := [Obj [("self", VRef 0)]; Obj [("self", VRef 1)]] in
  length (mergeDeep 0 1 h).2 = 8%nat.
Proof. reflexivity. Qed.

End MergeContract.

Section SamplingRules.

Import Sampling.

Lemma shouldSampleDefault_status h event c random s :
  get_prop h event "status_code" = Data (VNum s) →
  (500 ≤ s ∨ s = 408 ∨ s = 429)%Z →
  shouldSampleDefault h event c random = true.
Proof.
  intros Hs Hc. unfold shouldSampleDefault. rewrite Hs.
  cbn [nullish_or is_nullish js_ge to_number set_has].
  destruct (Z.leb_spec 500 s); [done|].
  destruct Hc as [?|[->| ->]]; [lia|done|done].
Qed.

Lemma shouldSampleDefault_outcome h event c random o :
  get_prop h event "outcome" = Data (VStr o) →
  o = "aborted" ∨ o = "error" →
  shouldSampleDefault h event c random = true.
Proof.
  intros Ho Hc. unfold shouldSampleDefault. rewrite Ho.
  destruct (js_ge _ _); [done|]. destruct (set_has _ _); [done|].
  by destruct Hc as [-> | ->].
Qed.

Lemma shouldSampleDefault_slow h event c random d :
  get_prop h event "duration_ms" = Data (VNum d) →
  (default DEFAULT_slowThresholdMs (slowThresholdMs c) < d)%Z →
  shouldSampleDefault h event c random = true.
Proof.
  intros Hd Hc. unfold shouldSampleDefault. rewrite Hd.
  destruct (js_ge _ _); [done|]. destruct (set_has _ _); [done|].
  destruct (is_string _ "aborted"); [done|]. destruct (is_string _ "error"); [done|].
  cbn [nullish_or is_nullish js_gt to_number].
  destruct (Z.ltb_spec (default DEFAULT_slowThresholdMs (slowThresholdMs c)) d); [done|lia].
Qed.

(** X1: under the default rules a server error (status >= 500), a timeout
    or rate limit (408, 429), an aborted or failed request, and a request
    slower than the threshold are kept whatever the success rate and the
    random draw; this holds for a rules object without custom function, for
    an absent configuration and for every sampler made by [createSampler]. *)
Theorem default_rules_always_keep (h : heap) (event : loc) (threshold : option Z)
    (random : Q) :
  (∃ s, get_prop h event "status_code" = Data (VNum s)
        ∧ (500 ≤ s ∨ s = 408 ∨ s = 429)%Z)
  ∨ (∃ o, get_prop h event "outcome" = Data (VStr o)
          ∧ (o = "aborted" ∨ o = "error"))
  ∨ (∃ d, get_prop h event "duration_ms" = Data (VNum d)
          ∧ (default DEFAULT_slowThresholdMs threshold < d)%Z) →
  (∀ rate,
     shouldSample h event
       (Some (SampleRules {| sampleRateSuccess := rate;
                             slowThresholdMs := threshold;
                             custom := None |})) random = true)
  ∧ (threshold = None →
     shouldSample h event None random = true
     ∧ ∀ check, createSampler check h event random = true).
Proof.
  intros H.
  assert (Hd : ∀ c, slowThresholdMs c = threshold →
                    shouldSampleDefault h event c random = true).
  { intros c Hc. destruct H as [(s & Hs & H)|[(o & Ho & H)|(d & Hd & H)]].
    - by eapply shouldSampleDefault_status.
    - by eapply shouldSampleDefault_outcome.
    - eapply shouldSampleDefault_slow; [done|]. by rewrite Hc. }
  split.
  - intros rate. cbn [shouldSample custom]. by apply Hd.
  - intros ->. split.
    + cbn [shouldSample]. by apply Hd.
    + intros check. unfold createSampler. by rewrite Hd.
Qed.

Lemma default_rules_always_keep_witness :
  shouldSample [Obj [("status_code", VNum 200); ("outcome", VStr "aborted")]] 0
    (Some (SampleRules {| sampleRateSuccess := Some 0%Q;
                          slowThresholdMs := None;
                          custom := None |})) (9 # 10) = true
  ∧ createSampler (Some (λ _ _, false))
      [Obj [("status_code", VNum 200); ("outcome", VStr "aborted")]] 0 (9 # 10)
    = true.
Proof.
  destruct (default_rules_always_keep
              [Obj [("status_code", VNum 200); ("outcome", VStr "aborted")]] 0
              None (9 # 10)) as [H1 [_ H2]].
  - right. left. exists "aborted". split; [reflexivity | by left].
  - reflexivity.
  - split; [apply H1 | apply H2].
Defined.

(** X2: for a request that none of the keep-always rules covers (numeric
    status below 500 other than 408 and 429, an outcome other than aborted
    and error, a duration within the threshold) the decision of the default
    rules is exactly [random < rate]: a rate of 0 or less keeps none of
    them, a rate of 1 or more keeps all of them. *)
Theorem success_rate_decides (h : heap) (event : loc) (c : SamplingConfig)
    (random : Q) (s d : Z) (o : string) :
  custom c = None →
  get_prop h event "status_code" = Data (VNum s) →
  (s < 500 ∧ s ≠ 408 ∧ s ≠ 429)%Z →
  get_prop h event "outcome" = Data (VStr o) →
  o ≠ "aborted" → o ≠ "error" →
  get_prop h event "duration_ms" = Data (VNum d) →
  (d ≤ default DEFAULT_slowThresholdMs (slowThresholdMs c))%Z →
  let rate := default DEFAULT_sampleRateSuccess (sampleRateSuccess c) in
  (shouldSample h event (Some (SampleRules c)) random = true ↔ (random < rate)%Q)
  ∧ ((rate <= 0)%Q → (0 <= random)%Q →
     shouldSample h event (Some (SampleRules c)) random = false)
  ∧ ((1 <= rate)%Q → (random < 1)%Q →
     shouldSample h event (Some (SampleRules c)) random = true).
Proof.
  intros Hc Hs Hrange Ho Ha He Hd Hslow rate.
  assert (Heq : shouldSample h event (Some (SampleRules c)) random
                = if Qlt_le_dec random rate then true else false).
  { cbn [shouldSample]. rewrite Hc. unfold shouldSampleDefault.
    rewrite Hs, Ho, Hd. cbn [nullish_or is_nullish js_ge js_gt to_number set_has
                             is_string ALWAYS_SAMPLE_STATUS_CODES existsb].
    destruct (Z.leb_spec 500 s); [lia|].
    destruct (Z.eqb_spec s 408); [lia|]. destruct (Z.eqb_spec s 429); [lia|].
    cbn [orb].
    destruct (String.eqb_spec o "aborted"); [done|].
    destruct (String.eqb_spec o "error"); [done|].
    destruct (Z.ltb_spec (default DEFAULT_slowThresholdMs (slowThresholdMs c)) d);
      [lia|done]. }
  rewrite Heq. destruct (Qlt_le_dec random rate) as [Hlt|Hle].
  - split; [done|]. split; [|done].
    intros H0 Hr. exfalso. apply (Qlt_irrefl random).
    eapply Qlt_le_trans; [exact Hlt|]. by eapply Qle_trans.
  - split.
    + split; [done|]. intros Hlt. exfalso. apply (Qlt_irrefl random).
      by eapply Qlt_le_trans.
    + split; [done|]. intros H1 Hr. exfalso. apply (Qlt_irrefl random).
      eapply Qlt_le_trans; [exact Hr|]. by eapply Qle_trans.
Qed.

Lemma success_rate_decides_witness :
  shouldSample
    [Obj [("status_code", VNum 200); ("outcome", VStr "success");
          ("duration_ms", VNum 12)]] 0
    (Some (SampleRules {| sampleRateSuccess := Some 0%Q;
                          slowThresholdMs := None;
                          custom := None |})) (0 # 1) = false.
Proof.
  refine (proj1 (proj2 (success_rate_decides
    [Obj [("status_code", VNum 200); ("outcome", VStr "success");
          ("duration_ms", VNum 12)]] 0
    {| sampleRateSuccess := Some 0%Q; slowThresholdMs := None; custom := None |}
    (0 # 1) 200 12 "success" _ _ _ _ _ _ _ _)) _ _);
    try reflexivity; try (vm_compute; congruence); try lia; try done.
Defined.

(** X3: filling in the defaults with [createSamplingConfig] never changes
    a sampling decision: the defaults it writes are the ones the rules use
    for absent settings, and a custom function is carried over. *)
Theorem createSamplingConfig_same_decision (config : option SamplingConfig)
    (h : heap) (event : loc) (random : Q) :
  shouldSample h event (Some (SampleRules (createSamplingConfig config))) random
  = shouldSample h event (SampleRules <$> config) random.
Proof.
  destruct config as [[rate threshold [f|]]|]; cbn; try done;
    unfold shouldSampleDefault; cbn; by destruct rate, threshold.
Qed.

(** X4: [fixedRateSample] clamps its rate to the interval from 0 to 1:
    for a draw of [Math.random()], which lies in [0, 1), a rate of 1 or
    more always samples, a rate of 0 or less never does, and a rate in
    between samples exactly when the draw is below it. *)
Theorem fixedRateSample_clamps (rate random : Q) :
  (0 <= random)%Q → (random < 1)%Q →
  ((1 <= rate)%Q → fixedRateSample rate random = true)
  ∧ ((rate <= 0)%Q → fixedRateSample rate random = false)
  ∧ ((0 <= rate)%Q → (rate <= 1)%Q →
     (fixedRateSample rate random = true ↔ (random < rate)%Q)).
Proof.
  intros H0 H1. unfold fixedRateSample, math_max, math_min.
  destruct (Qlt_le_dec 1 rate) as [Hr1|Hr1];
    [destruct (Qlt_le_dec 0 1) as [H01|H01]
    |destruct (Qlt_le_dec 0 rate) as [Hr0|Hr0]];
    match goal with
    | |- context [Qlt_le_dec random ?x] => destruct (Qlt_le_dec random x) as [Hx|Hx]
    end;
    repeat split; intros; try done; exfalso;
    repeat match goal with
    | H : (_ <= _)%Q |- _ => apply Qle_lteq in H
    | H : (_ < _)%Q |- _ => unfold Qlt in H
    | H : _ ∨ _ |- _ => destruct H
    | H : (_ == _)%Q |- _ => unfold Qeq in H
    end; simpl in *; try lia; try nia.
Qed.

Lemma fixedRateSample_clamps_witness :
  fixedRateSample (3 # 2) (99 # 100) = true
  ∧ fixedRateSample (- (1 # 2)) (0 # 1) = false.
Proof.
  destruct (fixedRateSample_clamps (3 # 2) (99 # 100)) as [Ha _];
    [vm_compute; congruence | reflexivity |].
  destruct (fixedRateSample_clamps (- (1 # 2)) (0 # 1)) as [_ [Hb _]];
    [vm_compute; congruence | reflexivity |].
  split; [apply Ha | apply Hb]; vm_compute; congruence.
Defined.

End SamplingRules.

Section IdFacts.

Import Ids.

Lemma alphabet_table :
  forallb (λ n, match String.get n BASE32_ALPHABET with
                | Some c => is_base32_char c
                | None => false
                end) (seq 0 32) = true.
Proof. reflexivity. Qed.

Lemma alphabet_at_land x :
  ∃ c, alphabet_at (Z.land x 31) = String c "" ∧ is_base32_char c = true.
Proof.
  assert (Hr : (0 ≤ Z.land x 31 < 32)%Z).
  { change 31%Z with (Z.ones 5). rewrite Z.land_ones by lia.
    apply Z.mod_pos_bound. lia. }
  unfold alphabet_at. destruct (Z.ltb_spec (Z.land x 31) 0); [lia|].
  pose proof alphabet_table as Ht. rewrite forallb_forall in Ht.
  specialize (Ht (Z.to_nat (Z.land x 31))).
  destruct (String.get _ _) as [c|].
  - exists c. split; [done|]. apply Ht. apply in_seq. lia.
  - exfalso. assert (false = true); [|done]. apply Ht. apply in_seq. lia.
Qed.

Lemma all_base32_app s1 s2 :
  all_base32 (s1 +:+ s2) = all_base32 s1 && all_base32 s2.
Proof.
  induction s1 as [|a s1 IH]; [done|].
  rewrite append_cons. cbn [all_base32]. rewrite IH. by rewrite andb_assoc.
Qed.

Lemma drain_spec turns : ∀ value bits result,
  (bits ≤ turns)%nat → all_base32 result = true →
  ∃ q, bits = (5 * q + (drain turns value bits result).1)%nat
       ∧ ((drain turns value bits result).1 < 5)%nat
       ∧ String.length (drain turns value bits result).2
         = (String.length result + q)%nat
       ∧ all_base32 (drain turns value bits result).2 = true.
Proof.
  induction turns as [|turns IH]; intros value bits result Hb Hok.
  - exists 0%nat. cbn. split_and!; [lia|lia|lia|done].
  - cbn [drain]. destruct (Nat.leb_spec 5 bits) as [H5|H5].
    + destruct (alphabet_at_land (Z.shiftr value (Z.of_nat (bits - 5))))
        as (c & Hc & Hcok).
      rewrite Hc.
      destruct (IH value (bits - 5)%nat (result +:+ String c "")) as (q & H1 & H2 & H3 & H4).
      * lia.
      * rewrite all_base32_app, Hok. cbn. by rewrite Hcok.
      * exists (S q). split_and!; [lia|done| |done].
        rewrite H3, length_app_string. cbn. lia.
    + exists 0%nat. cbn. split_and!; [lia|lia|lia|done].
Qed.

Lemma take_bytes_spec bytes : ∀ result bits value,
  (bits < 5)%nat → all_base32 result = true →
  let st := fold_left take_byte bytes (result, bits, value) in
  (st.1.2 < 5)%nat
  ∧ (5 * String.length st.1.1 + st.1.2
     = 5 * String.length result + bits + 8 * length bytes)%nat
  ∧ all_base32 st.1.1 = true.
Proof.
  induction bytes as [|byte bytes IH]; intros result bits value Hb Hok.
  - cbn. split_and!; [done|lia|done].
  - cbn [fold_left take_byte].
    destruct (drain_spec (bits + 8)
                (to_int32 (Z.lor (to_int32 (Z.shiftl value 8)) byte))
                (bits + 8) result) as (q & H1 & H2 & H3 & H4); [lia|done|].
    destruct (drain _ _ _ _) as [bits' result'] eqn:Hd. cbn [fst snd] in *.
    destruct (IH result' bits'
                (to_int32 (Z.lor (to_int32 (Z.shiftl value 8)) byte)) H2 H4)
      as (K1 & K2 & K3).
    split; [done|]. split; [|done]. rewrite K2, H3. cbn [length]. lia.
Qed.

Lemma toBase32_spec bytes :
  (8 * length bytes ≤ 5 * String.length (toBase32 bytes))%nat
  ∧ (5 * String.length (toBase32 bytes) < 8 * length bytes + 5)%nat
  ∧ all_base32 (toBase32 bytes) = true.
Proof.
  unfold toBase32.
  destruct (take_bytes_spec bytes "" 0%nat 0%Z) as (H1 & H2 & H3); [lia|done|].
  destruct (fold_left _ _ _) as [[result bits] value]. cbn [fst snd] in *.
  cbn [String.length] in H2.
  destruct (Nat.ltb_spec 0 bits) as [Hb|Hb].
  - destruct (alphabet_at_land (to_int32 (Z.shiftl value (5 - Z.of_nat bits))))
      as (c & -> & Hc).
    rewrite length_app_string, all_base32_app, H3. cbn. rewrite Hc.
    split_and!; [lia|lia|done].
  - split_and!; [lia|lia|done].
Qed.

(** X5: [toBase32] turns [n] bytes into the smallest number of characters
    that holds [8 n] bits at five bits each, and every character is one of
    [a-z2-7]; the 32-bit wrap-around of the accumulator never produces an
    index outside the alphabet. *)
Theorem toBase32_shape (bytes : list Z) :
  (8 * length bytes ≤ 5 * String.length (toBase32 bytes))%nat
  ∧ (5 * String.length (toBase32 bytes) < 8 * length bytes + 5)%nat
  ∧ all_base32 (toBase32 bytes) = true
  ∧ (length bytes = 10%nat → String.length (toBase32 bytes) = 16%nat).
Proof.
  destruct (toBase32_spec bytes) as (H1 & H2 & H3).
  split_and!; [done|done|done|]. intros Hn. rewrite Hn in H1, H2. lia.
Qed.

Lemma generated_suffix_valid bytes :
  length bytes = 10%nat →
  (String.length (toBase32 bytes) <? 8)%nat || (32 <? String.length (toBase32 bytes))%nat
  = false
  ∧ matches_base32 (toBase32 bytes) = true.
Proof.
  intros Hn. destruct (toBase32_spec bytes) as (H1 & H2 & H3).
  rewrite Hn in H1, H2.
  assert (HL : String.length (toBase32 bytes) = 16%nat) by lia.
  rewrite HL. split; [done|]. unfold matches_base32. rewrite H3.
  destruct (toBase32 bytes); [done|done].
Qed.

Lemma prefix_app p s : String.prefix p (p +:+ s) = true.
Proof.
  induction p as [|a p IH]; [by destruct s|].
  rewrite append_cons. cbn [String.prefix]. by destruct (ascii_dec a a).
Qed.

Lemma slice_from_app p s : slice_from (String.length p) (p +:+ s) = s.
Proof.
  induction p as [|a p IH]; [done|]. rewrite append_cons. exact IH.
Qed.

Lemma generateRequestId_ok random :
  length random = 10%nat → isValidRequestId (generateRequestId random) = true.
Proof.
  intros Hn. destruct (generated_suffix_valid random Hn) as [H1 H2].
  unfold isValidRequestId, generateRequestId.
  rewrite prefix_app.
  replace (slice_from 4 ("req_" +:+ toBase32 random)) with (toBase32 random)
    by (symmetry; apply (slice_from_app "req_")).
  cbn [negb]. by rewrite H1.
Qed.

Lemma generateTraceId_ok random :
  length random = 10%nat → isValidTraceId (generateTraceId random) = true.
Proof.
  intros Hn. destruct (generated_suffix_valid random Hn) as [H1 H2].
  unfold isValidTraceId, generateTraceId.
  rewrite prefix_app.
  replace (slice_from 6 ("trace_" +:+ toBase32 random)) with (toBase32 random)
    by (symmetry; apply (slice_from_app "trace_")).
  cbn [negb]. by rewrite H1.
Qed.

(** X6: the identifiers the generators build from ten random bytes always
    pass the validators: [isValidRequestId(generateRequestId())] and
    [isValidTraceId(generateTraceId())] hold for every draw, the request
    identifier having 20 characters and the trace identifier 22. *)
Theorem generated_ids_are_valid (random : list Z) :
  length random = 10%nat →
  isValidRequestId (generateRequestId random) = true
  ∧ isValidTraceId (generateTraceId random) = true
  ∧ String.length (generateRequestId random) = 20%nat
  ∧ String.length (generateTraceId random) = 22%nat.
Proof.
  intros Hn. split_and!.
  - by apply generateRequestId_ok.
  - by apply generateTraceId_ok.
  - unfold generateRequestId. rewrite length_app_string.
    destruct (toBase32_spec random) as (H1 & H2 & _). rewrite Hn in H1, H2.
    cbn. lia.
  - unfold generateTraceId. rewrite length_app_string.
    destruct (toBase32_spec random) as (H1 & H2 & _). rewrite Hn in H1, H2.
    cbn. lia.
Qed.

Lemma generated_ids_are_valid_witness :
  isValidRequestId (generateRequestId [0; 255; 16; 32; 7; 99; 128; 1; 2; 3]%Z) = true
  ∧ String.length (generateRequestId [0; 255; 16; 32; 7; 99; 128; 1; 2; 3]%Z) = 20%nat.
Proof.
  destruct (generated_ids_are_valid [0; 255; 16; 32; 7; 99; 128; 1; 2; 3]%Z)
    as (H1 & _ & H3 & _); [reflexivity|].
  split; [exact H1 | exact H3].
Defined.

(** X7: when incoming identifiers are not trusted, the header is ignored
    and the resolved identifiers are freshly generated and well-formed;
    when they are trusted, a non-empty header value is returned as it is,
    without validation, and an absent or empty header falls back to
    generation. *)
Theorem resolved_ids (random : list Z) :
  length random = 10%nat →
  (∀ header,
     resolveRequestId header false random = generateRequestId random
     ∧ resolveTraceId header false random = generateTraceId random
     ∧ isValidRequestId (resolveRequestId header false random) = true
     ∧ isValidTraceId (resolveTraceId header false random) = true)
  ∧ (∀ s, s ≠ "" →
       resolveRequestId (Some s) true random = s
       ∧ resolveTraceId (Some s) true random = s)
  ∧ (∀ header trust, header = None ∨ header = Some "" →
       isValidRequestId (resolveRequestId header trust random) = true
       ∧ isValidTraceId (resolveTraceId header trust random) = true).
Proof.
  intros Hn. split_and!.
  - intros header.
    assert (H1 : resolveRequestId header false random = generateRequestId random)
      by by destruct header.
    assert (H2 : resolveTraceId header false random = generateTraceId random)
      by by destruct header.
    rewrite H1, H2. split_and!; [done|done| |].
    + by apply generateRequestId_ok.
    + by apply generateTraceId_ok.
  - intros s Hs. unfold resolveRequestId, resolveTraceId.
    destruct (String.eqb_spec s ""); [done|]. destruct s; [done|]. done.
  - intros header trust [-> | ->]; cbn [resolveRequestId resolveTraceId].
    + split; [by apply generateRequestId_ok | by apply generateTraceId_ok].
    + replace (trust && negb ("" =? "")%string && (0 <? String.length "")%nat)
        with false by by destruct trust.
      split; [by apply generateRequestId_ok | by apply generateTraceId_ok].
Qed.

Lemma resolved_ids_witness :
  resolveRequestId (Some "not a valid id!") true [1; 2; 3; 4; 5; 6; 7; 8; 9; 10]%Z
  = "not a valid id!"
  ∧ isValidRequestId
      (resolveRequestId (Some "not a valid id!") false [1; 2; 3; 4; 5; 6; 7; 8; 9; 10]%Z)
    = true.
Proof.
  destruct (resolved_ids [1; 2; 3; 4; 5; 6; 7; 8; 9; 10]%Z) as (H1 & H2 & _);
    [reflexivity|].
  split.
  - apply (H2 "not a valid id!"). discriminate.
  - apply (H1 (Some "not a valid id!")).
Defined.

End IdFacts.
Section Base32Value.

Import Ids.

Lemma to_int32_mod z : (to_int32 z mod 2 ^ 32 = z mod 2 ^ 32)%Z.
Proof. unfold to_int32. Z.div_mod_to_equations. lia. Qed.

Lemma digit_table :
  forallb (λ n, match String.get n BASE32_ALPHABET with
                | Some c => (base32_digit c =? Z.of_nat n)%Z
                | None => false
                end) (seq 0 32) = true.
Proof. reflexivity. Qed.

Lemma alphabet_at_digit d :
  (0 ≤ d < 32)%Z → ∃ c, alphabet_at d = String c "" ∧ base32_digit c = d.
Proof.
  intros Hd. unfold alphabet_at. destruct (Z.ltb_spec d 0); [lia|].
  pose proof digit_table as Ht. rewrite forallb_forall in Ht.
  specialize (Ht (Z.to_nat d)).
  destruct (String.get _ _) as [c|].
  - exists c. split; [done|].
    assert (Hc : (base32_digit c =? Z.of_nat (Z.to_nat d))%Z = true).
    { apply Ht. apply in_seq. lia. }
    apply Z.eqb_eq in Hc. lia.
  - exfalso. assert (false = true); [|done]. apply Ht. apply in_seq. lia.
Qed.

Lemma base32_value_from_snoc s : ∀ acc c,
  base32_value_from acc (s +:+ String c "")
  = (32 * base32_value_from acc s + base32_digit c)%Z.
Proof.
  induction s as [|a s IH]; intros acc c; [done|].
  rewrite append_cons. cbn [base32_value_from]. by rewrite IH.
Qed.

Lemma drain_digit v N k :
  (v mod 2 ^ 32 = N mod 2 ^ 32)%Z → (k ≤ 7)%nat →
  (Z.land (Z.shiftr v (Z.of_nat k)) 31 = (N / 2 ^ Z.of_nat k) mod 32)%Z.
Proof.
  intros Hv Hk. change 31%Z with (Z.ones 5).
  rewrite Z.land_ones, Z.shiftr_div_pow2 by lia.
  assert (Hc : (k = 0 ∨ k = 1 ∨ k = 2 ∨ k = 3 ∨ k = 4 ∨ k = 5 ∨ k = 6 ∨ k = 7)%nat)
    by lia.
  destruct_or!; subst k;
    cbn [Z.of_nat Pos.of_succ_nat Pos.succ];
    Z.div_mod_to_equations; lia.
Qed.

Lemma drain_value turns : ∀ v bits result N,
  (bits ≤ turns)%nat → (bits ≤ 12)%nat →
  (v mod 2 ^ 32 = N mod 2 ^ 32)%Z → (0 ≤ N)%Z →
  base32_value result = (N / 2 ^ Z.of_nat bits)%Z →
  base32_value (drain turns v bits result).2
  = (N / 2 ^ Z.of_nat (drain turns v bits result).1)%Z.
Proof.
  induction turns as [|turns IH]; intros v bits result N Ht Hb Hv HN Hr; [done|].
  cbn [drain]. destruct (Nat.leb_spec 5 bits) as [H5|H5]; [|done].
  apply IH; [lia|lia|done|done|].
  rewrite (drain_digit v N) by (done || lia).
  assert (Hd : (0 ≤ (N / 2 ^ Z.of_nat (bits - 5)) mod 32 < 32)%Z)
    by (apply Z.mod_pos_bound; lia).
  destruct (alphabet_at_digit _ Hd) as (c & -> & Hc).
  unfold base32_value in *. rewrite base32_value_from_snoc, Hr, Hc.
  assert (Hc8 : (bits = 5 ∨ bits = 6 ∨ bits = 7 ∨ bits = 8 ∨ bits = 9
                 ∨ bits = 10 ∨ bits = 11 ∨ bits = 12)%nat) by lia.
  destruct_or!; subst bits;
    cbn [Z.of_nat Pos.of_succ_nat Pos.succ Nat.sub];
    Z.div_mod_to_equations; lia.
Qed.

Lemma lor_low_byte x b :
  (x mod 256 = 0)%Z → (0 ≤ b < 256)%Z → Z.lor x b = (x + b)%Z.
Proof.
  intros Hx Hb.
  assert (Hl : Z.land x b = 0%Z).
  { rewrite <- (Z.mod_small b (2 ^ 8)) by lia.
    rewrite <- (Z.land_ones b 8) by lia.
    rewrite (Z.land_comm b), Z.land_assoc, Z.land_ones by lia.
    change (2 ^ 8)%Z with 256%Z. rewrite Hx. apply Z.land_0_l. }
  rewrite <- Z.lxor_lor by done. symmetry. by apply Z.add_nocarry_lxor.
Qed.

Lemma take_byte_value result bits v N byte :
  (bits < 5)%nat → (v mod 2 ^ 32 = N mod 2 ^ 32)%Z → (0 ≤ N)%Z →
  base32_value result = (N / 2 ^ Z.of_nat bits)%Z →
  (0 ≤ byte < 256)%Z →
  let st := take_byte (result, bits, v) byte in
  (st.2 mod 2 ^ 32 = (256 * N + byte) mod 2 ^ 32)%Z
  ∧ base32_value st.1.1 = ((256 * N + byte) / 2 ^ Z.of_nat st.1.2)%Z.
Proof.
  intros Hb Hv HN Hr Hbyte. cbn [take_byte].
  set (v' := to_int32 (Z.lor (to_int32 (Z.shiftl v 8)) byte)).
  assert (Hv' : (v' mod 2 ^ 32 = (256 * N + byte) mod 2 ^ 32)%Z).
  { unfold v'. rewrite to_int32_mod, Z.shiftl_mul_pow2 by lia.
    pose proof (to_int32_mod (v * 2 ^ 8)) as Hs.
    rewrite lor_low_byte; [|Z.div_mod_to_equations; lia|done].
    Z.div_mod_to_equations. lia. }
  pose proof (drain_value (bits + 8) v' (bits + 8) result (256 * N + byte)) as Hd.
  destruct (drain _ _ _ _) as [bits' result'] eqn:Heq. cbn [fst snd] in *.
  split; [done|]. apply Hd; [lia|lia|done|lia|].
  rewrite Hr.
  assert (Hc : (bits = 0 ∨ bits = 1 ∨ bits = 2 ∨ bits = 3 ∨ bits = 4)%nat) by lia.
  destruct_or!; subst bits;
    cbn [Z.of_nat Pos.of_succ_nat Pos.succ Nat.add];
    Z.div_mod_to_equations; lia.
Qed.

Lemma take_bytes_value bytes : ∀ result bits v N,
  (bits < 5)%nat → all_base32 result = true →
  (v mod 2 ^ 32 = N mod 2 ^ 32)%Z → (0 ≤ N)%Z →
  base32_value result = (N / 2 ^ Z.of_nat bits)%Z →
  Forall (λ b, 0 ≤ b < 256)%Z bytes →
  let st := fold_left take_byte bytes (result, bits, v) in
  let N' := fold_left (λ acc b, 256 * acc + b)%Z bytes N in
  (st.2 mod 2 ^ 32 = N' mod 2 ^ 32)%Z
  ∧ (0 ≤ N')%Z
  ∧ base32_value st.1.1 = (N' / 2 ^ Z.of_nat st.1.2)%Z.
Proof.
  induction bytes as [|byte bytes IH]; intros result bits v N Hb Hok Hv HN Hr Hall.
  - done.
  - inversion Hall as [|? ? Hbyte Hrest]; subst.
    cbn [fold_left].
    destruct (take_byte_value result bits v N byte Hb Hv HN Hr Hbyte) as [K1 K2].
    destruct (take_bytes_spec [byte] result bits v Hb Hok) as (L1 & _ & L3).
    cbn [fold_left] in L1, L3.
    destruct (take_byte (result, bits, v) byte) as [[result' bits'] v'].
    cbn [fst snd] in *.
    apply IH; [done|done|done|lia|done|done].
Qed.

Lemma last_digit v N bits :
  (v mod 2 ^ 32 = N mod 2 ^ 32)%Z → (0 < bits < 5)%nat →
  (Z.land (to_int32 (Z.shiftl v (5 - Z.of_nat bits))) 31
   = (N * 2 ^ (5 - Z.of_nat bits)) mod 32)%Z.
Proof.
  intros Hv Hb. change 31%Z with (Z.ones 5).
  rewrite Z.land_ones, Z.shiftl_mul_pow2 by lia.
  pose proof (to_int32_mod (v * 2 ^ (5 - Z.of_nat bits))) as Hs.
  assert (Hc : (bits = 1 ∨ bits = 2 ∨ bits = 3 ∨ bits = 4)%nat) by lia.
  destruct_or!; subst bits;
    cbn [Z.of_nat Pos.of_succ_nat Pos.succ Z.sub Z.add Z.opp Z.pos_sub
         Pos.pred_double] in *;
    Z.div_mod_to_equations; lia.
Qed.

Lemma toBase32_value bytes :
  Forall (λ b, 0 ≤ b < 256)%Z bytes →
  base32_value (toBase32 bytes)
  = (bytes_value bytes
     * 2 ^ Z.of_nat (5 * String.length (toBase32 bytes) - 8 * length bytes))%Z.
Proof.
  intros Hall. unfold toBase32, bytes_value.
  destruct (take_bytes_spec bytes "" 0%nat 0%Z) as (H1 & H2 & H3); [lia|done|].
  destruct (take_bytes_value bytes "" 0%nat 0%Z 0%Z) as (K1 & K2 & K3);
    [lia|done|done|lia|done|done|].
  set (N := fold_left _ bytes 0%Z) in *.
  destruct (fold_left take_byte _ _) as [[result bits] v]. cbn [fst snd] in *.
  cbn [String.length] in H2.
  destruct (Nat.ltb_spec 0 bits) as [Hb|Hb].
  - rewrite (last_digit v N) by (done || lia).
    assert (Hd : (0 ≤ (N * 2 ^ (5 - Z.of_nat bits)) mod 32 < 32)%Z)
      by (apply Z.mod_pos_bound; lia).
    destruct (alphabet_at_digit _ Hd) as (c & -> & Hc).
    unfold base32_value in *. rewrite base32_value_from_snoc, K3, Hc.
    rewrite length_app_string. cbn [String.length].
    replace (5 * (String.length result + 1) - 8 * length bytes)%nat
      with (5 - bits)%nat by lia.
    assert (Hc4 : (bits = 1 ∨ bits = 2 ∨ bits = 3 ∨ bits = 4)%nat) by lia.
    destruct_or!; subst bits;
      cbn [Z.of_nat Pos.of_succ_nat Pos.succ Z.sub Z.add Z.opp Z.pos_sub
           Pos.pred_double Nat.sub] in *;
      Z.div_mod_to_equations; lia.
  - assert (bits = 0%nat) as -> by lia.
    replace (5 * String.length result - 8 * length bytes)%nat with 0%nat by lia.
    rewrite K3. cbn [Z.of_nat]. rewrite Z.pow_0_r, Z.div_1_r. lia.
Qed.

Lemma bytes_value_inj bytes1 : ∀ bytes2 N1 N2,
  length bytes1 = length bytes2 →
  Forall (λ b, 0 ≤ b < 256)%Z bytes1 → Forall (λ b, 0 ≤ b < 256)%Z bytes2 →
  fold_left (λ acc b, 256 * acc + b)%Z bytes1 N1
  = fold_left (λ acc b, 256 * acc + b)%Z bytes2 N2 →
  N1 = N2 ∧ bytes1 = bytes2.
Proof.
  induction bytes1 as [|x bytes1 IH]; intros [|y bytes2] N1 N2 Hlen H1 H2 Heq;
    try done.
  inversion H1; inversion H2; subst. cbn [fold_left] in Heq.
  destruct (IH bytes2 _ _ ltac:(by inversion Hlen) ltac:(done) ltac:(done) Heq)
    as [HN ->].
  assert (N1 = N2 ∧ x = y) as [-> ->] by lia. done.
Qed.

(** X8: [toBase32] loses nothing.  Read as a number, five bits a
    character, the text is the number the bytes write, most significant byte
    first, shifted left by the padding bits; hence two byte sequences of the
    same length with the same encoding are equal, although the accumulator
    of the encoder wraps around at 32 bits. *)
Theorem toBase32_injective (bytes1 bytes2 : list Z) :
  Forall (λ b, 0 ≤ b < 256)%Z bytes1 → Forall (λ b, 0 ≤ b < 256)%Z bytes2 →
  (base32_value (toBase32 bytes1)
   = bytes_value bytes1
     * 2 ^ Z.of_nat (5 * String.length (toBase32 bytes1) - 8 * length bytes1))%Z
  ∧ (length bytes1 = length bytes2 →
     toBase32 bytes1 = toBase32 bytes2 → bytes1 = bytes2)
  ∧ (length bytes1 = length bytes2 →
     generateRequestId bytes1 = generateRequestId bytes2 → bytes1 = bytes2).
Proof.
  intros H1 H2.
  assert (Hinj : length bytes1 = length bytes2 →
                 toBase32 bytes1 = toBase32 bytes2 → bytes1 = bytes2).
  { intros Hlen Heq.
    pose proof (toBase32_value bytes1 H1) as V1.
    pose proof (toBase32_value bytes2 H2) as V2.
    rewrite <- Hlen in V2. rewrite Heq, V2 in V1.
    apply Z.mul_reg_r in V1; [|lia].
    by destruct (bytes_value_inj bytes1 bytes2 0%Z 0%Z Hlen H1 H2). }
  split; [by apply toBase32_value|]. split; [done|].
  intros Hlen Heq. apply Hinj; [done|].
  unfold generateRequestId in Heq.
  rewrite <- (slice_from_app "req_" (toBase32 bytes1)),
          <- (slice_from_app "req_" (toBase32 bytes2)).
  by rewrite Heq.
Qed.

Lemma toBase32_injective_witness :
  base32_value (toBase32 [104; 105]%Z) = (bytes_value [104; 105]%Z * 2 ^ 4)%Z
  ∧ toBase32 [104; 105]%Z = "nbuq".
Proof.
  split; [|reflexivity].
  refine (proj1 (toBase32_injective [104; 105]%Z [104; 105]%Z _ _));
    repeat (constructor; [lia|]); constructor.
Defined.

End Base32Value.

Section PathSiblings.

Import Merge.

Lemma get_own_value_ok n0 h l k v :
  closed_below n0 h → (l < n0)%nat → get_own h l k = Some v →
  value_ok n0 v = true.
Proof.
  intros [_ Hcl] Hl Hv. unfold get_own in Hv.
  destruct (h !! l) as [o|] eqn:Ho; [|done].
  specialize (Hcl l o Hl Ho).
  destruct o as [fs|vs].
  - apply (obj_ok_values n0 (Obj fs) Hcl). cbn [obj_values].
    apply assoc_Some_elem in Hv. apply list_elem_of_fmap. by exists (k, v).
  - destruct (index_of_key k) as [i|].
    + apply (obj_ok_values n0 (Arr vs) Hcl). cbn [obj_values].
      by eapply list_elem_of_lookup_2.
    + by destruct (String.eqb k "length"); simplify_eq.
Qed.

(** Reading a path only looks at the objects it passes through. *)
Lemma getPath_walk_agree n0 h h' parts : ∀ x,
  closed_below n0 h →
  (∀ l, (l < n0)%nat → h' !! l = h !! l) →
  (∀ l, x = Data (VRef l) → (l < n0)%nat) →
  getPath_walk h' x parts = getPath_walk h x parts.
Proof.
  induction parts as [|part rest IH]; intros x Hcl Hag Hx; [done|].
  cbn [getPath_walk]. destruct x as [[| | | | |l]|]; try done.
  specialize (Hx l eq_refl).
  rewrite (get_prop_lookup_eq h h' l part) by by apply Hag.
  apply IH; [done|done|].
  intros l' Hl'. apply get_prop_data_ref in Hl'.
  by apply (value_ok_lt n0), (get_own_value_ok n0 h l part).
Qed.

Lemma get_prop_same_fields h h' l l' fs fs' k :
  h !! l = Some (Obj fs) → h' !! l' = Some (Obj fs') →
  assoc k fs' = assoc k fs →
  get_prop h' l' k = get_prop h l k.
Proof.
  intros Hl Hl' Hk. unfold get_prop, get_own, inherited. by rewrite Hl, Hl', Hk.
Qed.

Lemma copy_of_plain h0 h e fs :
  closed_below (length h0) h0 →
  (∀ l, (l < length h0)%nat → h !! l = h0 !! l) →
  h0 !! e = Some (Obj fs) →
  copy_or_empty h (Data (VRef e)) = fs.
Proof.
  intros [_ Hcl] Hag He.
  assert (Hlt : (e < length h0)%nat) by by eapply lookup_lt_Some.
  unfold copy_or_empty, isPlainObject, own_fields. rewrite Hag, He by done.
  apply spread_nil_nodup. by eapply obj_ok_nodup, Hcl.
Qed.

(** The walk of [setPath] leaves every path readable as before that parts
    from the written path at some key, as long as the common part leads
    through plain objects: the copies made on the way keep the other keys,
    and what these keys refer to is shared with the original. *)
Lemma setPath_walk_other h0 v k k' r r2 common : ∀ current c0 h fs,
  closed_below (length h0) h0 →
  (∀ l, (l < length h0)%nat → h !! l = h0 !! l) →
  (length h0 ≤ current)%nat →
  h !! current = Some (Obj fs) → h0 !! c0 = Some (Obj fs) →
  k ≠ k' →
  (∀ pre, pre ≠ [] → pre `prefix_of` common →
          isPlainObject h0 (getPath_walk h0 (Data (VRef c0)) pre) = true) →
  getPath_walk (setPath_walk current (common ++ k :: r) v h)
    (Data (VRef current)) (common ++ k' :: r2)
  = getPath_walk h0 (Data (VRef c0)) (common ++ k' :: r2).
Proof.
  induction common as [|c common IH]; intros current c0 h fs Hcl Hag Hcur Hf Hf0 Hk Hpl.
  - cbn [app].
    destruct (setPath_walk_spec (k :: r) current v h fs ltac:(done) Hf)
      as (Hlen & Hframe & (fs' & Hfs' & Hkeep & _) & _).
    cbn [getPath_walk].
    rewrite (get_prop_same_fields h0 _ c0 current fs fs' k' Hf0 Hfs')
      by (apply Hkeep; cbn; congruence).
    apply (getPath_walk_agree (length h0)); [done| |].
    + intros l Hl. apply lookup_lt_Some in Hf. rewrite Hframe by lia.
      by apply Hag.
    + intros l' Hl'. apply get_prop_data_ref in Hl'.
      apply (value_ok_lt (length h0)), (get_own_value_ok _ h0 c0 k'); [done| |done].
      by eapply lookup_lt_Some.
  - cbn [app].
    assert (Hc0 : (c0 < length h0)%nat) by by eapply lookup_lt_Some.
    assert (Hlt : (current < length h)%nat) by by eapply lookup_lt_Some.
    pose proof (Hpl [c] ltac:(done) ltac:(by apply prefix_cons, prefix_nil)) as Hp.
    cbn [getPath_walk] in Hp.
    destruct (get_prop h0 c0 c) as [[| | | | |e]|] eqn:He; try done.
    cbn [isPlainObject] in Hp.
    destruct (h0 !! e) as [[fe|?]|] eqn:Hfe; try done.
    assert (Hex : get_prop h current c = Data (VRef e)).
    { rewrite <- He. by apply (get_prop_same_fields h0 h c0 current fs fs). }
    destruct common as [|c2 common']; cbn [app] in *.
    all: rewrite setPath_walk_cons, Hex, (copy_of_plain h0 h e fe) by done.
    all: set (h2 := set_prop current c (VRef (length h)) (h ++ [Obj fe])).
    all: assert (Hag2 : ∀ l, (l < length h0)%nat → h2 !! l = h0 !! l)
           by (intros l Hl; unfold h2; rewrite set_prop_lookup_ne by lia;
               rewrite lookup_app_l by lia; by apply Hag).
    all: assert (Hnext : h2 !! length h = Some (Obj fe))
           by (unfold h2; rewrite set_prop_lookup_ne by lia;
               by apply list_lookup_middle).
    all: assert (Hcur2 : h2 !! current = Some (Obj (set_field fs c (VRef (length h)))))
           by (unfold h2; apply set_prop_lookup_obj; by rewrite lookup_app_l).
    all: assert (Hlen2 : length h2 = S (length h))
           by (unfold h2; rewrite set_prop_length, length_app; simpl; lia).
    + pose proof (IH (length h) e h2 fe Hcl Hag2 ltac:(lia) Hnext Hfe Hk) as IH'.
      cbn [app] in IH'.
      destruct (setPath_walk_spec (k :: r) (length h) v h2 fe ltac:(done) Hnext)
        as (_ & Hframe & _ & _).
      cbn [getPath_walk].
      replace (get_prop (setPath_walk (length h) (k :: r) v h2) current c)
        with (Data (VRef (length h))).
      * rewrite He. cbn [getPath_walk] in IH'. apply IH'.
        intros pre Hne Hpre. apply prefix_nil_inv in Hpre. done.
      * symmetry. apply get_prop_own. unfold get_own.
        rewrite Hframe, Hcur2 by lia. apply assoc_set_field_eq.
    + pose proof (IH (length h) e h2 fe Hcl Hag2 ltac:(lia) Hnext Hfe Hk) as IH'.
      cbn [app] in IH'.
      destruct (setPath_walk_spec (c2 :: common' ++ k :: r) (length h) v h2 fe
                  ltac:(done) Hnext) as (_ & Hframe & _ & _).
      cbn [getPath_walk].
      replace (get_prop (setPath_walk (length h) (c2 :: common' ++ k :: r) v h2)
                 current c)
        with (Data (VRef (length h))).
      * rewrite He. cbn [getPath_walk] in IH'. apply IH'.
        intros pre Hne Hpre.
        specialize (Hpl (c :: pre) ltac:(done) ltac:(by apply prefix_cons)).
        cbn [getPath_walk] in Hpl. by rewrite He in Hpl.
      * symmetry. apply get_prop_own. unfold get_own.
        rewrite Hframe, Hcur2 by lia. apply assoc_set_field_eq.
Qed.

Lemma setPath_walk_has parts : ∀ current v h fs,
  parts ≠ [] →
  h !! current = Some (Obj fs) →
  hasPath_walk (setPath_walk current parts v h) (Data (VRef current)) parts = true.
Proof.
  induction parts as [|key rest IH]; intros current v h fs Hne Hcur; [done|].
  destruct rest as [|key2 rest].
  - cbn [setPath_walk hasPath_walk]. unfold has_property.
    by erewrite get_own_set_prop_eq.
  - rewrite setPath_walk_cons.
    set (fresh := copy_or_empty h (get_prop h current key)).
    set (h2 := set_prop current key (VRef (length h)) (h ++ [Obj fresh])).
    assert (Hlt : (current < length h)%nat) by by apply lookup_lt_Some in Hcur.
    assert (Hnext : h2 !! length h = Some (Obj fresh)).
    { unfold h2. rewrite set_prop_lookup_ne by lia. by apply list_lookup_middle. }
    assert (Hlen2 : length h2 = S (length h)).
    { unfold h2. rewrite set_prop_length, length_app. simpl. lia. }
    destruct (setPath_walk_spec (key2 :: rest) (length h) v h2 fresh ltac:(done) Hnext)
      as (_ & Hframe & _ & _).
    assert (Hown : get_own (setPath_walk (length h) (key2 :: rest) v h2) current key
                   = Some (VRef (length h))).
    { unfold get_own. rewrite Hframe by lia. unfold h2.
      erewrite set_prop_lookup_obj by by rewrite lookup_app_l.
      apply assoc_set_field_eq. }
    cbn [hasPath_walk]. unfold has_property. rewrite Hown.
    rewrite (get_prop_own _ _ _ _ Hown). by eapply IH.
Qed.




Lemma getPath_walk_undefined h parts :
  getPath_walk h (Data VUndefined) parts = Data VUndefined.
Proof. by destruct parts. Qed.

Lemma hasPath_walk_false h parts : ∀ current,
  hasPath_walk h current parts = false →
  getPath_walk h current parts = Data VUndefined.
Proof.
  induction parts as [|part rest IH]; intros current H; [done|].
  cbn [hasPath_walk getPath_walk] in *.
  destruct current as [[| | | | |l]|]; try done.
  unfold has_property in H. unfold get_prop in *.
  destruct (get_own h l part) as [x|]; [by apply IH|].
  destruct (inherited h l part) as [f|]; [by apply IH|].
  apply getPath_walk_undefined.
Qed.

(** X11: [hasPath] and [getPath] agree: a path that [hasPath] does not
    find reads as [undefined], so every path with a value other than
    [undefined] is found by [hasPath]. *)
Theorem hasPath_false_reads_undefined (h : heap) (o : loc) (path : string) :
  (hasPath h o path = false → getPath h o path = Data VUndefined)
  ∧ (getPath h o path ≠ Data VUndefined → hasPath h o path = true).
Proof.
  assert (H : hasPath h o path = false → getPath h o path = Data VUndefined)
    by apply hasPath_walk_false.
  split; [done|]. intros Hv. destruct (hasPath h o path); [done|]. by destruct Hv, H.
Qed.

End PathSiblings.

Section SnapshotIsolation.

Import Merge.

(** The structure of a value only depends on the objects reachable from
    it. *)
Lemma unfold_local h h' : ∀ n v,
  (∀ m l, l ∈ reach m h v → h' !! l = h !! l) →
  unfold n h' v = unfold n h v.
Proof.
  induction n as [|n IH]; intros v Hag.
  - destruct v as [| | | | |l]; try done. cbn [unfold].
    rewrite (Hag 0%nat l) by (cbn; left). done.
  - destruct v as [| | | | |l]; try done. cbn [unfold].
    rewrite (Hag 0%nat l) by (cbn; left).
    destruct (h !! l) as [[fs|vs]|] eqn:Hl; [| |done].
    + f_equal. apply map_ext_in. intros [k x] Hin. cbn [fst snd]. f_equal.
      apply IH. intros m l' Hr. apply (Hag (S m)). cbn [reach]. rewrite Hl.
      right. apply list_elem_of_In, in_flat_map. exists (k, x).
      split; [done|]. by apply list_elem_of_In.
    + f_equal. apply map_ext_in. intros x Hin.
      apply IH. intros m l' Hr. apply (Hag (S m)). cbn [reach]. rewrite Hl.
      right. apply list_elem_of_In, in_flat_map. exists x.
      split; [done|]. by apply list_elem_of_In.
Qed.

(** X12: a snapshot shares nothing with its original.  Whatever is later
    written to the objects that existed when the snapshot was taken, or
    allocated afterwards, the snapshot still reads as the original did at
    that time; and writes to the objects of the snapshot do not change what
    the original reads as. *)
Theorem snapshot_is_isolated (l : loc) (h : heap) :
  heap_ok h = true → (l < length h)%nat →
  let r := snapshot_object l h in
  (∀ h', (∀ l0, (length h ≤ l0 < length r.2)%nat → h' !! l0 = r.2 !! l0) →
         deep_equal h' (VRef r.1) h (VRef l))
  ∧ (∀ h', (∀ l0, (l0 < length h)%nat → h' !! l0 = h !! l0) →
           deep_equal h' (VRef l) h (VRef l))
  ∧ (∀ l0 k v, (l0 < length h)%nat →
               deep_equal (set_prop l0 k v r.2) (VRef r.1) h (VRef l)).
Proof.
  intros Hok Hl r.
  destruct (snapshot_object_spec l h Hok Hl) as (Hok' & Hge & Hlt & Heq & Hreach).
  fold r in Hok', Hge, Hlt, Heq, Hreach.
  assert (H1 : ∀ h', (∀ l0, (length h ≤ l0 < length r.2)%nat → h' !! l0 = r.2 !! l0) →
                     deep_equal h' (VRef r.1) h (VRef l)).
  { intros h' Hag n. rewrite <- (Heq n). apply unfold_local.
    intros m l0 Hin. apply Hag. split; [by eapply Hreach|].
    eapply (reach_closed (length r.2) r.2); [by apply heap_ok_closed| |done].
    by apply value_ok_lt. }
  split; [done|]. split.
  - intros h' Hag n. apply (unfold_agree (length h)); [by apply heap_ok_closed|done|].
    by apply value_ok_lt.
  - intros l0 k v Hl0. apply H1. intros l1 Hl1. apply set_prop_lookup_ne. lia.
Qed.

Lemma snapshot_is_isolated_witness :
  let h := [Obj [("user", VRef 1)]; Obj [("id", VNum 7)]] in
  unfold 2 (set_prop 1 "id" (VNum 8) (snapshot_object 0 h).2)
    (VRef (snapshot_object 0 h).1)
  = TObj [("user", TObj [("id", TNum 7)])].
Proof.
  intros h.
  destruct (snapshot_is_isolated 0 h) as (_ & _ & H); [reflexivity | cbn; lia |].
  etrans; [apply (H 1%nat "id" (VNum 8) ltac:(cbn; lia) 2%nat)|]. reflexivity.
Defined.

(** What a clone does at the top level, on any store: data are kept as
    they are and a reference stays a reference. *)
Lemma clone_value_shallow f src v st :
  match v with
  | VRef _ => ∃ r, (clone_value f src v st).1 = VRef r
  | _ => (clone_value f src v st).1 = v
  end.
Proof.
  destruct v as [| | | | |l]; try by destruct f.
  destruct (st.1 !! l) as [l'|] eqn:Hm.
  - rewrite (clone_value_hit f src l st l' Hm). by eexists.
  - destruct f as [|f]; [rewrite clone_value_stuck by (done || by left); by eexists|].
    destruct (src !! l) as [o|] eqn:Ho.
    + rewrite (clone_value_enter f src l st o Hm Ho). by eexists.
    + rewrite clone_value_stuck by (done || by right). by eexists.
Qed.

Lemma clone_list_shallow f src vs : ∀ st,
  Forall2 (λ v v', match v with
                   | VRef _ => ∃ r, v' = VRef r
                   | _ => v' = v
                   end) vs (clone_list f src vs st).1.
Proof.
  induction vs as [|v vs IH]; intros st; [constructor|].
  cbn [clone_list].
  pose proof (clone_value_shallow f src v st) as Hv.
  destruct (clone_value f src v st) as [v' st'].
  specialize (IH st'). destruct (clone_list f src vs st') as [r st''].
  cbn [fst snd] in *. constructor; [|done]. by destruct v.
Qed.

Lemma snapshot_object_top l h fs :
  h !! l = Some (Obj fs) →
  ∃ vs', (snapshot_object l h).2 !! (snapshot_object l h).1
         = Some (Obj (zip (map fst fs) vs'))
         ∧ (snapshot_object l h).1 = length h
         ∧ Forall2 (λ v v', match v with
                            | VRef _ => ∃ r, v' = VRef r
                            | _ => v' = v
                            end) (map snd fs) vs'.
Proof.
  intros Hl. assert (Hlt : (l < length h)%nat) by by eapply lookup_lt_Some.
  unfold snapshot_object, snapshot, structuredClone.
  destruct (length h) as [|f] eqn:Hlen; [lia|].
  rewrite (clone_value_enter f h l (∅, h) (Obj fs)) by done.
  cbn [fst snd obj_values obj_with_values]. rewrite Hlen.
  set (st1 := (<[l := S f]> ∅, h ++ [Obj (zip (map fst fs) [])])).
  pose proof (clone_list_frame f h (clone_value_frame f h) (map snd fs) st1) as [Hfr _].
  pose proof (clone_list_shallow f h (map snd fs) st1) as Hsh.
  destruct (clone_list f h (map snd fs) st1) as [vs' [m hc]].
  cbn [fst snd] in *. exists vs'. split; [|done].
  apply list_lookup_insert_eq. unfold st1 in Hfr. cbn [snd] in Hfr.
  rewrite length_app in Hfr. cbn in Hfr. lia.
Qed.

Lemma assoc_zip_shallow (fs : list (string * value)) : ∀ vs' k,
  Forall2 (λ v v', match v with
                   | VRef _ => ∃ r, v' = VRef r
                   | _ => v' = v
                   end) (map snd fs) vs' →
  match assoc k fs with
  | Some (VRef _) => ∃ r, assoc k (zip (map fst fs) vs') = Some (VRef r)
  | x => assoc k (zip (map fst fs) vs') = x
  end.
Proof.
  induction fs as [|[k0 v0] fs IH]; intros vs' k H.
  - by inversion H.
  - inversion H as [|? v0' ? vs'' Hv Hrest]; subst. cbn [map fst zip zip_with assoc].
    destruct (String.eqb k0 k); [|by apply IH].
    destruct v0; try (by rewrite Hv). destruct Hv as [r ->]. by exists r.
Qed.

(** Reading a top-level key of a snapshot gives what the original gives,
    up to the identity of a referenced object. *)
Lemma snapshot_get_prop l h fs k :
  h !! l = Some (Obj fs) →
  match get_prop h l k with
  | Data (VRef _) =>
      ∃ r, get_prop (snapshot_object l h).2 (snapshot_object l h).1 k = Data (VRef r)
  | x => get_prop (snapshot_object l h).2 (snapshot_object l h).1 k = x
  end.
Proof.
  intros Hl. destruct (snapshot_object_top l h fs Hl) as (vs' & Hs & _ & Hsh).
  pose proof (assoc_zip_shallow fs vs' k Hsh) as Ha.
  unfold get_prop, get_own, inherited. rewrite Hl, Hs.
  destruct (assoc k fs) as [[| | | | |r]|].
  1-5: by rewrite Ha.
  - destruct Ha as [r' ->]. by exists r'.
  - rewrite Ha. by destruct (assoc k object_prototype).
Qed.

End SnapshotIsolation.

Section BuilderFacts.

Import Merge Event.

(** X13: once finalized, a builder ignores [enrich], [set] and
    [markError]: whatever the sequence of calls, the builder state and the
    store are unchanged and each call writes its warning to stderr. *)
Theorem finalized_builder_ignores_calls (cs : list call) (b : EventBuilderState)
    (w : world) :
  finalized b = true →
  (run_calls cs b w).1 = b
  ∧ store (run_calls cs b w).2 = store w
  ∧ stderr (run_calls cs b w).2 = stderr w ++ map ignored_warning cs.
Proof.
  intros Hf. revert w. induction cs as [|c cs IH]; intros w.
  - cbn. by rewrite app_nil_r.
  - cbn [run_calls map].
    assert (Hc : run_call c b w = (b, warn (ignored_warning c) w)).
    { destruct c; cbn [run_call ignored_warning]; unfold enrich, set, markError;
        by rewrite Hf. }
    rewrite Hc. destruct (IH (warn (ignored_warning c) w)) as (H1 & H2 & H3).
    split; [done|]. split; [done|]. rewrite H3. cbn [warn stderr].
    by rewrite <- app_assoc.
Qed.

Lemma finalized_builder_ignores_calls_witness :
  let w := World [Obj [("method", VStr "GET")]] [] in
  let r := finalize Success 200 5 (BuilderState 0 0 false false) w in
  store (run_calls [CallSet "method" (VStr "POST")] r.2.1 r.2.2).2 = store r.2.2.
Proof.
  intros w r.
  exact (proj1 (proj2 (finalized_builder_ignores_calls
                         [CallSet "method" (VStr "POST")] r.2.1 r.2.2 eq_refl))).
Defined.

Lemma finalize_store_fields outcome statusCode now b h fs :
  finalized b = false → h !! event b = Some (Obj fs) →
  ∃ fs', finalize_store outcome statusCode now b h !! event b = Some (Obj fs')
         ∧ assoc "status_code" fs' = Some (VNum statusCode)
         ∧ assoc "duration_ms" fs' = Some (VNum (now - startTime b))
         ∧ truthy (get_prop (finalize_store outcome statusCode now b h) (event b)
                     "outcome") = true
         ∧ (∀ k, k ≠ "status_code" → k ≠ "duration_ms" → k ≠ "outcome" →
                 assoc k fs' = assoc k fs)
         ∧ (∀ k, k ∈ map fst fs → k ∈ map fst fs').
Proof.
  intros Hf He. unfold finalize_store. rewrite Hf.
  set (h1 := set_prop (event b) "duration_ms" _ h).
  set (h2 := set_prop (event b) "status_code" (VNum statusCode) h1).
  set (fs1 := set_field fs "duration_ms" (VNum (Time.durationMs (startTime b) now))).
  set (fs2 := set_field fs1 "status_code" (VNum statusCode)).
  assert (H1 : h1 !! event b = Some (Obj fs1)) by by apply set_prop_lookup_obj.
  assert (H2 : h2 !! event b = Some (Obj fs2)) by by apply set_prop_lookup_obj.
  assert (Hs : assoc "status_code" fs2 = Some (VNum statusCode))
    by apply assoc_set_field_eq.
  assert (Hd : assoc "duration_ms" fs2 = Some (VNum (now - startTime b))).
  { unfold fs2. rewrite assoc_set_field_ne by done. apply assoc_set_field_eq. }
  assert (Hkeys : ∀ F k x y, k ∈ map fst F → k ∈ map fst (set_field F x y)).
  { intros F k x y Hk. destruct (decide (x ∈ map fst F)) as [Hx|Hx].
    - by rewrite keys_set_field_in.
    - rewrite set_field_fresh by done. rewrite map_app. apply elem_of_app. by left. }
  destruct (truthy (get_prop h2 (event b) "outcome")) eqn:Ht; cbn [negb].
  - exists fs2. split_and!; try done.
    + intros k K1 K2 K3. unfold fs2, fs1. by rewrite !assoc_set_field_ne.
    + intros k Hk. by apply Hkeys, Hkeys.
  - eexists. split; [by apply set_prop_lookup_obj|]. split_and!.
    + by rewrite assoc_set_field_ne.
    + by rewrite assoc_set_field_ne.
    + erewrite get_prop_set_prop_eq by done.
      by destruct (resolve_outcome h2 (event b) outcome statusCode).
    + intros k K1 K2 K3. unfold fs2, fs1. by rewrite !assoc_set_field_ne.
    + intros k Hk. by apply Hkeys, Hkeys, Hkeys.
Qed.

Lemma truthy_snapshot l h fs k :
  h !! l = Some (Obj fs) →
  truthy (get_prop (snapshot_object l h).2 (snapshot_object l h).1 k)
  = truthy (get_prop h l k).
Proof.
  intros Hl. pose proof (snapshot_get_prop l h fs k Hl) as H.
  destruct (get_prop h l k) as [[| | | | |r]|]; try by rewrite H.
  by destruct H as [r' ->].
Qed.



Lemma normalizeError_strings h err :
  ∃ t m, assoc "type" (normalizeError h err) = Some (VStr t)
         ∧ assoc "message" (normalizeError h err) = Some (VStr m)
         ∧ (∀ name message props, err = ErrorInstance name message props →
              t ≠ "" ∧ m ≠ ""
              ∧ (name ≠ "" → t = name) ∧ (message ≠ "" → m = message)).
Proof.
  destruct err as [name message props|v].
  - cbn [normalizeError app assoc String.eqb Ascii.eqb Bool.eqb].
    eexists _, _. split; [reflexivity|]. split; [reflexivity|].
    intros ? ? ? [= <- <- <-]. unfold or_default.
    destruct (String.eqb_spec name ""), (String.eqb_spec message ""); by subst.
  - destruct v as [| | | | |l]; cbn [normalizeError].
    1-5: eexists _, _; split; [reflexivity|]; split; [reflexivity|]; done.
    destruct (get_prop h l "type") as [[| | | | |?]|];
      destruct (get_prop h l "message") as [[| | | | |?]|];
      eexists _, _; (split; [reflexivity|]; split; [reflexivity|]; done).
Qed.



Lemma keys_set_field_mono (F : list (string * value)) k x y :
  k ∈ map fst F → k ∈ map fst (set_field F x y).
Proof.
  intros Hk. destruct (decide (x ∈ map fst F)) as [Hx|Hx].
  - by rewrite keys_set_field_in.
  - rewrite set_field_fresh by done. rewrite map_app. apply elem_of_app. by left.
Qed.

Lemma keys_spread_mono (fs into : list (string * value)) k :
  k ∈ map fst into → k ∈ map fst (spread fs into).
Proof.
  revert into. unfold spread.
  induction fs as [|[x y] fs IH]; intros into Hk; [done|].
  cbn [fold_left]. apply IH. by apply keys_set_field_mono.
Qed.

Lemma merge_loop_keys recurse s result :
  (∀ t' s', allocates_only (recurse t' s')) →
  ∀ ks hacc F,
    hacc !! result = Some (Obj F) →
    ∃ F', fold_left (merge_key recurse s result) ks hacc !! result = Some (Obj F')
          ∧ ∀ k, k ∈ map fst F → k ∈ map fst F'.
Proof.
  intros Hrec ks. induction ks as [|key ks IH]; intros hacc F Hres.
  - by exists F.
  - cbn [fold_left].
    assert (Hlt : (result < length hacc)%nat) by by apply lookup_lt_Some in Hres.
    assert (Hstep : ∃ v, merge_key recurse s result hacc key !! result
                         = Some (Obj (set_field F key v))).
    { destruct (merge_key_cases recurse s result hacc key)
        as [[_ ->]|(sl & tl & _ & _ & _ & _ & ->)].
      - eexists. by apply set_prop_lookup_obj.
      - destruct (Hrec tl sl hacc) as (_ & Hlen & Hfr).
        eexists. apply set_prop_lookup_obj. by rewrite Hfr. }
    destruct Hstep as (v & Hstep).
    destruct (IH _ _ Hstep) as (F' & HF' & Hk).
    exists F'. split; [done|]. intros k Hin. by apply Hk, keys_set_field_mono.
Qed.

Lemma mergeDeep_from_keys remaining t s h fs :
  h !! t = Some (Obj fs) →
  ∃ F', (mergeDeep_from remaining t s h).2 !! (mergeDeep_from remaining t s h).1
        = Some (Obj F')
        ∧ ∀ k, k ∈ map fst fs → k ∈ map fst F'.
Proof.
  intros Ht.
  assert (Hsp : ∀ k, k ∈ map fst fs → k ∈ map fst (spread (own_fields h t) [])).
  { intros k Hk. unfold own_fields. rewrite Ht.
    apply list_elem_of_fmap in Hk as ([k0 v] & -> & Hin). cbn [fst].
    clear Ht. revert Hin.
    generalize (@nil (string * value)). unfold spread.
    induction fs as [|[x y] fs IH]; intros acc Hin; [by apply elem_of_nil in Hin|].
    cbn [fold_left]. apply elem_of_cons in Hin as [[= <- <-]|Hin].
    - apply (keys_spread_mono fs). destruct (decide (k0 ∈ map fst acc)) as [Hx|Hx].
      + by rewrite keys_set_field_in.
      + rewrite set_field_fresh by done. rewrite map_app. apply elem_of_app.
        right. cbn. left.
    - by apply IH. }
  destruct remaining as [|remaining].
  - cbn [mergeDeep_from]. eexists. split; [apply alloc_lookup_new|].
    intros k Hk. by apply keys_spread_mono, Hsp.
  - cbn [mergeDeep_from]. unfold alloc. cbn [fst snd].
    destruct (merge_loop_keys (mergeDeep_from remaining) s (length h)
                (mergeDeep_from_allocates remaining) (keys h s)
                (h ++ [Obj (spread (own_fields h t) [])]) _
                (list_lookup_middle _ _ _ _ eq_refl)) as (F' & HF' & Hk).
    exists F'. split; [done|]. intros k Hin. by apply Hk, Hsp.
Qed.

Lemma setPath_walk_head key rest current v h fs :
  h !! current = Some (Obj fs) →
  ∃ x, setPath_walk current (key :: rest) v h !! current
       = Some (Obj (set_field fs key x)).
Proof.
  intros Hcur. destruct rest as [|key2 rest].
  - eexists. by apply set_prop_lookup_obj.
  - rewrite setPath_walk_cons.
    assert (Hlt : (current < length h)%nat) by by apply lookup_lt_Some in Hcur.
    set (fresh := copy_or_empty h (get_prop h current key)).
    set (h2 := set_prop current key (VRef (length h)) (h ++ [Obj fresh])).
    assert (Hnext : h2 !! length h = Some (Obj fresh)).
    { unfold h2. rewrite set_prop_lookup_ne by lia. by apply list_lookup_middle. }
    assert (Hlen2 : length h2 = S (length h)).
    { unfold h2. rewrite set_prop_length, length_app. simpl. lia. }
    destruct (setPath_walk_spec (key2 :: rest) (length h) v h2 fresh ltac:(done) Hnext)
      as (_ & Hframe & _ & _).
    exists (VRef (length h)). rewrite Hframe by lia. unfold h2.
    apply set_prop_lookup_obj. by rewrite lookup_app_l.
Qed.

Lemma setPath_top o path v h fs :
  h !! o = Some (Obj fs) → NoDup (map fst fs) →
  ∃ key x, head (split_on "." path) = Some key
           ∧ (setPath o path v h).2 !! (setPath o path v h).1
             = Some (Obj (set_field fs key x)).
Proof.
  intros Ho Hnd. unfold setPath, alloc, own_fields. cbn [fst snd].
  rewrite Ho, spread_nil_nodup by done.
  destruct (split_on "." path) as [|key rest] eqn:Hp;
    [by destruct (split_on_nonempty "." path)|].
  destruct (setPath_walk_head key rest (length h) v (h ++ [Obj fs]) fs)
    as [x Hx]; [by apply list_lookup_middle|].
  by exists key, x.
Qed.

(** What one call does to the top level of the record. *)
Lemma run_call_key c b w fs :
  store w !! event b = Some (Obj fs) → NoDup (map fst fs) →
  ∃ fs', store (run_call c b w).2 !! event (run_call c b w).1 = Some (Obj fs')
         ∧ NoDup (map fst fs')
         ∧ (∀ k, k ∈ map fst fs → k ∈ map fst fs')
         ∧ (∀ k, touches_key (store w) c k = false → assoc k fs' = assoc k fs).
Proof.
  intros He Hnd.
  destruct (finalized b) eqn:Hf.
  { exists fs. destruct c; cbn [run_call]; unfold enrich, set, markError;
      rewrite Hf; cbn [fst snd store warn]; by split_and!. }
  destruct c as [o|path v|err]; cbn [run_call].
  - unfold enrich. rewrite Hf. unfold mergeDeep, mergeDeep_at.
    destruct (mergeDeep_from_keeps (MAX_MERGE_DEPTH - 0) (event b) o (store w))
      as (F' & HF' & Hnd' & Hk).
    destruct (mergeDeep_from_keys (MAX_MERGE_DEPTH - 0) (event b) o (store w) fs He)
      as (F'' & HF'' & Hkeys).
    destruct (mergeDeep_from _ _ _ _) as [e' h']. cbn [fst snd event store with_store] in *.
    assert (F'' = F') as -> by congruence.
    exists F'. split_and!; try done.
    intros k Hk'. unfold touches_key in Hk'. cbn [writes_key marks_error] in Hk'.
    rewrite orb_false_r in Hk'. apply bool_decide_eq_false in Hk'.
    rewrite Hk by done. unfold own_fields. rewrite He. by rewrite spread_nil_nodup.
  - unfold set. rewrite Hf.
    destruct (setPath_top (event b) path v (store w) fs He Hnd) as (key & x & Hh & Hx).
    destruct (setPath _ _ _ _) as [e' h']. cbn [fst snd event store with_store] in *.
    eexists. split; [exact Hx|]. split_and!.
    + by apply nodup_set_field.
    + intros k Hk. by apply keys_set_field_mono.
    + intros k Hk'. unfold touches_key in Hk'. cbn [writes_key marks_error] in Hk'.
      rewrite orb_false_r in Hk'. apply bool_decide_eq_false in Hk'.
      apply assoc_set_field_ne. congruence.
  - unfold markError. rewrite Hf. unfold alloc. cbn [fst snd store with_store event].
    assert (Hlt : (event b < length (store w))%nat) by by eapply lookup_lt_Some.
    set (h1 := store w ++ [Obj (normalizeError (store w) err)]).
    assert (He1 : h1 !! event b = Some (Obj fs)) by (unfold h1; by rewrite lookup_app_l).
    set (h2 := set_prop (event b) "error" (VRef (length (store w))) h1).
    assert (He2 : h2 !! event b
                  = Some (Obj (set_field fs "error" (VRef (length (store w))))))
      by by apply set_prop_lookup_obj.
    assert (Hne : ∀ k, touches_key (store w) (CallMarkError err) k = false →
                       k ≠ "error" ∧ k ≠ "outcome").
    { intros k Hk. unfold touches_key in Hk. cbn [writes_key marks_error orb andb] in Hk.
      apply orb_false_iff in Hk as [K1 K2].
      apply String.eqb_neq in K1, K2. done. }
    destruct (negb _).
    + eexists. split; [by apply set_prop_lookup_obj|]. split_and!.
      * by do 2 apply nodup_set_field.
      * intros k Hk. by do 2 apply keys_set_field_mono.
      * intros k Hk. destruct (Hne k Hk). by rewrite !assoc_set_field_ne.
    + eexists. split; [exact He2|]. split_and!.
      * by apply nodup_set_field.
      * intros k Hk. by apply keys_set_field_mono.
      * intros k Hk. destruct (Hne k Hk). by rewrite !assoc_set_field_ne.
Qed.

Lemma run_calls_key cs : ∀ b w fs,
  store w !! event b = Some (Obj fs) → NoDup (map fst fs) →
  ∃ fs', store (run_calls cs b w).2 !! event (run_calls cs b w).1 = Some (Obj fs')
         ∧ NoDup (map fst fs')
         ∧ (∀ k, k ∈ map fst fs → k ∈ map fst fs')
         ∧ (∀ k, key_untouched k cs b w = true → assoc k fs' = assoc k fs).
Proof.
  induction cs as [|c cs IH]; intros b w fs He Hnd.
  - exists fs. by split_and!.
  - cbn [run_calls key_untouched].
    destruct (run_call_key c b w fs He Hnd) as (fs1 & H1 & Hnd1 & Hk1 & Ha1).
    destruct (run_call c b w) as [b' w']. cbn [fst snd] in *.
    destruct (IH b' w' fs1 H1 Hnd1) as (fs2 & H2 & Hnd2 & Hk2 & Ha2).
    exists fs2. split_and!; try done.
    + intros k Hk. by apply Hk2, Hk1.
    + intros k Hk. apply andb_true_iff in Hk as [Hc Hrest].
      apply negb_true_iff in Hc. rewrite Ha2 by done. by apply Ha1.
Qed.

(** X16: business code cannot lose what the record holds at the top
    level: after any sequence of [enrich], [set] and [markError] every key
    the builder started with is still there, and a key that no call writes
    still has the value it started with. *)
Theorem calls_keep_top_level_keys (initialData : loc) (start : Z) (w : world)
    (cs : list call) :
  let bw0 := createEventBuilder initialData start w in
  let bw1 := run_calls cs bw0.1 bw0.2 in
  (∀ k, k ∈ keys (store bw0.2) (event bw0.1) → k ∈ keys (store bw1.2) (event bw1.1))
  ∧ (∀ k, key_untouched k cs bw0.1 bw0.2 = true →
          get_own (store bw1.2) (event bw1.1) k
          = get_own (store bw0.2) (event bw0.1) k)
  ∧ (∀ k, k ∈ keys (store w) initialData → k ∈ keys (store bw1.2) (event bw1.1)).
Proof.
  intros bw0 bw1.
  set (fs := spread (own_fields (store w) initialData) []).
  assert (H0 : store bw0.2 !! event bw0.1 = Some (Obj fs)).
  { unfold bw0, createEventBuilder, alloc. cbn [fst snd store with_store event].
    by apply list_lookup_middle. }
  assert (Hnd : NoDup (map fst fs)) by (apply nodup_spread; constructor).
  destruct (run_calls_key cs bw0.1 bw0.2 fs H0 Hnd) as (fs' & H1 & _ & Hk & Ha).
  fold bw1 in H1.
  assert (K1 : ∀ k, k ∈ keys (store bw0.2) (event bw0.1) →
                    k ∈ keys (store bw1.2) (event bw1.1)).
  { intros k. unfold keys, own_fields. rewrite H0, H1. apply Hk. }
  split; [done|]. split.
  - intros k Hu. unfold get_own. rewrite H0, H1. by apply Ha.
  - intros k Hin. apply K1. unfold keys at 1, own_fields at 1. rewrite H0.
    unfold fs, keys in *. apply list_elem_of_fmap in Hin as ([k0 v] & -> & Hin).
    cbn [fst]. clear -Hin. revert Hin. generalize (@nil (string * value)).
    unfold spread.
    induction (own_fields (store w) initialData) as [|[x y] l IH]; intros acc Hin;
      [by apply elem_of_nil in Hin|].
    cbn [fold_left]. apply elem_of_cons in Hin as [[= <- <-]|Hin]; [|by apply IH].
    apply (keys_spread_mono l). destruct (decide (k0 ∈ map fst acc)) as [Hx|Hx].
    + by rewrite keys_set_field_in.
    + rewrite set_field_fresh by done. rewrite map_app. apply elem_of_app.
      right. cbn. left.
Qed.

(** A call only writes to the record of the builder and to objects it
    allocates. *)
Lemma run_call_frame c b w :
  (event b < length (store w))%nat →
  (length (store w) ≤ length (store (run_call c b w).2))%nat
  ∧ (∀ l, (l < length (store w))%nat → l ≠ event b →
          store (run_call c b w).2 !! l = store w !! l)
  ∧ (event (run_call c b w).1 = event b
     ∨ (length (store w) ≤ event (run_call c b w).1)%nat)
  ∧ (event (run_call c b w).1 < length (store (run_call c b w).2))%nat.
Proof.
  intros Hlt.
  destruct (finalized b) eqn:Hf.
  { destruct c; cbn [run_call]; unfold enrich, set, markError;
      rewrite Hf; cbn [fst snd store warn]; split_and!; try done; by left. }
  destruct c as [o|path v|err]; cbn [run_call].
  - unfold enrich. rewrite Hf. unfold mergeDeep, mergeDeep_at.
    destruct (mergeDeep_from_allocates (MAX_MERGE_DEPTH - 0) (event b) o (store w))
      as (H1 & H2 & H3).
    destruct (mergeDeep_from _ _ _ _) as [e' h']. cbn [fst snd event store with_store] in *.
    split_and!; [lia| |right; lia|lia]. intros l Hl _. by apply H3.
  - unfold set. rewrite Hf.
    destruct (setPath_spec (event b) path v (store w)) as (H1 & H2 & H3 & _).
    destruct (setPath _ _ _ _) as [e' h']. cbn [fst snd event store with_store] in *.
    split_and!; [lia| |right; lia|lia]. intros l Hl _. by apply H3.
  - unfold markError. rewrite Hf. unfold alloc. cbn [fst snd store with_store event].
    assert (Hlen : ∀ h', length (if negb (is_string (get_prop
                     (set_prop (event b) "error" (VRef (length (store w))) h')
                     (event b) "outcome") "aborted")
                   then set_prop (event b) "outcome" (VStr "error")
                          (set_prop (event b) "error" (VRef (length (store w))) h')
                   else set_prop (event b) "error" (VRef (length (store w))) h')
                 = length h').
    { intros h'. destruct (negb _); by rewrite !set_prop_length. }
    rewrite Hlen, length_app. cbn [length].
    split_and!; [lia| |by left|lia].
    intros l Hl Hne. destruct (negb _); rewrite !set_prop_lookup_ne by done;
      by rewrite lookup_app_l.
Qed.

Lemma run_calls_frame cs : ∀ b w lo hi,
  (event b < length (store w))%nat → (hi ≤ length (store w))%nat →
  (event b < lo ∨ hi ≤ event b)%nat →
  (∀ l, (lo ≤ l < hi)%nat → store (run_calls cs b w).2 !! l = store w !! l)
  ∧ (hi ≤ length (store (run_calls cs b w).2))%nat
  ∧ (event (run_calls cs b w).1 < lo ∨ hi ≤ event (run_calls cs b w).1)%nat
  ∧ (event (run_calls cs b w).1 < length (store (run_calls cs b w).2))%nat.
Proof.
  induction cs as [|c cs IH]; intros b w lo hi Hlt Hhi Hout; [done|].
  cbn [run_calls].
  destruct (run_call_frame c b w Hlt) as (H1 & H2 & H3 & H4).
  destruct (run_call c b w) as [b' w']. cbn [fst snd] in *.
  destruct (IH b' w' lo hi H4 ltac:(lia) ltac:(lia)) as (K1 & K2 & K3 & K4).
  split_and!; try done.
  intros l Hl. rewrite K1 by done. apply H2; lia.
Qed.

Lemma finalize_frame outcome statusCode now b w :
  (event b < length (store w))%nat →
  (length (store w) ≤ length (store (finalize outcome statusCode now b w).2.2))%nat
  ∧ ∀ l, (l < length (store w))%nat → l ≠ event b →
         store (finalize outcome statusCode now b w).2.2 !! l = store w !! l.
Proof.
  intros Hlt. rewrite finalize_unfold. cbn zeta. cbn [fst snd store with_store].
  set (h := finalize_store outcome statusCode now b (store w)).
  assert (Hh : length h = length (store w)
               ∧ ∀ l, l ≠ event b → h !! l = store w !! l).
  { unfold h, finalize_store. destruct (finalized b); [done|].
    destruct (negb _); rewrite !set_prop_length; (split; [done|]);
      intros l Hl; by rewrite !set_prop_lookup_ne. }
  destruct Hh as [Hlen Hh].
  destruct (snapshot_object_frame (event b) h) as [H1 H2].
  split; [lia|]. intros l Hl Hne. rewrite H2 by lia. by apply Hh.
Qed.

Lemma snapshot_survives l h (h' : heap) :
  heap_ok h = true → (l < length h)%nat →
  (∀ l0, (length h ≤ l0 < length (snapshot_object l h).2)%nat →
         h' !! l0 = (snapshot_object l h).2 !! l0) →
  deep_equal h' (VRef (snapshot_object l h).1) h (VRef l).
Proof.
  intros Hok Hl Hag n.
  destruct (snapshot_object_spec l h Hok Hl) as (Hok' & Hge & Hlt & Heq & Hreach).
  rewrite <- (Heq n). apply unfold_local.
  intros m l0 Hin. apply Hag. split; [by eapply Hreach|].
  eapply (reach_closed (length (snapshot_object l h).2)); [by apply heap_ok_closed| |done].
  by apply value_ok_lt.
Qed.

(** X17: what [get()] returns is a snapshot for good: after any later
    sequence of [enrich], [set] and [markError] and after [finalize], it
    still reads as the record did when [get()] was called. *)
Theorem get_snapshot_is_stable (b : EventBuilderState) (w : world)
    (cs : list call) (outcome : RequestOutcome) (statusCode now : Z) :
  heap_ok (store w) = true → (event b < length (store w))%nat →
  let g := get b w in
  let bw := run_calls cs b g.2 in
  let r := finalize outcome statusCode now bw.1 bw.2 in
  deep_equal (store g.2) (VRef g.1) (store w) (VRef (event b))
  ∧ deep_equal (store bw.2) (VRef g.1) (store w) (VRef (event b))
  ∧ deep_equal (store r.2.2) (VRef g.1) (store w) (VRef (event b))
  ∧ g.1 ≠ event b.
Proof.
  intros Hok Hlt g bw r.
  destruct (snapshot_object_spec (event b) (store w) Hok Hlt)
    as (_ & Hge & Hlt' & _ & _).
  destruct (snapshot_object_frame (event b) (store w)) as [Hlen _].
  assert (Hg : g = ((snapshot_object (event b) (store w)).1,
                    with_store w (snapshot_object (event b) (store w)).2)).
  { unfold g, get. by destruct (snapshot_object _ _). }
  set (s := snapshot_object (event b) (store w)) in *.
  assert (Hg1 : g.1 = s.1) by by rewrite Hg.
  assert (Hg2 : store g.2 = s.2) by by rewrite Hg.
  destruct (run_calls_frame cs b g.2 (length (store w)) (length s.2))
    as (K1 & K2 & K3 & K4); [rewrite Hg2; lia|rewrite Hg2; lia|left; lia|].
  fold bw in K1, K2, K3, K4.
  destruct (finalize_frame outcome statusCode now bw.1 bw.2 K4) as [F1 F2].
  fold r in F1, F2.
  rewrite Hg1. unfold s in *. split_and!.
  - apply snapshot_survives; [done|done|]. intros l0 Hl0. by rewrite Hg2.
  - apply snapshot_survives; [done|done|]. intros l0 Hl0.
    rewrite K1 by done. by rewrite Hg2.
  - apply snapshot_survives; [done|done|]. intros l0 Hl0.
    rewrite F2 by lia. rewrite K1 by done. by rewrite Hg2.
  - lia.
Qed.

Lemma get_snapshot_is_stable_witness :
  let w := World [Obj [("user", VRef 1)]; Obj [("id", VNum 7)]; Obj [("user", VRef 3)];
                  Obj [("id", VNum 8)]] [] in
  let b := BuilderState 0 0 false false in
  let g := get b w in
  let bw := run_calls [CallEnrich 2; CallMarkError (Thrown (VStr "x"))] b g.2 in
  unfold 2 (store (finalize Error 500 9 bw.1 bw.2).2.2) (VRef g.1)
  = TObj [("user", TObj [("id", TNum 7)])].
Proof.
  intros w b g bw.
  destruct (get_snapshot_is_stable b w
              [CallEnrich 2; CallMarkError (Thrown (VStr "x"))] Error 500 9)
    as (_ & _ & H & _); [reflexivity | cbn; lia |].
  etrans; [apply (H 2%nat)|]. reflexivity.
Defined.

End BuilderFacts.

Section RedactionShape.

Import Redact.

Lemma includes_repeat_star n : (0 < n)%nat → includes "*" (repeat_char star n) = true.
Proof. destruct n; [lia|done]. Qed.

Lemma mask_local_star local : includes "*" (mask_local local) = true.
Proof.
  unfold mask_local. destruct (1 <? String.length local)%nat; [|done].
  rewrite includes_app, includes_repeat_star by lia. apply orb_true_r.
Qed.

Lemma split_on_two c s :
  includes c s = true → ∃ a b rest, split_on c s = a :: b :: rest.
Proof.
  induction s as [|x s IH]; [done|]. cbn [includes split_on].
  destruct (Ascii.eqb x c) eqn:Hx.
  - intros _. destruct (split_on c s) as [|p ps] eqn:Hs;
      [by destruct (split_on_nonempty c s)|]. by eexists _, _, _.
  - cbn [orb]. intros H. destruct (IH H) as (a & b & rest & ->). by eexists _, _, _.
Qed.



Lemma compress_length hs block :
  length hs = 8%nat → length (Sha256.compress hs block) = 8%nat.
Proof.
  intros H. destruct hs as [|a [|b [|c [|d [|e [|f [|g [|hh [|? ?]]]]]]]]]; try done.
  unfold Sha256.compress.
  by destruct (fold_left _ _ _) as [[[[[[[? ?] ?] ?] ?] ?] ?] ?].
Qed.

Lemma blocks_length n : ∀ bytes hs,
  length hs = 8%nat → length (Sha256.blocks n bytes hs) = 8%nat.
Proof.
  induction n as [|n IH]; intros bytes hs H; [done|].
  cbn [Sha256.blocks]. by apply IH, compress_length.
Qed.

Lemma be_bytes_spec n : ∀ x,
  length (Sha256.be_bytes n x) = n
  ∧ Forall (λ b, 0 ≤ b < 256)%Z (Sha256.be_bytes n x).
Proof.
  induction n as [|n IH]; intros x; [done|].
  cbn [Sha256.be_bytes]. destruct (IH (Z.shiftr x 8)) as [H1 H2].
  rewrite length_app, H1. split; [cbn; lia|].
  apply Forall_app. split; [done|]. constructor; [|done].
  change 255%Z with (Z.ones 8). rewrite Z.land_ones by lia.
  apply Z.mod_pos_bound. lia.
Qed.

Lemma hex_digit_table :
  forallb (λ n, bool_decide (Sha256.hex_digit (Z.of_nat n)
                             ∈ list_ascii_of_string "0123456789abcdef"))
    (seq 0 16) = true.
Proof. reflexivity. Qed.

Lemma hex_digit_ok x :
  (0 ≤ x < 16)%Z → Sha256.hex_digit x ∈ list_ascii_of_string "0123456789abcdef".
Proof.
  intros Hx. pose proof hex_digit_table as Ht. rewrite forallb_forall in Ht.
  specialize (Ht (Z.to_nat x) ltac:(apply in_seq; lia)).
  apply bool_decide_eq_true in Ht. by rewrite Z2Nat.id in Ht by lia.
Qed.

Lemma hex_bytes_spec bytes :
  Forall (λ b, 0 ≤ b < 256)%Z bytes →
  String.length (String.concat "" (map Sha256.hex_byte bytes))
  = (2 * length bytes)%nat
  ∧ Forall (λ c, c ∈ list_ascii_of_string "0123456789abcdef")
      (list_ascii_of_string (String.concat "" (map Sha256.hex_byte bytes))).
Proof.
  induction 1 as [|b bytes Hb Hall [IH1 IH2]]; [by split|].
  assert (Hc : String.concat "" (map Sha256.hex_byte (b :: bytes))
               = String (Sha256.hex_digit (Z.shiftr b 4))
                   (String (Sha256.hex_digit (Z.land b 15))
                      (String.concat "" (map Sha256.hex_byte bytes)))).
  { cbn [map String.concat]. destruct (map Sha256.hex_byte bytes) eqn:Hm; [done|].
    reflexivity. }
  rewrite Hc. cbn [String.length list_ascii_of_string]. rewrite IH1.
  split; [cbn [length]; lia|].
  constructor; [|constructor; [|done]].
  - apply hex_digit_ok. rewrite Z.shiftr_div_pow2 by lia.
    change (2 ^ 4)%Z with 16%Z. Z.div_mod_to_equations. lia.
  - apply hex_digit_ok. change 15%Z with (Z.ones 4). rewrite Z.land_ones by lia.
    apply Z.mod_pos_bound. lia.
Qed.

(** X19: whatever the value, its hash is a text of exactly 64 characters,
    all of them lowercase hexadecimal digits. *)
Theorem hashValue_shape (value : string) :
  String.length (hashValue value) = 64%nat
  ∧ Forall (λ c, c ∈ list_ascii_of_string "0123456789abcdef")
      (list_ascii_of_string (hashValue value)).
Proof.
  unfold hashValue, Sha256.sha256_hex, Sha256.hex.
  set (hs := Sha256.digest (Sha256.utf8 value)).
  assert (Hlen : length hs = 8%nat) by by apply blocks_length.
  assert (Hb : length (flat_map (Sha256.be_bytes 4) hs) = 32%nat
               ∧ Forall (λ b, 0 ≤ b < 256)%Z (flat_map (Sha256.be_bytes 4) hs)).
  { clear -Hlen. assert (H : ∀ l : list Z,
        length (flat_map (Sha256.be_bytes 4) l) = (4 * length l)%nat
        ∧ Forall (λ b, 0 ≤ b < 256)%Z (flat_map (Sha256.be_bytes 4) l)).
    { induction l as [|x l [IH1 IH2]]; [by split|].
      cbn [flat_map]. destruct (be_bytes_spec 4 x) as [B1 B2].
      rewrite length_app, B1, IH1. split; [cbn [length]; lia|].
      by apply Forall_app. }
    destruct (H hs) as [H1 H2]. rewrite Hlen in H1. done. }
  destruct Hb as [Hb1 Hb2].
  destruct (hex_bytes_spec _ Hb2) as [H1 H2]. rewrite Hb1 in H1. done.
Qed.

Lemma set_values_from (xs : list string) : ∀ acc : list string,
  NoDup acc →
  let r := fold_left (λ acc x, if bool_decide (x ∈ acc) then acc else acc ++ [x])
             xs acc in
  NoDup r ∧ (∀ x, x ∈ r ↔ x ∈ acc ∨ x ∈ xs) ∧ acc `prefix_of` r.
Proof.
  induction xs as [|x xs IH]; intros acc Hnd.
  - cbn. split_and!; [done| |done]. intros x. rewrite elem_of_nil. tauto.
  - cbn [fold_left]. destruct (bool_decide_reflect (x ∈ acc)) as [Hin|Hin].
    + destruct (IH acc Hnd) as (H1 & H2 & H3). split_and!; [done| |done].
      intros y. rewrite H2, elem_of_cons. split; [tauto|].
      intros [?|[->|?]]; tauto.
    + destruct (IH (acc ++ [x])) as (H1 & H2 & H3).
      { apply NoDup_app. split_and!; [done| |apply NoDup_singleton].
        intros y Hy Hy'. apply list_elem_of_singleton in Hy'. by subst. }
      split_and!; [done| |].
      * intros y. rewrite H2, elem_of_app, list_elem_of_singleton, elem_of_cons. tauto.
      * etrans; [|exact H3]. by apply prefix_app_r.
Qed.



End RedactionShape.

Section SchemaModes.

Import Merge Redact Schema.

Lemma check_required_fold h event ps (r0 : report) :
  fold_left (check_required h event) ps r0
  = (r0.1 ++ map (λ p, "Missing required field: " +:+ p)
                 (missing_built_in h event ps),
     r0.2).
Proof.
  revert r0. induction ps as [|p ps IH]; intros [es ws].
  - cbn. by rewrite app_nil_r.
  - cbn [fold_left missing_built_in List.filter]. rewrite IH.
    unfold check_required, push_error.
    destruct (hasPath h event p); cbn [negb fst snd map]; [done|].
    by rewrite <- app_assoc.
Qed.

Lemma fold_errors_prefix {A} (f : report → A → report) (xs : list A) :
  (∀ r x, r.1 `prefix_of` (f r x).1) →
  ∀ r, r.1 `prefix_of` (fold_left f xs r).1.
Proof.
  intros Hf. induction xs as [|x xs IH]; intros r; [done|].
  cbn [fold_left]. etrans; [apply Hf|apply IH].
Qed.

Lemma fold_errors_same {A} (f : report → A → report) (xs : list A) :
  (∀ r x, (f r x).1 = r.1) →
  ∀ r, (fold_left f xs r).1 = r.1.
Proof.
  intros Hf. induction xs as [|x xs IH]; intros r; [done|].
  cbn [fold_left]. by rewrite IH, Hf.
Qed.

Lemma check_type_prefix h event strict (r : report) pd :
  r.1 `prefix_of` (check_type h event strict r pd).1.
Proof.
  unfold check_type. destruct (hasPath _ _ _); [|done].
  destruct (negb _); [|done]. destruct strict; [|done]. by apply prefix_app_r.
Qed.

Lemma check_unknown_prefix known mode strict (r : report) key :
  r.1 `prefix_of` (check_unknown known mode strict r key).1.
Proof.
  unfold check_unknown. destruct (negb _); [|done].
  destruct mode; try done. destruct strict; [|done]. by apply prefix_app_r.
Qed.

Lemma check_type_lenient h event (r : report) pd :
  (check_type h event false r pd).1 = r.1.
Proof.
  unfold check_type. destruct (hasPath _ _ _); [|done]. by destruct (negb _).
Qed.

Lemma check_unknown_lenient known mode (r : report) key :
  (check_unknown known mode false r key).1 = r.1.
Proof. unfold check_unknown. destruct (negb _); [|done]. by destruct mode. Qed.

(** The errors of a validation start with the missing built-in fields and
    the missing required fields, in this order. *)
Lemma validateSchema_errors h event sc strict :
  (map (λ f, "Missing required built-in field: " +:+ f)
       (missing_built_in h event BUILT_IN_REQUIRED)
   ++ map (λ p, "Missing required field: " +:+ p)
        (missing_built_in h event (required sc)))
  `prefix_of` errors (validateSchema h event (Some sc) strict)
  ∧ (strict = false →
     errors (validateSchema h event (Some sc) strict)
     = map (λ f, "Missing required built-in field: " +:+ f)
         (missing_built_in h event BUILT_IN_REQUIRED)
       ++ map (λ p, "Missing required field: " +:+ p)
            (missing_built_in h event (required sc))).
Proof.
  unfold validateSchema. cbn zeta.
  rewrite check_built_in_fold, check_required_fold. cbn [fst snd app].
  set (r1 := (_, _) : report).
  change (map _ _ ++ map _ _) with r1.1.
  set (r2 := fold_left (check_type h event strict) (fields sc) r1).
  assert (H2 : r1.1 `prefix_of` r2.1)
    by apply fold_errors_prefix, check_type_prefix.
  assert (H2' : strict = false → r2.1 = r1.1).
  { intros ->. apply fold_errors_same, check_type_lenient. }
  destruct (default Allow (unknownMode sc)); cbn [result_of errors]; try done.
  - split.
    + etrans; [exact H2|]. apply fold_errors_prefix, check_unknown_prefix.
    + intros ->. rewrite fold_errors_same; [by apply H2'|].
      apply check_unknown_lenient.
  - split.
    + etrans; [exact H2|]. apply fold_errors_prefix, check_unknown_prefix.
    + intros ->. rewrite fold_errors_same; [by apply H2'|].
      apply check_unknown_lenient.
Qed.

Lemma validateSchema_without_schema_errors h event strict :
  errors (validateSchema h event None strict)
  = map (λ f, "Missing required built-in field: " +:+ f)
      (missing_built_in h event BUILT_IN_REQUIRED).
Proof. unfold validateSchema. cbn zeta. by rewrite check_built_in_fold. Qed.

Lemma valid_iff_no_errors h event schema strict :
  valid (validateSchema h event schema strict) = true
  ↔ errors (validateSchema h event schema strict) = [].
Proof.
  unfold validateSchema. cbn zeta. destruct schema as [sc|];
    cbn [result_of valid errors]; rewrite Nat.eqb_eq; by rewrite length_zero_iff_nil.
Qed.

Lemma missing_elem h event f fs :
  f ∈ fs → hasPath h event f = false → f ∈ missing_built_in h event fs.
Proof.
  intros Hin Hf. unfold missing_built_in. apply list_elem_of_In, filter_In.
  split; [by apply list_elem_of_In|]. by rewrite Hf.
Qed.

(** X21: a record that lacks one of the eight built-in fields is never
    valid: with or without a schema, strict or not, validation fails and
    reports the field by name. *)
Theorem missing_built_in_field_is_invalid (h : heap) (event : loc)
    (schema : option CanonSchema) (strict : bool) (f : string) :
  f ∈ BUILT_IN_REQUIRED → hasPath h event f = false →
  valid (validateSchema h event schema strict) = false
  ∧ ("Missing required built-in field: " +:+ f)
    ∈ errors (validateSchema h event schema strict).
Proof.
  intros Hin Hf.
  assert (Hm : ("Missing required built-in field: " +:+ f)
               ∈ map (λ f, "Missing required built-in field: " +:+ f)
                   (missing_built_in h event BUILT_IN_REQUIRED)).
  { apply list_elem_of_fmap. exists f. split; [done|]. by apply missing_elem. }
  assert (He : ("Missing required built-in field: " +:+ f)
               ∈ errors (validateSchema h event schema strict)).
  { destruct schema as [sc|].
    - destruct (validateSchema_errors h event sc strict) as [[rest ->] _].
      apply elem_of_app. left. apply elem_of_app. by left.
    - by rewrite validateSchema_without_schema_errors. }
  split; [|done].
  destruct (valid _) eqn:Hv; [|done].
  apply valid_iff_no_errors in Hv. rewrite Hv in He. by apply elem_of_nil in He.
Qed.

Lemma missing_built_in_field_is_invalid_witness :
  valid (validateSchema
           [Obj [("timestamp", VStr "t"); ("request_id", VStr "r"); ("method", VStr "GET");
                 ("path", VStr "/"); ("status_code", VNum 200);
                 ("duration_ms", VNum 1); ("outcome", VStr "success")]] 0
           None false) = false.
Proof.
  refine (proj1 (missing_built_in_field_is_invalid _ 0 None false "service" _ _)).
  - apply (bool_decide_unpack _). reflexivity.
  - reflexivity.
Defined.

(** X22: without strict mode only missing fields make a record invalid.
    The errors are then exactly the missing built-in fields followed by the
    missing required fields of the schema; type mismatches and unknown
    fields are warnings.  Strict mode can only add errors, so a record
    valid in strict mode is valid without it. *)
Theorem lenient_validation_checks_presence (h : heap) (event : loc)
    (sc : CanonSchema) :
  errors (validateSchema h event (Some sc) false)
  = map (λ f, "Missing required built-in field: " +:+ f)
      (missing_built_in h event BUILT_IN_REQUIRED)
    ++ map (λ p, "Missing required field: " +:+ p)
         (missing_built_in h event (required sc))
  ∧ (valid (validateSchema h event (Some sc) false) = true
     ↔ (∀ f, f ∈ BUILT_IN_REQUIRED → hasPath h event f = true)
       ∧ (∀ p, p ∈ required sc → hasPath h event p = true))
  ∧ errors (validateSchema h event (Some sc) false)
    `prefix_of` errors (validateSchema h event (Some sc) true)
  ∧ (valid (validateSchema h event (Some sc) true) = true →
     valid (validateSchema h event (Some sc) false) = true).
Proof.
  destruct (validateSchema_errors h event sc false) as [_ He].
  specialize (He eq_refl).
  destruct (validateSchema_errors h event sc true) as [Hp _].
  split; [done|]. split; [|split].
  - rewrite valid_iff_no_errors, He. split.
    + intros H. apply app_eq_nil in H as [H1 H2].
      apply fmap_nil_inv in H1, H2. by rewrite !missing_built_in_nil in H1, H2.
    + intros [H1 H2]. apply missing_built_in_nil in H1, H2. by rewrite H1, H2.
  - by rewrite He.
  - rewrite !valid_iff_no_errors. intros Hs. rewrite Hs in Hp.
    rewrite He. by apply prefix_nil_inv in Hp.
Qed.

Lemma assoc_set_definition_eq fs k d : assoc k (set_definition fs k d) = Some d.
Proof.
  induction fs as [|[k' d'] fs IH]; cbn; [by rewrite String.eqb_refl|].
  destruct (String.eqb k' k) eqn:E; cbn; by rewrite E.
Qed.

Lemma assoc_set_definition_ne fs k k' d :
  k ≠ k' → assoc k' (set_definition fs k d) = assoc k' fs.
Proof.
  intros Hne. induction fs as [|[k0 d0] fs IH]; cbn.
  - by apply String.eqb_neq in Hne as ->.
  - destruct (String.eqb k0 k) eqn:E; cbn; [|by rewrite IH].
    apply String.eqb_eq in E as ->. by apply String.eqb_neq in Hne as ->.
Qed.

Lemma keys_set_definition_mono fs k k' d :
  k' ∈ map fst fs → k' ∈ map fst (set_definition fs k d).
Proof.
  induction fs as [|[k0 d0] fs IH]; cbn; [by intros ?%elem_of_nil|].
  intros [->|Hin]%elem_of_cons; destruct (String.eqb k0 k); cbn;
    try (by left); right; [done|by apply IH].
Qed.

Lemma spread_definitions_spec fs : ∀ into,
  (∀ k, k ∈ map fst into → k ∈ map fst (spread_definitions fs into))
  ∧ (∀ k, k ∉ map fst fs → assoc k (spread_definitions fs into) = assoc k into)
  ∧ (NoDup (map fst fs) →
     ∀ k d, (k, d) ∈ fs → assoc k (spread_definitions fs into) = Some d).
Proof.
  unfold spread_definitions.
  induction fs as [|[k0 d0] fs IH]; intros into.
  - split_and!; [done|done|]. intros _ k d Hin. by apply elem_of_nil in Hin.
  - cbn [fold_left fst snd map].
    destruct (IH (set_definition into k0 d0)) as (H1 & H2 & H3).
    split_and!.
    + intros k Hk. by apply H1, keys_set_definition_mono.
    + intros k Hk. apply not_elem_of_cons in Hk as [Hne Hk].
      rewrite H2 by done. by apply assoc_set_definition_ne.
    + intros Hnd k d Hin. apply NoDup_cons in Hnd as [Hk0 Hnd].
      apply elem_of_cons in Hin as [[= -> ->]|Hin].
      * rewrite H2 by done. apply assoc_set_definition_eq.
      * by apply H3.
Qed.

Lemma base_keys_plain :
  Forall (λ k, first_segment k = k) (map fst CANON_BASE_FIELDS).
Proof. repeat constructor. Qed.

(** X23: a schema made by [defineCanonSchema] knows Canon's own fields:
    the sixteen base fields are never reported as unknown, whatever the
    unknown-field mode; the user's definitions come on top of the base
    definitions and win where both define a path; and a record all of whose
    top-level keys are base fields is validated as if the mode were
    [allow]. *)
Theorem defineCanonSchema_knows_base_fields (s : PartialCanonSchema) :
  let sc := defineCanonSchema s in
  let user := default [] (given_schema_fields s) in
  (∀ key, key ∈ map fst CANON_BASE_FIELDS → key ∈ getKnownTopLevelKeys sc)
  ∧ (∀ path, path ∉ map fst user →
       assoc path (fields sc) = assoc path CANON_BASE_FIELDS)
  ∧ (NoDup (map fst user) →
     ∀ path d, (path, d) ∈ user → assoc path (fields sc) = Some d)
  ∧ (∀ h event strict,
       (∀ key, key ∈ keys h event → key ∈ map fst CANON_BASE_FIELDS) →
       validateSchema h event (Some sc) strict
       = validateSchema h event
           (Some {| required := required sc; fields := fields sc;
                    unknownMode := Some Allow |}) strict).
Proof.
  intros sc user.
  destruct (spread_definitions_spec user CANON_BASE_FIELDS) as (H1 & H2 & H3).
  assert (Hknown : ∀ key, key ∈ map fst CANON_BASE_FIELDS →
                          key ∈ getKnownTopLevelKeys sc).
  { intros key Hin. unfold getKnownTopLevelKeys.
    apply elem_of_union. left. apply elem_of_union. right.
    apply elem_of_list_to_set.
    pose proof base_keys_plain as Hp. rewrite Forall_forall in Hp.
    rewrite <- (Hp key Hin).
    specialize (H1 key Hin). fold user in H1.
    apply list_elem_of_fmap in H1 as ([k d] & -> & Hkd).
    apply list_elem_of_In, in_map_iff. exists (k, d).
    split; [done|]. by apply list_elem_of_In. }
  split_and!; [done|exact H2|exact H3|].
  intros h event strict Hkeys. unfold validateSchema. cbn zeta.
  cbn [required fields unknownMode default from_option id].
  set (r2 := fold_left (check_type h event strict) _ _).
  assert (Hu : ∀ mode ks r,
             (∀ key, key ∈ ks → key ∈ map fst CANON_BASE_FIELDS) →
             fold_left (check_unknown (getKnownTopLevelKeys sc) mode strict) ks r = r).
  { intros mode ks. induction ks as [|key ks IH]; intros r Hks; [done|].
    cbn [fold_left]. unfold check_unknown at 2.
    rewrite bool_decide_eq_true_2 by (apply Hknown, Hks; left).
    cbn [negb]. apply IH. intros k Hk. apply Hks. by right. }
  destruct (default Allow (unknownMode sc)); [done| |]; by rewrite Hu.
Qed.

End SchemaModes.

Section PipelineFacts.

Import Merge Event Redact Schema Sampling Canon.

Lemma run_calls_unfinalized cs : ∀ b w,
  finalized (run_calls cs b w).1 = finalized b.
Proof.
  induction cs as [|c cs IH]; intros b w; [done|].
  cbn [run_calls].
  assert (Hc : finalized (run_call c b w).1 = finalized b).
  { destruct c; cbn [run_call]; unfold enrich, set, markError;
      destruct (finalized b) eqn:Hf; try done.
    all: try by destruct (mergeDeep _ _ _).
    all: try by destruct (setPath _ _ _ _). }
  destruct (run_call c b w) as [b' w']. cbn [fst snd] in *. by rewrite IH.
Qed.

Lemma snapshot_keys l h fs :
  h !! l = Some (Obj fs) →
  ∃ fs', (snapshot_object l h).2 !! (snapshot_object l h).1 = Some (Obj fs')
         ∧ map fst fs' = map fst fs
         ∧ ∀ k v, assoc k fs = Some v → (∀ r, v ≠ VRef r) → assoc k fs' = Some v.
Proof.
  intros Hl. destruct (snapshot_object_top l h fs Hl) as (vs' & Hs & _ & Hsh).
  exists (zip (map fst fs) vs'). split; [done|]. split.
  - apply fst_zip. apply Forall2_length in Hsh. rewrite !length_map in *. lia.
  - intros k v Hk Hv. pose proof (assoc_zip_shallow fs vs' k Hsh) as Ha.
    rewrite Hk in Ha. destruct v; try done. by destruct (Hv l0).
Qed.

Lemma applyRedaction_off event config schema h :
  config = None ∨ (∃ c, config = Some c ∧ enabled c = false) →
  applyRedaction event config schema h = snapshot_object event h.
Proof.
  intros [->|(c & -> & Hc)]; unfold applyRedaction.
  - by destruct (snapshot_object event h).
  - rewrite Hc. by destruct (snapshot_object event h).
Qed.

(** The record [emitEvent] hands on when redaction is off: the copy of the
    snapshot [finalize] returns. *)
Lemma finalized_copy outcome statusCode now b w fs :
  finalized b = false → store w !! event b = Some (Obj fs) →
  let fin := finalize outcome statusCode now b w in
  let red := snapshot_object fin.1 (store fin.2.2) in
  ∃ fs2, red.2 !! red.1 = Some (Obj fs2)
         ∧ assoc "status_code" fs2 = Some (VNum statusCode)
         ∧ assoc "duration_ms" fs2 = Some (VNum (now - startTime b))
         ∧ (∀ k, k ∈ map fst fs → k ∈ map fst fs2)
         ∧ "status_code" ∈ map fst fs2 ∧ "duration_ms" ∈ map fst fs2
         ∧ "outcome" ∈ map fst fs2.
Proof.
  intros Hf He fin red. unfold red, fin. rewrite finalize_unfold. cbn zeta.
  cbn [fst snd store with_store].
  destruct (finalize_store_fields outcome statusCode now b (store w) fs Hf He)
    as (fs' & Hfs' & Hs & Hd & Ht & _ & Hkeys).
  set (h := finalize_store outcome statusCode now b (store w)) in *.
  destruct (snapshot_keys (event b) h fs' Hfs') as (fs1 & H1 & K1 & A1).
  set (s1 := snapshot_object (event b) h) in *.
  destruct (snapshot_keys s1.1 s1.2 fs1 H1) as (fs2 & H2 & K2 & A2).
  assert (Ho : "outcome" ∈ map fst fs').
  { apply dec_stable. intros Hno. apply assoc_None_keys in Hno.
    by rewrite (get_prop_absent _ _ _ _ Hfs' Hno eq_refl) in Ht. }
  exists fs2. split; [done|]. split_and!.
  - apply A2; [|done]. by apply A1.
  - apply A2; [|done]. by apply A1.
  - intros k Hk. rewrite K2, K1. by apply Hkeys.
  - rewrite K2, K1. apply dec_stable. intros Hno. apply assoc_None_keys in Hno.
    by rewrite Hno in Hs.
  - rewrite K2, K1. apply dec_stable. intros Hno. apply assoc_None_keys in Hno.
    by rewrite Hno in Hd.
  - by rewrite K2, K1.
Qed.

Lemma emitEvent_unfold sg st :
  emitted st = false →
  let cfg := config st in
  let fin := finalize (sig_outcome sg) (sig_status sg) (sig_now sg) (builder st)
               (world_of st) in
  let red := applyRedaction fin.1 (redact cfg) (schema cfg) (store fin.2.2) in
  let validation :=
    validateSchema red.2 red.1 (schema cfg) (default false (strict cfg)) in
  let w2 :=
    World red.2
      (stderr fin.2.2
       ++ (if (0 <? length (warnings validation))%nat
           then log_lines "warning" (requestId st) (warnings validation) else [])
       ++ (if negb (valid validation)
           then log_lines "error" (requestId st) (errors validation) else [])) in
  emitEvent sg st
  = if negb (valid validation) && default false (strict cfg)
    then Lifecycle cfg (requestId st) (debug st) fin.2.1 true w2 (sink_calls st)
    else if negb (debug st)
            && negb (shouldSample red.2 red.1 (sample cfg) (sig_random sg))
    then Lifecycle cfg (requestId st) (debug st) fin.2.1 true w2 (sink_calls st)
    else Lifecycle cfg (requestId st) (debug st) (markEmitted fin.2.1) true w2
           (sink_calls st ++ [red.1]).
Proof.
  intros He. unfold emitEvent. rewrite He. cbn zeta.
  destruct (finalize _ _ _ _ _) as [snap [b w1]]. cbn [fst snd].
  by destruct (applyRedaction _ _ _ _) as [redacted h2].
Qed.

Lemma context_calls_fields cs st :
  emitted (context_calls cs st) = emitted st
  ∧ debug (context_calls cs st) = debug st
  ∧ config (context_calls cs st) = config st
  ∧ sink_calls (context_calls cs st) = sink_calls st
  ∧ builder (context_calls cs st) = (run_calls cs (builder st) (world_of st)).1
  ∧ world_of (context_calls cs st) = (run_calls cs (builder st) (world_of st)).2.
Proof. unfold context_calls. by destruct (run_calls _ _ _). Qed.

Lemma keys_spread_source (fs : list (string * value)) : ∀ into k,
  k ∈ map fst fs → k ∈ map fst (spread fs into).
Proof.
  unfold spread. induction fs as [|[x y] fs IH]; intros into k Hin;
    [by apply elem_of_nil in Hin|].
  cbn [fold_left map fst] in *. apply elem_of_cons in Hin as [->|Hin]; [|by apply IH].
  apply (keys_spread_mono fs). destruct (decide (x ∈ map fst into)) as [Hx|Hx].
  - by rewrite keys_set_field_in.
  - rewrite set_field_fresh by done. rewrite map_app. apply elem_of_app.
    right. cbn. left.
Qed.

(** The lifecycle [createCanonContext] returns: nothing emitted, a builder
    that is not finalized, and a record with the fields of the context and
    of the initial data. *)
Lemma createCanonContext_builder cfg rid tid init dbg now ts w :
  let st0 := createCanonContext cfg rid tid init dbg now ts w in
  emitted st0 = false ∧ debug st0 = dbg ∧ config st0 = cfg ∧ sink_calls st0 = []
  ∧ finalized (builder st0) = false ∧ startTime (builder st0) = now
  ∧ ∃ fs, store (world_of st0) !! event (builder st0) = Some (Obj fs)
          ∧ NoDup (map fst fs)
          ∧ "timestamp" ∈ map fst fs ∧ "request_id" ∈ map fst fs
          ∧ "service" ∈ map fst fs
          ∧ ∀ k, k ∈ keys (store w) init → k ∈ map fst fs.
Proof.
  unfold createCanonContext, createEventBuilder, alloc.
  cbn [fst snd store with_store].
  set (base := spread (own_fields (store w) init) _).
  split_and!; try done.
  exists (spread (own_fields (store w ++ [Obj base]) (length (store w))) []).
  split; [by apply list_lookup_middle|].
  unfold own_fields at 1 2 3 4 5. rewrite list_lookup_middle by done.
  split; [apply nodup_spread; constructor|].
  split_and!.
  - apply keys_spread_source, keys_spread_mono, list_elem_of_In. cbn. tauto.
  - apply keys_spread_source, keys_spread_mono, list_elem_of_In. cbn. tauto.
  - apply keys_spread_source, keys_spread_mono, list_elem_of_In. cbn. tauto.
  - intros k Hk. by apply keys_spread_source, keys_spread_source.
Qed.

(** After the calls of business code the lifecycle is as it was, but for
    the record, which is still an object holding the keys it had. *)
Lemma context_calls_builder cs st fs :
  store (world_of st) !! event (builder st) = Some (Obj fs) →
  NoDup (map fst fs) →
  let st1 := context_calls cs st in
  emitted st1 = emitted st ∧ debug st1 = debug st ∧ config st1 = config st
  ∧ sink_calls st1 = sink_calls st
  ∧ finalized (builder st1) = finalized (builder st)
  ∧ ∃ fs', store (world_of st1) !! event (builder st1) = Some (Obj fs')
           ∧ ∀ k, k ∈ map fst fs → k ∈ map fst fs'.
Proof.
  intros He Hnd st1.
  destruct (context_calls_fields cs st) as (H1 & H2 & H3 & H4 & H5 & H6).
  fold st1 in H1, H2, H3, H4, H5, H6.
  split_and!; try done.
  - by rewrite H5, run_calls_unfinalized.
  - destruct (run_calls_key cs (builder st) (world_of st) fs He Hnd)
      as (fs' & Hfs' & _ & Hk & _).
    exists fs'. by rewrite H5, H6.
Qed.

Lemma deliver_first sg rest st :
  deliver (sg :: rest) st = emitEvent sg st.
Proof. cbn [deliver]. apply deliver_noop, emitEvent_emitted. Qed.

Lemma run_calls_startTime cs : ∀ b w,
  startTime (run_calls cs b w).1 = startTime b.
Proof.
  induction cs as [|c cs IH]; intros b w; [done|]. cbn [run_calls].
  assert (Hc : startTime (run_call c b w).1 = startTime b).
  { destruct c; cbn [run_call]; unfold enrich, set, markError;
      destruct (finalized b); try done.
    all: try by destruct (mergeDeep _ _ _).
    all: try by destruct (setPath _ _ _ _). }
  destruct (run_call c b w) as [b' w']. cbn [fst snd] in *. by rewrite IH.
Qed.

(** What the first signal does to a lifecycle made by the context
    manager and used by business code, when redaction is off and the
    decision to emit is positive. *)
Lemma first_signal_emits cfg rid tid init dbg now ts w cs sg :
  let st1 := context_calls cs (createCanonContext cfg rid tid init dbg now ts w) in
  let fin := finalize (sig_outcome sg) (sig_status sg) (sig_now sg) (builder st1)
               (world_of st1) in
  let red := applyRedaction fin.1 (redact cfg) (schema cfg) (store fin.2.2) in
  emitted st1 = false ∧ debug st1 = dbg ∧ config st1 = cfg ∧ sink_calls st1 = []
  ∧ (redact cfg = None ∨ (∃ c, redact cfg = Some c ∧ enabled c = false) →
     get_prop red.2 red.1 "status_code" = Data (VNum (sig_status sg))
     ∧ get_prop red.2 red.1 "duration_ms" = Data (VNum (sig_now sg - now))
     ∧ ∀ k, k ∈ ["timestamp"; "request_id"; "service"; "status_code"; "duration_ms";
                 "outcome"] ∨ k ∈ keys (store w) init →
            has_own red.2 red.1 k = true).
Proof.
  intros st1 fin red.
  destruct (createCanonContext_builder cfg rid tid init dbg now ts w)
    as (E0 & D0 & C0 & S0 & F0 & T0 & fs & Hfs & Hnd & K1 & K2 & K3 & K4).
  destruct (context_calls_builder cs _ fs Hfs Hnd) as (E1 & D1 & C1 & S1 & F1 & fs' & Hfs' & Hk).
  fold st1 in E1, D1, C1, S1, F1, Hfs', Hk.
  split_and!; try congruence.
  intros Hoff. unfold red. rewrite applyRedaction_off by done.
  assert (Hstart : startTime (builder st1) = now).
  { unfold st1. destruct (context_calls_fields cs
      (createCanonContext cfg rid tid init dbg now ts w)) as (_ & _ & _ & _ & -> & _).
    by rewrite run_calls_startTime. }
  destruct (finalized_copy (sig_outcome sg) (sig_status sg) (sig_now sg)
              (builder st1) (world_of st1) fs' ltac:(congruence) Hfs')
    as (fs2 & H2 & A1 & A2 & Hkeys & B1 & B2 & B3).
  fold fin in H2. rewrite Hstart in A2.
  split_and!.
  - by apply (get_prop_present _ _ fs2).
  - by apply (get_prop_present _ _ fs2).
  - intros k Hk'. unfold has_own, get_own. rewrite H2.
    assert (Hin : k ∈ map fst fs2).
    { destruct Hk' as [Hk'|Hk'].
      - repeat (apply elem_of_cons in Hk' as [->|Hk']; [by (done || apply Hkeys, Hk)|]).
        by apply elem_of_nil in Hk'.
      - by apply Hkeys, Hk, K4. }
    destruct (assoc k fs2) eqn:Ha; [done|]. by apply assoc_None_keys in Ha.
Qed.



(** X25: failures are never sampled away.  Without strict mode, with the
    default sampling rules (no configuration, or a rules object without
    custom function) and with redaction off, a request that completes with a
    status of 500 or more, 408 or 429 is emitted exactly once also outside
    debug mode, whatever the success rate and the random draw, and the
    record carries that status code. *)
Theorem failures_are_always_emitted (cfg : CanonConfig) (rid : string)
    (tid : option string) (init : loc) (dbg : bool) (now : Z) (ts : string)
    (w : world) (cs : list call) (sg : signal) (rest : list signal) :
  strict cfg ≠ Some true →
  sample cfg = None ∨ (∃ c, sample cfg = Some (SampleRules c) ∧ custom c = None) →
  redact cfg = None ∨ (∃ c, redact cfg = Some c ∧ enabled c = false) →
  (500 ≤ sig_status sg ∨ sig_status sg = 408 ∨ sig_status sg = 429)%Z →
  let final :=
    deliver (sg :: rest)
      (context_calls cs (createCanonContext cfg rid tid init dbg now ts w)) in
  ∃ r, sink_calls final = [r]
       ∧ isEmitted (builder final) = true
       ∧ get_prop (store (world_of final)) r "status_code"
         = Data (VNum (sig_status sg)).
Proof.
  intros Hstrict Hsample Hoff Hstatus final. unfold final. rewrite deliver_first.
  destruct (first_signal_emits cfg rid tid init dbg now ts w cs sg)
    as (E & D & C & S & Hrec).
  destruct (Hrec Hoff) as (H1 & _ & _).
  rewrite (emitEvent_unfold _ _ E). cbn zeta. rewrite C, D, S.
  assert (Hs : default false (strict cfg) = false).
  { destruct (strict cfg) as [[|]|]; try done. }
  rewrite Hs, andb_false_r.
  set (fin := finalize _ _ _ _ _) in *.
  set (red := applyRedaction _ _ _ _) in *.
  assert (Hkeep : shouldSample red.2 red.1 (sample cfg) (sig_random sg) = true).
  { destruct Hsample as [->|(c & -> & Hc)]; cbn [shouldSample]; [|rewrite Hc];
      by eapply shouldSampleDefault_status. }
  rewrite Hkeep, andb_false_r. cbn [app].
  eexists. split; [reflexivity|]. cbn [builder world_of store]. by split.
Qed.

Lemma failures_are_always_emitted_witness :
  let cfg := {| service := "api"; version := None; deployment_id := None;
                region := None; schema := None; strict := None;
                sample := Some (SampleRules {| sampleRateSuccess := Some 0%Q;
                                               slowThresholdMs := None;
                                               custom := None |});
                redact := None |} in
  let w := World [Obj [("method", VStr "GET"); ("path", VStr "/")]] [] in
  length (sink_calls
            (deliver [Signal Success 503 7 (1 # 2)]
               (context_calls [] (createCanonContext cfg "req_a" None 0 false 0 "t" w))))
  = 1%nat.
Proof.
  intros cfg w.
  destruct (failures_are_always_emitted cfg "req_a" None 0 false 0 "t" w []
              (Signal Success 503 7 (1 # 2)) []) as (r & H & _).
  - discriminate.
  - right. by eexists.
  - by left.
  - left. cbn. lia.
  - by rewrite H.
Defined.

Lemma hasPath_single h o k :
  includes "." k = false → has_own h o k = true → hasPath h o k = true.
Proof.
  intros Hk Ho. unfold hasPath. rewrite split_on_absent by done.
  cbn [hasPath_walk]. unfold has_property, has_own in *.
  by destruct (get_own h o k).
Qed.

Lemma createInitialEventData_keys method path ip userAgent route h :
  let d := createInitialEventData method path ip userAgent route h in
  "method" ∈ keys d.2 d.1 ∧ "path" ∈ keys d.2 d.1
  ∧ get_prop d.2 d.1 "path" = Data (VStr path)
  ∧ d.1 = length h ∧ ∀ l, (l < length h)%nat → d.2 !! l = h !! l.
Proof.
  unfold createInitialEventData, alloc, keys, own_fields. cbn [fst snd].
  rewrite list_lookup_middle by done.
  assert (Hm : ∀ k x data key v, assoc key data = Some v → key ≠ k →
                 key ∈ map fst (set_if_given k x data)
                 ∧ assoc key (set_if_given k x data) = Some v).
  { intros k x data key v Ha Hne. unfold set_if_given.
    assert (Hin : key ∈ map fst data).
    { apply dec_stable. intros Hno. apply assoc_None_keys in Hno. congruence. }
    destruct x as [s|]; [|done]. destruct (truthy _); [|done].
    split; [by apply keys_set_field_mono|]. by rewrite assoc_set_field_ne. }
  set (d0 := [("method", VStr (toUpperCase method)); ("path", VStr path)]).
  destruct (Hm "ip" ip d0 "method" _ eq_refl ltac:(done)) as [_ M1].
  destruct (Hm "ip" ip d0 "path" _ eq_refl ltac:(done)) as [_ P1].
  destruct (Hm "user_agent" userAgent _ "method" _ M1 ltac:(done)) as [_ M2].
  destruct (Hm "user_agent" userAgent _ "path" _ P1 ltac:(done)) as [_ P2].
  destruct (Hm "route" route _ "method" _ M2 ltac:(done)) as [M3 _].
  destruct (Hm "route" route _ "path" _ P2 ltac:(done)) as [P3 P4].
  split_and!; [done|done| |done|].
  - unfold get_prop, get_own. rewrite list_lookup_middle by done. by rewrite P4.
  - intros l Hl. by apply lookup_app_l.
Qed.

Lemma finalize_stderr outcome statusCode now b w :
  stderr (finalize outcome statusCode now b w).2.2 = stderr w.
Proof. by rewrite finalize_unfold. Qed.



End PipelineFacts.

Section AdapterFacts.

Import Merge Event Redact Schema Sampling Canon Express.

Lemma get_prop_data_own h l k v :
  get_prop h l k = Data v → v ≠ VUndefined → get_own h l k = Some v.
Proof.
  unfold get_prop. destruct (get_own h l k) as [x|]; [by intros [= ->]|].
  destruct (inherited h l k); [done|]. by intros [= <-].
Qed.

(** A datum that [finalize] leaves at the top level of the record is found
    in the copy that is emitted when redaction is off. *)
Lemma finalized_copy_own outcome statusCode now b w fs k v :
  Event.finalized b = false → store w !! event b = Some (Obj fs) →
  (∀ r, v ≠ VRef r) →
  let fin := finalize outcome statusCode now b w in
  let red := snapshot_object fin.1 (store fin.2.2) in
  get_own (store fin.2.2) (event b) k = Some v →
  get_own red.2 red.1 k = Some v.
Proof.
  intros Hf He Hv fin red. unfold red, fin. rewrite finalize_unfold. cbn zeta.
  cbn [fst snd store with_store].
  destruct (finalize_store_fields outcome statusCode now b (store w) fs Hf He)
    as (fs' & Hfs' & _).
  set (h := finalize_store outcome statusCode now b (store w)) in *.
  destruct (snapshot_keys (event b) h fs' Hfs') as (fs1 & H1 & K1 & A1).
  destruct (snapshot_object_frame (event b) h) as [_ Hfr].
  set (s1 := snapshot_object (event b) h) in *.
  destruct (snapshot_keys s1.1 s1.2 fs1 H1) as (fs2 & H2 & K2 & A2).
  unfold get_own. rewrite H2, Hfr, Hfs' by by eapply lookup_lt_Some.
  intros Ha. apply A2; [|done]. by apply A1.
Qed.

(** The first signal on a lifecycle whose record holds no outcome, or the
    outcome of a marked error: when the record is not held back, the sink
    gets one record, with the status code of the signal and the outcome of
    the policy. *)
Lemma emit_marked sg st marked :
  Canon.emitted st = false →
  record_state marked (builder st) (store (world_of st)) →
  redact (config st) = None
  ∨ (∃ c, redact (config st) = Some c ∧ enabled c = false) →
  strict (config st) ≠ Some true →
  debug st = true
  ∨ ((sample (config st) = None
      ∨ ∃ c, sample (config st) = Some (SampleRules c) ∧ custom c = None)
     ∧ policy_outcome marked (sig_outcome sg) (sig_status sg) ≠ Success) →
  ∃ r, sink_calls (emitEvent sg st) = sink_calls st ++ [r]
       ∧ Canon.emitted (emitEvent sg st) = true
       ∧ get_prop (store (world_of (emitEvent sg st))) r "status_code"
         = Data (VNum (sig_status sg))
       ∧ get_prop (store (world_of (emitEvent sg st))) r "outcome"
         = Data (VStr (outcome_name
                         (policy_outcome marked (sig_outcome sg) (sig_status sg)))).
Proof.
  intros He Hst Hoff Hstrict Hkeep.
  pose proof (finalize_record_state marked (sig_outcome sg) (sig_status sg)
                (sig_now sg) (builder st) (world_of st) Hst) as Hout.
  destruct Hst as (Hf & fs & Hfs & Hnd & _).
  destruct (finalized_copy (sig_outcome sg) (sig_status sg) (sig_now sg)
              (builder st) (world_of st) fs Hf Hfs) as (fs2 & H2 & A1 & _).
  pose proof (finalized_copy_own (sig_outcome sg) (sig_status sg) (sig_now sg)
                (builder st) (world_of st) fs "outcome"
                (VStr (outcome_name
                         (policy_outcome marked (sig_outcome sg) (sig_status sg))))
                Hf Hfs ltac:(done)
                (get_prop_data_own _ _ _ _ Hout ltac:(done))) as Ho.
  rewrite (emitEvent_unfold _ _ He). cbn zeta.
  rewrite (applyRedaction_off _ _ _ _ Hoff).
  set (fin := finalize _ _ _ _ _) in *.
  set (red := snapshot_object _ _) in *.
  assert (Hs : default false (strict (config st)) = false).
  { destruct (strict (config st)) as [[|]|]; try done. }
  rewrite Hs, andb_false_r.
  assert (Hk : negb (debug st)
               && negb (shouldSample red.2 red.1 (sample (config st)) (sig_random sg))
               = false).
  { destruct Hkeep as [->|[Hsample Hpol]]; [done|].
    assert (shouldSample red.2 red.1 (sample (config st)) (sig_random sg) = true)
      as ->; [|apply andb_false_r].
    assert (Hname : get_prop red.2 red.1 "outcome"
                    = Data (VStr (outcome_name
                         (policy_outcome marked (sig_outcome sg) (sig_status sg)))))
      by by apply get_prop_own.
    destruct Hsample as [->|(c & -> & Hc)]; cbn [shouldSample]; [|rewrite Hc];
      (eapply shouldSampleDefault_outcome; [exact Hname|]);
      by destruct (policy_outcome _ _ _); [|right|left]. }
  rewrite Hk. eexists. split; [reflexivity|]. cbn [Canon.emitted world_of store].
  split; [done|]. split.
  - by apply (get_prop_present _ _ fs2).
  - by apply get_prop_own.
Qed.

Lemma context_get_fields st :
  Canon.emitted (context_get st).2 = Canon.emitted st
  ∧ debug (context_get st).2 = debug st
  ∧ config (context_get st).2 = config st
  ∧ sink_calls (context_get st).2 = sink_calls st
  ∧ builder (context_get st).2 = builder st
  ∧ store (world_of (context_get st).2)
    = (snapshot_object (event (builder st)) (store (world_of st))).2.
Proof.
  unfold context_get, get. by destruct (snapshot_object _ _).
Qed.

Lemma context_get_record_state marked st :
  record_state marked (builder st) (store (world_of st)) →
  record_state marked (builder (context_get st).2)
    (store (world_of (context_get st).2)).
Proof.
  intros (Hf & fs & Hfs & Hrest).
  destruct (context_get_fields st) as (_ & _ & _ & _ & -> & ->).
  split; [done|]. exists fs. split; [|done].
  destruct (snapshot_object_frame (event (builder st)) (store (world_of st)))
    as [_ Hfr].
  rewrite Hfr; [done|]. by eapply lookup_lt_Some.
Qed.

(** [finalizeOnce] on an exchange that is not finalized: the signal goes
    to the context, after the route has been noted where there is one. *)
Lemma finalizeOnce_unfold outcome override m x :
  Express.finalized x = false →
  ∃ st,
    finalizeOnce outcome override m x
    = Exchange
        (emitEvent
           (Signal outcome
              (match override with
               | Some c => c
               | None => if truthy (Data (VNum (statusCode x))) then statusCode x
                         else 200%Z
               end) (at_now m) (at_random m)) st)
        true (route_path x) (statusCode x) (writableEnded x)
    ∧ Canon.emitted st = Canon.emitted (context x)
    ∧ debug st = debug (context x)
    ∧ config st = config (context x)
    ∧ sink_calls st = sink_calls (context x)
    ∧ ∀ marked,
        record_state marked (builder (context x)) (store (world_of (context x))) →
        record_state marked (builder st) (store (world_of st)).
Proof.
  intros Hf. unfold finalizeOnce. rewrite Hf.
  destruct (route_path x) as [p|]; [|by eexists].
  destruct (truthy (Data (VStr p))); [|by eexists].
  destruct (context_get_fields (context x)) as (G1 & G2 & G3 & G4 & G5 & G6).
  pose proof (λ marked, context_get_record_state marked (context x)) as Hrs.
  destruct (context_get (context x)) as [snap st1]. cbn [fst snd] in *.
  destruct (negb _); [|by eexists].
  destruct (context_calls_fields [CallSet "route" (VStr p)] st1)
    as (C1 & C2 & C3 & C4 & C5 & C6).
  eexists. split; [reflexivity|]. split_and!; try congruence.
  intros marked Hst. rewrite C5, C6.
  replace marked with (marked || existsb marks_error [CallSet "route" (VStr p)])
    by apply orb_false_r.
  apply run_calls_record_state; [by apply Hrs|].
  cbn [reserved_untouched writes_key].
  destruct (run_call _ _ _). reflexivity.
Qed.

Lemma handle_sink x e :
  (Express.finalized x = true →
   Express.finalized (handle x e) = true
   ∧ sink_calls (context (handle x e)) = sink_calls (context x))
  ∧ (Express.finalized x = false →
     sink_calls (context (handle x e)) = sink_calls (context x)
     ∨ (Express.finalized (handle x e) = true
        ∧ ∃ r, sink_calls (context (handle x e)) = sink_calls (context x) ++ [r])).
Proof.
  destruct e as [m|m]; cbn [handle].
  - unfold on_finish.
    destruct (context_get_fields (context x)) as (_ & _ & _ & G4 & _).
    destruct (context_get (context x)) as [snap st1]. cbn [fst snd] in *.
    set (o := if negb _ then Error else Success). clearbody o.
    split; intros Hf.
    + unfold finalizeOnce. cbn [with_context Express.finalized]. rewrite Hf.
      by cbn [Express.finalized context].
    + destruct (finalizeOnce_unfold o None m (with_context x st1) Hf)
        as (st & -> & _ & _ & _ & S & _).
      cbn [context Express.finalized with_context statusCode route_path
           writableEnded] in *.
      destruct (emitEvent_sink
                  (Signal o (if truthy (Data (VNum (statusCode x)))
                             then statusCode x else 200%Z) (at_now m) (at_random m)) st)
        as [Hs|(r & _ & Hs)]; rewrite Hs, S, G4; [by left|right].
      split; [done|]. by exists r.
  - unfold on_close. split; intros Hf; rewrite Hf; [done|].
    destruct (writableEnded x); [by left|].
    destruct (finalizeOnce_unfold Aborted (Some 499%Z) m x Hf)
      as (st & -> & _ & _ & _ & S & _).
    cbn [context Express.finalized].
    destruct (emitEvent_sink (Signal Aborted 499 (at_now m) (at_random m)) st)
      as [Hs|(r & _ & Hs)]; rewrite Hs, S; [by left|right].
    split; [done|]. by exists r.
Qed.

(** X27: over any sequence of [finish] and [close] events the handlers of
    the adapter call the sink at most once; once the middleware has
    finalized, no later event calls it again. *)
Theorem handlers_emit_at_most_once (es : list response_event) (x : exchange) :
  (length (sink_calls (context (fold_left handle es x)))
   ≤ length (sink_calls (context x)) + 1)%nat
  ∧ (Express.finalized x = true →
     sink_calls (context (fold_left handle es x)) = sink_calls (context x)
     ∧ Express.finalized (fold_left handle es x) = true).
Proof.
  assert (Hfin : ∀ es x, Express.finalized x = true →
            sink_calls (context (fold_left handle es x)) = sink_calls (context x)
            ∧ Express.finalized (fold_left handle es x) = true).
  { clear. induction es as [|e es IH]; intros x Hf; [done|].
    cbn [fold_left]. destruct (handle_sink x e) as [H _].
    destruct (H Hf) as [H1 H2]. destruct (IH _ H1) as [K1 K2].
    by rewrite K1, H2. }
  split; [|by apply Hfin].
  revert x. induction es as [|e es IH]; intros x; [cbn; lia|].
  cbn [fold_left].
  destruct (Express.finalized x) eqn:Hf.
  - destruct (handle_sink x e) as [H _]. destruct (H Hf) as [H1 H2].
    specialize (IH (handle x e)). rewrite H2 in IH. done.
  - destruct (handle_sink x e) as [_ H]. destruct (H Hf) as [Hs|(Hf' & r & Hs)].
    + specialize (IH (handle x e)). by rewrite Hs in IH.
    + destruct (Hfin es _ Hf') as [K _]. rewrite K, Hs, length_app. cbn. lia.
Qed.

Lemma createCanonContext_record_state cfg rid tid init dbg now ts w :
  "outcome" ∉ keys (store w) init → "error" ∉ keys (store w) init →
  record_state false (builder (createCanonContext cfg rid tid init dbg now ts w))
    (store (world_of (createCanonContext cfg rid tid init dbg now ts w))).
Proof.
  intros Ho He. unfold createCanonContext, alloc.
  set (base := spread (own_fields (store w) init) _).
  set (w1 := with_store w (store w ++ [Obj base])).
  assert (Hk : ∀ k, k ∉ keys (store w) init →
                    k ∉ ["timestamp"; "request_id"; "trace_id"; "service"; "version";
                         "deployment_id"; "region"] →
                    k ∉ keys (store w1) (length (store w))).
  { intros k H1 H2. unfold keys at 1, own_fields, w1. cbn [store with_store].
    rewrite list_lookup_middle by done. apply assoc_None_keys.
    unfold base. rewrite assoc_spread_absent by done. by apply assoc_None_keys. }
  pose proof (createEventBuilder_record_state (length (store w)) now w1
                (Hk _ Ho ltac:(apply (bool_decide_unpack _); reflexivity))
                (Hk _ He ltac:(apply (bool_decide_unpack _); reflexivity))) as Hrs.
  by destruct (createEventBuilder _ _ _).
Qed.



End AdapterFacts.

Section RedactionScope.

Import Merge Redact.

(** The loop of [applyRedaction] keeps the top-level keys no listed path
    starts with, and the result stays an object with distinct keys. *)
Lemma redact_paths_top schema g k paths : ∀ st F,
  st.2 !! st.1 = Some (Obj F) → NoDup (map fst F) →
  (∀ p, p ∈ paths → head (split_on "." p) ≠ Some k) →
  ∃ F', (fold_left (redact_path schema g) paths st).2
          !! (fold_left (redact_path schema g) paths st).1 = Some (Obj F')
        ∧ NoDup (map fst F')
        ∧ assoc k F' = assoc k F.
Proof.
  induction paths as [|p paths IH]; intros [result h] F HF Hnd Hk.
  - by exists F.
  - cbn [fold_left]. cbn [fst snd] in HF.
    assert (Hstep : ∃ F1, (redact_path schema g (result, h) p).2
                            !! (redact_path schema g (result, h) p).1 = Some (Obj F1)
                          ∧ NoDup (map fst F1) ∧ assoc k F1 = assoc k F).
    { unfold redact_path. destruct (negb _); [|by exists F].
      destruct (setPath_spec result p
                  (redactValue h (getPath h result p) (field_strategy schema p g)) h)
        as (_ & _ & _ & (F1 & HF1 & Hnd1 & Hk1) & _).
      exists F1. split; [done|]. split; [done|].
      rewrite Hk1 by (apply Hk; left). unfold own_fields. rewrite HF.
      by rewrite spread_nil_nodup. }
    destruct Hstep as (F1 & HF1 & Hnd1 & Hk1).
    destruct (IH _ F1 HF1 Hnd1) as (F' & HF' & Hnd' & Hk').
    { intros q Hq. apply Hk. by right. }
    exists F'. split; [done|]. split; [done|]. congruence.
Qed.

Lemma assoc_unfold_eq (f g : value → tree) (l1 l2 : list (string * value)) k :
  map (λ kv, (kv.1, f kv.2)) l1 = map (λ kv, (kv.1, g kv.2)) l2 →
  f <$> assoc k l1 = g <$> assoc k l2.
Proof.
  intros H. by rewrite <- (assoc_map_value f), <- (assoc_map_value g), H.
Qed.

(** X29: redaction leaves alone what it was not asked to redact: a
    top-level key with which none of the paths to redact starts is in the
    result exactly if it is in the original record, and its value there has
    the structure it has in the original, at every depth. *)
Theorem redaction_leaves_other_fields (event : loc) (c : RedactionConfig)
    (schema : option CanonSchema) (h : heap) (fs : list (string * value))
    (k : string) :
  heap_ok h = true → h !! event = Some (Obj fs) →
  (∀ p, p ∈ (if (0 <? length (redact_fields c))%nat then redact_fields c
             else DEFAULT_SENSITIVE_FIELDS) →
        head (split_on "." p) ≠ Some k) →
  let r := applyRedaction event (Some c) schema h in
  has_own r.2 r.1 k = has_own h event k
  ∧ ∀ n, unfold n r.2 (get_own_or_undefined r.2 r.1 k)
         = unfold n h (get_own_or_undefined h event k).
Proof.
  intros Hok He Hk r.
  assert (Hlt : (event < length h)%nat) by by eapply lookup_lt_Some.
  destruct (snapshot_object_spec event h Hok Hlt) as (Hok1 & Hge & Hlt1 & Heq & _).
  destruct (snapshot_keys event h fs He) as (fs1 & Hfs1 & _ & _).
  set (s := snapshot_object event h) in *.
  assert (Hnd1 : NoDup (map fst fs1)).
  { pose proof (heap_ok_closed _ Hok1) as [_ Hcl].
    eapply obj_ok_nodup, Hcl; [|done]. done. }
  assert (Hr : ∃ F', r.2 !! r.1 = Some (Obj F') ∧ assoc k F' = assoc k fs1
                     ∧ ∀ l, (l < length s.2)%nat → r.2 !! l = s.2 !! l).
  { unfold r, applyRedaction. fold s.
    destruct s as [s1 h1] eqn:Hs. cbn [fst snd] in *.
    destruct (enabled c); cbn [negb].
    - destruct (redact_paths_top schema (default Mask (strategy c)) k _
                  (s1, h1) fs1 Hfs1 Hnd1 Hk) as (F' & HF' & _ & Hk').
      destruct (redact_paths_frame schema (default Mask (strategy c))
                  (if (0 <? length (redact_fields c))%nat then redact_fields c
                   else DEFAULT_SENSITIVE_FIELDS) (s1, h1)) as [_ Hfr].
      by exists F'.
    - by exists fs1. }
  destruct Hr as (F' & HF' & Hk' & Hfr).
  assert (Hval : ∀ n, unfold n s.2 <$> assoc k fs1 = unfold n h <$> assoc k fs).
  { intros n. apply assoc_unfold_eq. specialize (Heq (S n)). cbn [unfold] in Heq.
    rewrite Hfs1, He in Heq. by injection Heq. }
  unfold has_own, get_own_or_undefined, get_own. rewrite HF', He, Hk'.
  split.
  - specialize (Hval 0%nat). by destruct (assoc k fs1), (assoc k fs).
  - intros n. specialize (Hval n).
    assert (Hag : ∀ v, assoc k fs1 = Some v → unfold n r.2 v = unfold n s.2 v).
    { intros v Hv. apply (unfold_agree (length s.2)); [by apply heap_ok_closed|done|].
      pose proof (heap_ok_closed _ Hok1) as [_ Hcl].
      apply (obj_ok_values _ (Obj fs1) (Hcl _ _ Hlt1 Hfs1)). cbn [obj_values].
      apply assoc_Some_elem in Hv. apply list_elem_of_fmap. by exists (k, v). }
    destruct (assoc k fs1) as [v1|], (assoc k fs) as [v|]; cbn in Hval; try done.
    + rewrite Hag by done. by injection Hval.
    + by destruct n.
Qed.

Lemma redaction_leaves_other_fields_witness :
  let h := [Obj [("user", VRef 1); ("cart", VRef 2)];
            Obj [("email", VStr "john@example.com")];
            Obj [("total", VNum 3)]] in
  let cfg := {| enabled := true; strategy := Some Hash;
                redact_fields := ["user.email"] |} in
  unfold 1 (applyRedaction 0 (Some cfg) None h).2
    (get_own_or_undefined (applyRedaction 0 (Some cfg) None h).2
       (applyRedaction 0 (Some cfg) None h).1 "cart")
  = TObj [("total", TNum 3)].
Proof.
  intros h cfg.
  destruct (redaction_leaves_other_fields 0 cfg None h _ "cart" eq_refl eq_refl)
    as [_ H].
  - intros p Hp. apply list_elem_of_singleton in Hp as ->. discriminate.
  - etrans; [apply (H 1%nat)|]. reflexivity.
Defined.

End RedactionScope.

Section MergeIdempotent.

Import Merge.

Lemma elem_of_spread (fs : list (string * value)) : ∀ into k v,
  (k, v) ∈ spread fs into → (k, v) ∈ fs ∨ (k, v) ∈ into.
Proof.
  unfold spread. induction fs as [|[x y] fs IH]; intros into k v Hin; [by right|].
  cbn [fold_left fst snd] in Hin. apply IH in Hin as [Hin|Hin].
  - left. by right.
  - apply elem_of_set_field in Hin as [Hin|[= -> ->]]; [by right|]. left. left.
Qed.

Lemma own_fields_ok h l k v :
  heap_ok h = true → (k, v) ∈ own_fields h l → value_ok (length h) v = true.
Proof.
  intros Hok Hin. unfold own_fields in Hin.
  destruct (h !! l) as [o|] eqn:Hl; [|by apply elem_of_nil in Hin].
  pose proof (proj1 (heap_ok_spec h) Hok l o Hl) as Ho.
  apply (obj_ok_values _ o Ho). destruct o as [fs|vs]; cbn [obj_values].
  - apply list_elem_of_fmap. by exists (k, v).
  - apply list_elem_of_lookup in Hin as [i Hi].
    rewrite list_lookup_imap in Hi.
    destruct (vs !! i) as [x|] eqn:Hx; cbn in Hi; [|done].
    injection Hi as _ <-. by eapply list_elem_of_lookup_2.
Qed.

Lemma copy_ok (fs into : list (string * value)) n :
  (∀ k v, (k, v) ∈ fs → value_ok n v = true) →
  (∀ k v, (k, v) ∈ into → value_ok n v = true) →
  NoDup (map fst into) →
  obj_ok n (Obj (spread fs into)) = true.
Proof.
  intros H1 H2 Hnd. apply obj_ok_intro_obj; [|by apply nodup_spread].
  intros k v Hin. apply elem_of_spread in Hin as [Hin|Hin]; eauto.
Qed.

Lemma merge_loop_heap_ok recurse s result :
  (∀ t' s', allocates_only (recurse t' s')) →
  (∀ t' s' h, heap_ok h = true → heap_ok (recurse t' s' h).2 = true) →
  ∀ ks hacc, heap_ok hacc = true →
    heap_ok (fold_left (merge_key recurse s result) ks hacc) = true.
Proof.
  intros Hrec Hok ks. induction ks as [|key ks IH]; intros hacc Hacc; [done|].
  cbn [fold_left]. apply IH.
  destruct (merge_key_cases recurse s result hacc key)
    as [[_ ->]|(sl & tl & _ & _ & _ & _ & ->)].
  - apply set_prop_heap_ok; [done|]. unfold get_own_or_undefined.
    destruct (get_own hacc s key) as [v|] eqn:Hv; [|done].
    destruct (decide (s < length hacc)%nat) as [Hs|Hs].
    + by eapply get_own_value_ok; [apply heap_ok_closed| |].
    + unfold get_own in Hv. by rewrite lookup_ge_None_2 in Hv by lia.
  - destruct (Hrec tl sl hacc) as (H1 & H2 & _).
    apply set_prop_heap_ok; [by apply Hok|]. apply value_ok_lt. lia.
Qed.

Lemma mergeDeep_from_heap_ok remaining : ∀ t s h,
  heap_ok h = true → heap_ok (mergeDeep_from remaining t s h).2 = true.
Proof.
  induction remaining as [|remaining IH]; intros t s h Hok.
  - cbn [mergeDeep_from]. apply alloc_heap_ok; [done|].
    apply copy_ok.
    + intros k v Hin. eapply value_ok_mono; [|by eapply own_fields_ok]. lia.
    + intros k v Hin. apply elem_of_spread in Hin as [Hin|Hin];
        [|by apply elem_of_nil in Hin].
      eapply value_ok_mono; [|by eapply own_fields_ok]. lia.
    + apply nodup_spread. constructor.
  - cbn [mergeDeep_from]. unfold alloc. cbn [fst snd].
    apply merge_loop_heap_ok; [apply mergeDeep_from_allocates|exact IH|].
    apply (alloc_heap_ok (Obj (spread (own_fields h t) [])) h Hok).
    apply copy_ok.
    + intros k v Hin. eapply value_ok_mono; [|by eapply own_fields_ok]. lia.
    + intros k v Hin. by apply elem_of_nil in Hin.
    + constructor.
Qed.

Section Again.

Context (h : heap) (Hok : heap_ok h = true).

Lemma heap_object_ok l fs :
  h !! l = Some (Obj fs) →
  NoDup (map fst fs) ∧ ∀ k v, (k, v) ∈ fs → value_ok (length h) v = true.
Proof.
  intros Hl. pose proof (proj1 (heap_ok_spec h) Hok l _ Hl) as Ho.
  split; [by eapply obj_ok_nodup|]. intros k v Hin.
  apply (obj_ok_values _ _ Ho). cbn [obj_values]. apply list_elem_of_fmap.
  by exists (k, v).
Qed.

Lemma plain_unfold m v :
  tree_is_plain (unfold m h v) = true →
  ∃ l fs, v = VRef l ∧ h !! l = Some (Obj fs).
Proof.
  rewrite tree_is_plain_unfold. unfold isPlainObject.
  destruct v as [| | | | |l]; try done.
  destruct (h !! l) as [[fs|?]|] eqn:Hl; try done. by exists l, fs.
Qed.

Lemma only_in_source_nil {A B} (tf : list (string * A)) (sf : list (string * B)) :
  (∀ k, k ∈ map fst sf → k ∈ map fst tf) → only_in_source tf sf = [].
Proof.
  intros H. unfold only_in_source.
  induction sf as [|[k b] sf IH]; [done|]. cbn [List.filter fst].
  rewrite bool_decide_eq_true_2 by (apply H; left). cbn [negb].
  apply IH. intros k' Hk'. apply H. by right.
Qed.

Lemma unfold_obj m l fs :
  h !! l = Some (Obj fs) →
  unfold (S m) h (VRef l) = TObj (map (unfold_field h m) fs).
Proof. intros Hl. cbn [unfold]. by rewrite Hl. Qed.

Lemma merge_cut remaining :
  merge_as_specified remaining (TCut false) (TCut false) = TCut false.
Proof. by destruct remaining. Qed.

Lemma assoc_unfold_field m k (fs : list (string * value)) :
  assoc k (map (unfold_field h m) fs) = unfold m h <$> assoc k fs.
Proof. apply (assoc_map_value (unfold m h)). Qed.

Lemma self_merge_of_combine remaining :
  self_combine h remaining → self_merge h remaining.
Proof.
  intros HP m l fs Hl. destruct m as [|m].
  - cbn [unfold]. rewrite Hl. apply merge_cut.
  - rewrite (unfold_obj m l fs Hl), merge_as_specified_obj.
    destruct (heap_object_ok l fs Hl) as [Hnd Hv].
    rewrite only_in_source_nil by done. rewrite app_nil_r. f_equal.
    etrans; [|apply map_id].
    apply map_ext_in. intros [k x] Hin.
    apply in_map_iff in Hin as ([k0 v] & [= <- <-] & Hin%list_elem_of_In).
    cbn [fst snd]. rewrite assoc_unfold_field, (assoc_elem_nodup k0 v fs) by done.
    cbn. f_equal. apply HP. by eapply Hv.
Qed.

Lemma self_combine_step remaining :
  self_merge h remaining → self_combine h (S remaining).
Proof.
  intros HQ m v Hv. cbn [tree_combine].
  destruct (tree_is_plain (unfold m h v)) eqn:Hp; [|done]. cbn [andb].
  destruct (plain_unfold m v Hp) as (l & fs & -> & Hl). by eapply HQ.
Qed.

Lemma merge_again_of remaining :
  combine_again h remaining → self_combine h remaining → merge_again h remaining.
Proof.
  intros HRC HP m t s tf sf Ht Hs. destruct m as [|m].
  - cbn [unfold]. rewrite Ht, Hs. by rewrite !merge_cut.
  - rewrite (unfold_obj m t tf Ht), (unfold_obj m s sf Hs).
    rewrite !merge_as_specified_obj.
    destruct (heap_object_ok t tf Ht) as [Hndt Hvt].
    destruct (heap_object_ok s sf Hs) as [Hnds Hvs].
    set (TF := map (unfold_field h m) tf).
    set (SF := map (unfold_field h m) sf).
    set (L1 := map _ TF). set (L2 := only_in_source TF SF).
    assert (HkL1 : map fst L1 = map fst TF).
    { unfold L1. rewrite map_map. by apply map_ext. }
    assert (HinL2 : ∀ kv, kv ∈ L2 → kv ∈ SF ∧ kv.1 ∉ map fst TF).
    { intros kv Hin. unfold L2, only_in_source in Hin.
      apply list_elem_of_In, filter_In in Hin as [Hin Hf].
      split; [by apply list_elem_of_In|].
      apply negb_true_iff in Hf. by apply bool_decide_eq_false in Hf. }
    rewrite only_in_source_nil.
    2:{ intros k Hk. rewrite map_app, elem_of_app, HkL1.
        destruct (decide (k ∈ map fst TF)) as [Hin|Hin]; [by left|right].
        apply list_elem_of_fmap in Hk as (kv & -> & Hkv).
        apply list_elem_of_fmap. exists kv. split; [done|].
        unfold L2, only_in_source. apply list_elem_of_In, filter_In.
        split; [by apply list_elem_of_In|].
        apply negb_true_iff. by apply bool_decide_eq_false. }
    rewrite app_nil_r, map_app. f_equal. f_equal.
    + unfold L1. rewrite map_map. apply map_ext_in. intros [k x] Hin.
      apply in_map_iff in Hin as ([k0 tv] & [= <- <-] & Hin%list_elem_of_In).
      cbn [fst snd]. unfold SF. rewrite assoc_unfold_field.
      destruct (assoc k0 sf) as [sv|] eqn:Hsv; cbn; [|done]. f_equal.
      apply HRC; [by eapply Hvt|]. eapply Hvs. by apply assoc_Some_elem.
    + etrans; [|apply map_id]. apply map_ext_in. intros [k x] Hin%list_elem_of_In.
      destruct (HinL2 _ Hin) as [HinS _].
      apply list_elem_of_In, in_map_iff in HinS
        as ([k0 sv] & [= <- <-] & HinS%list_elem_of_In).
      cbn [fst snd]. unfold SF.
      rewrite assoc_unfold_field, (assoc_elem_nodup k0 sv sf) by done.
      cbn. f_equal. apply HP. by eapply Hvs.
Qed.

Lemma merge_plain remaining m t s tf sf :
  h !! t = Some (Obj tf) → h !! s = Some (Obj sf) →
  tree_is_plain
    (merge_as_specified remaining (unfold m h (VRef t)) (unfold m h (VRef s)))
  = true.
Proof.
  intros Ht Hs. destruct m as [|m].
  - cbn [unfold]. rewrite Ht, Hs. by rewrite merge_cut.
  - rewrite (unfold_obj m t tf Ht), (unfold_obj m s sf Hs).
    by rewrite merge_as_specified_obj.
Qed.

Lemma combine_again_step remaining :
  merge_again h remaining → self_combine h (S remaining) →
  combine_again h (S remaining).
Proof.
  intros HR HP m tv sv Htv Hsv.
  destruct (tree_is_plain (unfold m h sv) && tree_is_plain (unfold m h tv)) eqn:Hp.
  - apply andb_true_iff in Hp as [Hps Hpt].
    destruct (plain_unfold m sv Hps) as (s & sf & -> & Hs).
    destruct (plain_unfold m tv Hpt) as (t & tf & -> & Ht).
    cbn [tree_combine]. rewrite Hps, Hpt. cbn [andb].
    rewrite (merge_plain remaining m t s tf sf Ht Hs). cbn [andb].
    by eapply HR.
  - replace (tree_combine (S remaining) (unfold m h tv) (unfold m h sv))
      with (unfold m h sv) by (cbn [tree_combine]; by rewrite Hp).
    by apply HP.
Qed.

Lemma merge_again_all remaining :
  self_combine h remaining ∧ self_merge h remaining
  ∧ combine_again h remaining ∧ merge_again h remaining.
Proof.
  induction remaining as [|remaining (HP & HQ & HRC & HR)].
  - assert (HP : self_combine h 0) by (by intros m v _).
    assert (HRC : combine_again h 0) by (by intros m tv sv _ _).
    split_and!; [done|by apply self_merge_of_combine|done|by apply merge_again_of].
  - pose proof (self_combine_step remaining HQ) as HP'.
    pose proof (combine_again_step remaining HR HP') as HRC'.
    split_and!; [done|by apply self_merge_of_combine|done|by apply merge_again_of].
Qed.

End Again.

Lemma enrich_live o b w :
  Event.finalized b = false →
  Event.event (Event.enrich o b w).1 = (mergeDeep (Event.event b) o (Event.store w)).1
  ∧ Event.store (Event.enrich o b w).2
    = (mergeDeep (Event.event b) o (Event.store w)).2
  ∧ Event.finalized (Event.enrich o b w).1 = false.
Proof.
  intros Hf. unfold Event.enrich. rewrite Hf. by destruct (mergeDeep _ _ _).
Qed.



End MergeIdempotent.
